(** * plugin-octav: the portfolio action and provider

    A shallow embedding of [src/providers/index.ts] (the [octavProvider]),
    [src/actions/index.ts] (the [getPortfolioBalancesAction] with its
    formatter [formatPortfolioBalancesResponse]), [src/types.ts] and
    [src/index.ts] (the [octavPlugin] with its [init]), followed by the
    properties of the specification that they decide and by further
    properties of the code.

    Conventions.
    - A JavaScript string is a [string], the bytes of its UTF-8 form; the
      built-ins used by the plugin ([toLowerCase], [includes], [match],
      [toFixed], [join], [URLSearchParams]) are written out on the ASCII
      range; [Number] knows the white space and the line terminators
      outside that range as well.
    - A JavaScript number is a binary64 value, a [spec_float] at
      precision 53 and maximal exponent 1024; arithmetic is the one of
      [Floats.SpecFloat], rounding to nearest, ties to even.
    - An object with string keys ([chains], [assetByProtocols]) is the
      list of its own properties in creation order; [Object.entries]
      reorders it as the language does.
    - A result handed to the host ([ProviderResult], [ActionResult]) is a
      record of optional fields, [None] for a field the object does not
      have.
    - Effects (logger calls, the HTTP request, the host callback, thrown
      values) are threaded through a small monad [Eff] over a trace of
      events; the environment, the network and the clock are the fields
      of a [Host.t]. *)

From Stdlib Require Import ZArith NArith List Bool Ascii String Lia.
From Stdlib Require Import Permutation Sorted.
From Stdlib Require Import Floats.SpecFloat.
From Stdlib Require Import Numbers.DecimalString Numbers.DecimalPos.
Import ListNotations.
Local Open Scope string_scope.

(** ** String built-ins *)

Definition LF : string := String (ascii_of_nat 10) "".

Definition code (c : ascii) : N := N_of_ascii c.

Definition in_range (lo hi : N) (c : ascii) : bool :=
  ((lo <=? code c) && (code c <=? hi))%N.

(** [String.prototype.toLowerCase], on the ASCII letters. *)
Definition toLowerCase_char (c : ascii) : ascii :=
  if in_range 65 90 c then ascii_of_N (code c + 32) else c.

Fixpoint toLowerCase (s : string) : string :=
  match s with
  | EmptyString => EmptyString
  | String c t => String (toLowerCase_char c) (toLowerCase t)
  end.

(** [s.includes(k)]: [k] starts at some position of [s]. *)
Fixpoint includes (s k : string) : bool :=
  prefix k s ||
  match s with
  | EmptyString => false
  | String _ t => includes t k
  end.

(** [arr.join(sep)]. *)
Definition join (sep : string) (arr : list string) : string := concat sep arr.

(** A string is truthy when it is not empty. *)
Definition truthy_string (s : string) : bool :=
  match s with EmptyString => false | String _ _ => true end.

(** ** The address pattern [/0x[a-fA-F0-9]{40}/] *)

(** The character class [[a-fA-F0-9]]. *)
Definition is_hex (c : ascii) : bool :=
  in_range 97 102 c || in_range 65 70 c || in_range 48 57 c.

(** [[a-fA-F0-9]{n}] anchored at the head of [s]. *)
Fixpoint match_hex (n : nat) (s : string) : option string :=
  match n with
  | O => Some EmptyString
  | S n' =>
      match s with
      | String c t =>
          if is_hex c then option_map (String c) (match_hex n' t) else None
      | EmptyString => None
      end
  end.

(** The whole pattern anchored at the head of [s]. *)
Definition match_here (s : string) : option string :=
  match s with
  | String "0"%char (String "x"%char t) =>
      option_map (fun h => "0x" ++ h) (match_hex 40 t)
  | _ => None
  end.

(** [text.match(/0x[a-fA-F0-9]{40}/)]: the pattern is tried at each
    position from the left; the result is element [0] of the match array,
    or [None] for [null]. *)
Fixpoint match_address (text : string) : option string :=
  match match_here text with
  | Some m => Some m
  | None =>
      match text with
      | EmptyString => None
      | String _ t => match_address t
      end
  end.

(** ** Numbers *)

Definition prec : Z := 53.
Definition emax : Z := 1024.

Definition number : Type := spec_float.

(** The binary64 value nearest to [d * 10 ^ e10], with sign [s]. *)
Definition decimal_to_number (s : bool) (d : N) (e10 : Z) : number :=
  match d with
  | N0 => S754_zero s
  | Npos p =>
      if (0 <=? e10)%Z
      then binary_round prec emax s (p * Z.to_pos (10 ^ e10)) 0
      else SFdiv prec emax (S754_finite s p 0)
                           (S754_finite false (Z.to_pos (10 ^ (- e10))) 0)
  end.

Definition is_digit (c : ascii) : bool := in_range 48 57 c.

Definition digit_val (c : ascii) : N := (code c - 48)%N.

(** The value of [c] as a digit in the given radix, when it is one. *)
Definition radix_val (radix : N) (c : ascii) : option N :=
  let v :=
    if is_digit c then Some (code c - 48)%N
    else if in_range 97 102 c then Some (code c - 87)%N
    else if in_range 65 70 c then Some (code c - 55)%N
    else None in
  match v with
  | Some d => if (d <? radix)%N then Some d else None
  | None => None
  end.

(** [StrWhiteSpaceChar]: the white space and the line terminators of the
    language, each by the bytes of its UTF-8 form. One byte: TAB, LF, VT,
    FF, CR and SP. *)
Definition is_white_space (c : ascii) : bool :=
  in_range 9 13 c || (code c =? 32)%N.

(** Two bytes: U+00A0, the no-break space. *)
Definition is_white_space_2 (c1 c2 : ascii) : bool :=
  ((code c1 =? 194) && (code c2 =? 160))%N.

(** Three bytes: U+1680, U+2000 to U+200A, U+2028, U+2029, U+202F, U+205F,
    U+3000 and U+FEFF. *)
Definition is_white_space_3 (c1 c2 c3 : ascii) : bool :=
  ((code c1 =? 225) && (code c2 =? 154) && (code c3 =? 128)
   || (code c1 =? 226) && (code c2 =? 128)
      && (in_range 128 138 c3 || (code c3 =? 168) || (code c3 =? 169)
          || (code c3 =? 175))
   || (code c1 =? 226) && (code c2 =? 129) && (code c3 =? 159)
   || (code c1 =? 227) && (code c2 =? 128) && (code c3 =? 128)
   || (code c1 =? 239) && (code c2 =? 187) && (code c3 =? 191))%N.

(** The white space at the head of [l] is dropped. With [backwards] the
    bytes of [l] are those of a string read from its end, so that the
    bytes of a character come last byte first. *)
Fixpoint drop_white_space (backwards : bool) (l : list ascii) : list ascii :=
  match l with
  | [] => []
  | c1 :: t1 =>
      if is_white_space c1 then drop_white_space backwards t1 else
      match t1 with
      | [] => l
      | c2 :: t2 =>
          if (if backwards then is_white_space_2 c2 c1
              else is_white_space_2 c1 c2)
          then drop_white_space backwards t2 else
          match t2 with
          | [] => l
          | c3 :: t3 =>
              if (if backwards then is_white_space_3 c3 c2 c1
                  else is_white_space_3 c1 c2 c3)
              then drop_white_space backwards t3 else l
          end
      end
  end.

(** The string without the white space at its start and at its end. *)
Definition trim (l : list ascii) : list ascii :=
  rev (drop_white_space true (rev (drop_white_space false l))).

(** [DecimalDigits] at the head of [l]: the digits read are appended to
    the value [acc], [n] counts them, and the rest of [l] is returned. *)
Fixpoint take_digits (acc : N) (n : nat) (l : list ascii)
  : N * nat * list ascii :=
  match l with
  | c :: t =>
      if is_digit c then take_digits (10 * acc + digit_val c)%N (S n) t
      else (acc, n, l)
  | [] => (acc, n, [])
  end.

Definition parse_sign (l : list ascii) : bool * list ascii :=
  match l with
  | "-"%char :: t => (true, t)
  | "+"%char :: t => (false, t)
  | _ => (false, l)
  end.

(** [ExponentPart] (optional) up to the end of the literal. *)
Definition parse_exponent (l : list ascii) : option Z :=
  match l with
  | [] => Some 0%Z
  | c :: t =>
      if Ascii.eqb c "e" || Ascii.eqb c "E" then
        let (neg, t') := parse_sign t in
        match take_digits 0 0 t' with
        | (v, S _, []) => Some (if neg then (- Z.of_N v)%Z else Z.of_N v)
        | _ => None
        end
      else None
  end.

Definition Infinity_literal : list ascii := list_ascii_of_string "Infinity".

Definition ascii_list_eqb (a b : list ascii) : bool :=
  String.eqb (string_of_list_ascii a) (string_of_list_ascii b).

(** [StrUnsignedDecimalLiteral] with the sign read before it. *)
Definition parse_decimal (s : bool) (l : list ascii) : number :=
  if ascii_list_eqb l Infinity_literal then S754_infinity s else
  let '(ip, nip, r1) := take_digits 0 0 l in
  let '(mant, nfp, r2, some_digit) :=
    match r1 with
    | "."%char :: r =>
        let '(m, n, r') := take_digits ip 0 r in (m, n, r', (0 <? nip + n)%nat)
    | _ => (ip, O, r1, (0 <? nip)%nat)
    end in
  if some_digit then
    match parse_exponent r2 with
    | Some e => decimal_to_number s mant (e - Z.of_nat nfp)
    | None => S754_nan
    end
  else S754_nan.

(** [NonDecimalIntegerLiteral] after its prefix: at least one digit of
    the radix and nothing else. *)
Fixpoint parse_radix (radix : N) (acc : N) (l : list ascii) : option N :=
  match l with
  | [] => Some acc
  | c :: t =>
      match radix_val radix c with
      | Some d => parse_radix radix (radix * acc + d)%N t
      | None => None
      end
  end.

Definition parse_non_decimal (radix : N) (l : list ascii) : number :=
  match l with
  | [] => S754_nan
  | _ =>
      match parse_radix radix 0 l with
      | Some v => decimal_to_number false v 0
      | None => S754_nan
      end
  end.

(** [Number(value)] for a string [value] (StringToNumber). *)
Definition StringToNumber (value : string) : number :=
  let l := trim (list_ascii_of_string value) in
  let decimal := let (s, r) := parse_sign l in parse_decimal s r in
  match l with
  | [] => S754_zero false
  | "0"%char :: c :: t =>
      if Ascii.eqb c "x" || Ascii.eqb c "X" then parse_non_decimal 16 t
      else if Ascii.eqb c "o" || Ascii.eqb c "O" then parse_non_decimal 8 t
      else if Ascii.eqb c "b" || Ascii.eqb c "B" then parse_non_decimal 2 t
      else decimal
  | _ => decimal
  end.

(** The decimal digits of a non-negative integer. *)
Definition decimal_string (n : Z) : string :=
  NilEmpty.string_of_uint (N.to_uint (Z.to_N n)).

Definition pow10 (n : nat) : Z := (10 ^ Z.of_nat n)%Z.

(** [bound <= m * 2 ^ e], exactly. *)
Definition finite_ge (m : positive) (e : Z) (bound : Z) : bool :=
  if (0 <=? e)%Z then (bound <=? Zpos m * 2 ^ e)%Z
  else (bound * 2 ^ (- e) <=? Zpos m)%Z.

(** The integer [n] for which [n / 10 ^ f - m * 2 ^ e] is as close to
    zero as possible, the larger one when there are two. *)
Definition nearest_scaled (f : nat) (m : positive) (e : Z) : Z :=
  if (0 <=? e)%Z then (Zpos m * 2 ^ e * pow10 f)%Z
  else ((2 * Zpos m * pow10 f + 2 ^ (- e)) / 2 ^ (- e + 1))%Z.

Fixpoint zeros (n : nat) : string :=
  match n with O => EmptyString | S n' => String "0" (zeros n') end.

(** The digits of [n] with a point before the last [f] of them. *)
Definition fixed_digits (f : nat) (n : Z) : string :=
  let m := decimal_string n in
  match f with
  | O => m
  | _ =>
      let k := String.length m in
      let m := if (k <=? f)%nat then zeros (f + 1 - k) ++ m else m in
      let k := String.length m in
      substring 0 (k - f) m ++ "." ++ substring (k - f) f m
  end.

(** The integer part of [m * 2 ^ e]; a number from [10 ^ 21] on is an
    integer. *)
Definition integer_value (m : positive) (e : Z) : Z :=
  if (0 <=? e)%Z then (Zpos m * 2 ^ e)%Z else (Zpos m / 2 ^ (- e))%Z.

(** The integer [v] rounds to the number [x]. *)
Definition rounds_to (x : number) (v : Z) : bool :=
  SFeqb (binary_normalize prec emax v 0 false) x.

(** The pairs [(s, n)] with [s] of [k] digits such that
    [s * 10 ^ (n - k)] rounds to [x], among the two multiples of
    [10 ^ (n - k)] around [X], the integer value of [x]. *)
Definition candidates (x : number) (X : Z) (k : nat) : list (Z * nat) :=
  let nd := String.length (decimal_string X) in
  flat_map
    (fun n =>
       let p := pow10 (n - k) in
       let s0 := (X / p)%Z in
       filter
         (fun sn =>
            ((pow10 (k - 1) <=? fst sn) && (fst sn <? pow10 k))%Z
            && rounds_to x (fst sn * p)%Z)
         [(s0, n); ((s0 + 1)%Z, n)])
    [nd; S nd].

(** How far [s * 10 ^ (n - k)] is from [X]. *)
Definition distance (X : Z) (k : nat) (sn : Z * nat) : Z :=
  Z.abs (fst sn * pow10 (snd sn - k) - X).

Fixpoint closest (X : Z) (k : nat) (best : Z * nat) (l : list (Z * nat))
  : Z * nat :=
  match l with
  | [] => best
  | c :: t =>
      let db := distance X k best in
      let dc := distance X k c in
      if (dc <? db)%Z || ((dc =? db)%Z && Z.even (fst c))
      then closest X k c t else closest X k best t
  end.

Fixpoint shortest (x : number) (X : Z) (ks : list nat)
  : option (Z * nat * nat) :=
  match ks with
  | [] => None
  | k :: ks' =>
      match candidates x X k with
      | c :: t => let (s, n) := closest X k c t in Some (s, n, k)
      | [] => shortest x X ks'
      end
  end.

(** The digits of [s], a point after the first one when there are
    several, and the exponent [n - 1]. *)
Definition exponent_notation (s : Z) (n : nat) : string :=
  let d := decimal_string s in
  let e := decimal_string (Z.of_nat (n - 1)) in
  match d with
  | String c EmptyString => d ++ "e+" ++ e
  | String c t => String c ("." ++ t) ++ "e+" ++ e
  | EmptyString => d
  end.

(** [Number::toString] for a finite [x = m * 2 ^ e >= 10 ^ 21]: the
    shortest digit string [s] (of [k] digits) and exponent [n] such that
    [s * 10 ^ (n - k)] rounds to [x], the closest to [x] among those (the
    even [s] on a tie), printed in exponent notation. Seventeen digits
    always suffice for a binary64 value. *)
Definition toString_large (m : positive) (e : Z) : string :=
  let x := S754_finite false m e in
  let X := integer_value m e in
  match shortest x X (seq 1 17) with
  | Some (s, n, _) => exponent_notation s n
  | None =>
      let nd := String.length (decimal_string X) in
      exponent_notation (X / pow10 (nd - 17)) nd
  end.

(** [x.toFixed(fractionDigits)]. *)
Definition toFixed (fractionDigits : nat) (x : number) : string :=
  match x with
  | S754_nan => "NaN"
  | S754_infinity s => if s then "-Infinity" else "Infinity"
  | S754_zero _ => fixed_digits fractionDigits 0
  | S754_finite s m e =>
      (if s then "-" else "") ++
      (if finite_ge m e (10 ^ 21)
       then toString_large m e
       else fixed_digits fractionDigits (nearest_scaled fractionDigits m e))
  end.

(** [0 < x]. *)
Definition is_positive (x : number) : bool := SFltb (S754_zero false) x.

(** [a - b]. *)
Definition number_sub (a b : number) : number := SFsub prec emax a b.

(** ** [src/types.ts] *)

Module Chain.
Record t : Type := mk {
  name : string;
  key : string;
  value : string;
  totalCostBasis : string;
  totalClosedPnl : string;
  totalOpenPnl : string
}.
End Chain.

(** An object with string keys: its own properties in creation order. *)
Definition object (A : Type) : Type := list (string * A).

Module Protocol.
Record t : Type := mk {
  name : string;
  key : string;
  value : string;
  totalCostBasis : string;
  totalClosedPnl : string;
  totalOpenPnl : string;
  chains : object Chain.t
}.
End Protocol.

Definition AssetByProtocols : Type := object Protocol.t.

Module OctavPortfolioBalance.
Record t : Type := mk {
  address : string;
  networth : string;
  assetByProtocols : AssetByProtocols;
  chains : object Chain.t
}.
End OctavPortfolioBalance.

(** ** [Object.entries] *)

Fixpoint digits_value (acc : N) (l : list ascii) : N :=
  match l with
  | [] => acc
  | c :: t => digits_value (10 * acc + digit_val c)%N t
  end.

(** An array index: the canonical decimal string of an integer from [0]
    to [2 ^ 32 - 2]. *)
Definition array_index (k : string) : option N :=
  match list_ascii_of_string k with
  | [] => None
  | c :: t =>
      if forallb is_digit (c :: t)
         && (negb (Ascii.eqb c "0") || match t with [] => true | _ => false end)
         && (List.length t <? 10)%nat
      then
        let v := digits_value 0 (c :: t) in
        if (v <=? 4294967294)%N then Some v else None
      else None
  end.

Fixpoint insert_index {A : Type} (x : N * A) (l : list (N * A))
  : list (N * A) :=
  match l with
  | [] => [x]
  | y :: t =>
      if (fst x <? fst y)%N then x :: y :: t else y :: insert_index x t
  end.

Definition ascending {A : Type} (l : list (N * A)) : list (N * A) :=
  fold_right insert_index [] l.

Definition is_array_index (k : string) : bool :=
  match array_index k with Some _ => true | None => false end.

Definition index_properties {A : Type} (o : object A)
  : list (N * (string * A)) :=
  flat_map
    (fun kv =>
       match array_index (fst kv) with
       | Some i => [(i, kv)]
       | None => []
       end) o.

Definition string_properties {A : Type} (o : object A) : object A :=
  filter (fun kv => negb (is_array_index (fst kv))) o.

(** [Object.entries(o)]: the properties whose key is an array index, in
    ascending numeric order, then the other ones in creation order. *)
Definition Object_entries {A : Type} (o : object A) : list (string * A) :=
  (map snd (ascending (index_properties o)) ++ string_properties o)%list.

(** ** Array built-ins *)

Section ArraySort.
Context {A : Type}.
Variable comparefn : A -> A -> number.

(** [x] is placed after the elements that [comparefn] puts strictly
    before it: a result that is not positive (negative, zero or NaN)
    leaves [x] before [y]. *)
Fixpoint sort_insert (x : A) (l : list A) : list A :=
  match l with
  | [] => [x]
  | y :: t =>
      if is_positive (comparefn x y) then y :: sort_insert x t
      else x :: y :: t
  end.

(** [arr.sort(comparefn)]: a stable sort, here by insertion. Whenever
    [comparefn] is a consistent comparator the language fixes the result,
    and every stable sort gives this array. When it is not (it answers
    NaN, read as "equal", for some pairs, and an order for others) the
    language leaves the order to the implementation, and the insertion
    below stands for one of them. *)
Fixpoint Array_sort (l : list A) : list A :=
  match l with
  | [] => []
  | x :: t => sort_insert x (Array_sort t)
  end.
End ArraySort.

Fixpoint findIndex_from {A : Type} (p : A -> bool) (l : list A) (i : Z) : Z :=
  match l with
  | [] => (-1)%Z
  | x :: t => if p x then i else findIndex_from p t (i + 1)%Z
  end.

(** [arr.findIndex(p)]: the first index whose element satisfies [p], or
    [-1]. *)
Definition findIndex {A : Type} (p : A -> bool) (l : list A) : Z :=
  findIndex_from p l 0.

(** [arr.splice(start, 1)]: the removed elements and the array left. *)
Definition splice1 {A : Type} (l : list A) (start : Z) : list A * list A :=
  let i := Z.to_nat start in
  (firstn 1 (skipn i l), (firstn i l ++ skipn (S i) l)%list).

(** ** [formatPortfolioBalancesResponse] ([src/actions/index.ts]) *)

Module NameValue.
Record t : Type := mk { name : string; value : string }.
End NameValue.

Definition format_line (name value : string) : string :=
  name ++ ": $" ++ toFixed 2 (StringToNumber value).

Definition networthPerChain (portfolioBalances : OctavPortfolioBalance.t)
  : string :=
  join LF
    (map (fun entry => format_line (Chain.name (snd entry))
                                   (Chain.value (snd entry)))
         (Object_entries (OctavPortfolioBalance.chains portfolioBalances))).

Definition protocol_pairs (portfolioBalances : OctavPortfolioBalance.t)
  : list NameValue.t :=
  map (fun entry =>
         let protocolValue := Protocol.value (snd entry) in
         NameValue.mk (Protocol.name (snd entry)) protocolValue)
      (Object_entries
         (OctavPortfolioBalance.assetByProtocols portfolioBalances)).

(** [(a, b) => Number(b.value) - Number(a.value)]. *)
Definition by_value_descending (a b : NameValue.t) : number :=
  number_sub (StringToNumber (NameValue.value b))
             (StringToNumber (NameValue.value a)).

Definition is_Wallet (p : NameValue.t) : bool :=
  String.eqb (NameValue.name p) "Wallet".

(** The [walletIndex] block: the first entry named "Wallet" is spliced
    out and put back in front. *)
Definition wallet_first (networthPerProtocol : list NameValue.t)
  : list NameValue.t :=
  let walletIndex := findIndex is_Wallet networthPerProtocol in
  if (-1 <? walletIndex)%Z then
    let (removed, rest) := splice1 networthPerProtocol walletIndex in
    match removed with
    | wallet :: _ => wallet :: rest
    | [] => rest
    end
  else networthPerProtocol.

Definition networthPerProtocol (portfolioBalances : OctavPortfolioBalance.t)
  : list NameValue.t :=
  wallet_first (Array_sort by_value_descending
                           (protocol_pairs portfolioBalances)).

Definition networthProtocolStr (portfolioBalances : OctavPortfolioBalance.t)
  : string :=
  join LF
    (map (fun protocol => format_line (NameValue.name protocol)
                                      (NameValue.value protocol))
         (networthPerProtocol portfolioBalances)).

Definition chain_section (portfolioBalances : OctavPortfolioBalance.t)
  : string :=
  let s := networthPerChain portfolioBalances in
  if truthy_string s then s else "No data available for chains.".

Definition protocol_section (portfolioBalances : OctavPortfolioBalance.t)
  : string :=
  let s := networthProtocolStr portfolioBalances in
  if truthy_string s then s else "No data available for protocols.".

Definition totalNetworthFormatted
  (portfolioBalances : OctavPortfolioBalance.t) : string :=
  toFixed 2 (StringToNumber (OctavPortfolioBalance.networth portfolioBalances)).

Definition formatPortfolioBalancesResponse
  (portfolioBalances : OctavPortfolioBalance.t) : string :=
  "=== ðŸ“ˆ Portfolio Balances (in USD) ðŸ“ˆ ===" ++ LF ++
  LF ++
  "Address: " ++ OctavPortfolioBalance.address portfolioBalances ++ LF ++
  "Total Networth: $" ++ totalNetworthFormatted portfolioBalances ++ LF ++
  "    " ++ LF ++
  "Networth per Chain:" ++ LF ++
  "-----------------------------" ++ LF ++
  chain_section portfolioBalances ++ LF ++
  "    " ++ LF ++
  "Networth per Protocol:" ++ LF ++
  "-----------------------------" ++ LF ++
  protocol_section portfolioBalances ++ LF ++
  LF ++
  "=============================".

(** ** Thrown values *)

(** What a [throw] or a rejected promise carries: an instance of [Error]
    (with its [name] and [message]), or any other value, kept as its
    renderings [String(v)] and [JSON.stringify(v)]. *)
Inductive thrown : Type :=
| ErrorObject (name message : string)
| NonError (str json : string).

(** [new Error(message)]. *)
Definition new_Error (message : string) : thrown := ErrorObject "Error" message.

Definition instanceof_Error (e : thrown) : bool :=
  match e with ErrorObject _ _ => true | NonError _ _ => false end.

(** [error.message], read after [error instanceof Error]. *)
Definition message_of (e : thrown) : string :=
  match e with ErrorObject _ m => m | NonError _ _ => EmptyString end.

(** [String(error)]; for an [Error] this is [Error.prototype.toString]. *)
Definition String_of (e : thrown) : string :=
  match e with
  | ErrorObject n m =>
      if truthy_string n then
        if truthy_string m then n ++ ": " ++ m else n
      else m
  | NonError s _ => s
  end.

(** [JSON.stringify(error)]: an [Error] has no enumerable property. *)
Definition JSON_stringify (e : thrown) : string :=
  match e with ErrorObject _ _ => "{}" | NonError _ j => j end.

(** ** The host: messages, environment, network, clock *)

Module Content.
Record t : Type := mk { text : option string }.
End Content.

Module Memory.
Record t : Type := mk { content : Content.t }.
End Memory.

Module Request.
Record t : Type := mk {
  url : string;
  method : string;
  headers : list (string * string)
}.
End Request.

Module Response.
(** [json] is the outcome of [responseRaw.json()], the parsed body being
    read at the type [OctavPortfolioBalance[]], which the source asserts
    with [as] and does not check: the bodies of the model are the arrays
    of that type. *)
Record t : Type := mk {
  ok : bool;
  statusText : string;
  json : thrown + list OctavPortfolioBalance.t
}.
End Response.

Module Host.
Record t : Type := mk {
  (** [process.env.OCTAV_API_KEY] *)
  OCTAV_API_KEY : option string;
  (** the outcome of [fetch(url, init)] *)
  fetch : Request.t -> thrown + Response.t;
  (** [Date.now()] *)
  now : Z;
  (** the message of the [TypeError] raised when a method is called on
      [undefined] (the wording is the engine's) *)
  undefined_receiver : string
}.
End Host.

(** The values stored in the plain objects handed to the host. *)
Inductive value : Type :=
| VBoolean (b : bool)
| VString (s : string)
| VNumber (n : Z).

Module CallbackContent.
Record t : Type := mk { text : string; content : object value }.
End CallbackContent.

(** A [HandlerCallback]: [None] when the call resolves, [Some e] when it
    throws or rejects with [e]. *)
Definition HandlerCallback : Type := CallbackContent.t -> option thrown.

Module ProviderResult.
(** An absent field is [None]; [data = Some None] is a [data] field
    holding [undefined]. *)
Record t : Type := mk {
  text : option string;
  values : option (object value);
  data : option (option OctavPortfolioBalance.t)
}.
End ProviderResult.

(** The [error] field of an [ActionResult]: [string | Error]. *)
Inductive error_field : Type :=
| ErrorString (s : string)
| ErrorInstance (e : thrown).

Module ActionResult.
Record t : Type := mk {
  text : option string;
  success : bool;
  values : option (object value);
  data : option (object value);
  error : option error_field
}.
End ActionResult.

(** ** Effects *)

Inductive event : Type :=
| LoggerInfo (message : string)
| LoggerError (args : list string)
| Fetched (request : Request.t)
| CallbackCalled (content : CallbackContent.t).

Definition trace : Type := list event.

Inductive outcome (A : Type) : Type :=
| Returns (a : A)
| Throws (e : thrown).
Arguments Returns {A} a.
Arguments Throws {A} e.

Definition Eff (A : Type) : Type := trace -> outcome A * trace.

Definition ret {A : Type} (a : A) : Eff A := fun tr => (Returns a, tr).

Definition throw {A : Type} (e : thrown) : Eff A := fun tr => (Throws e, tr).

Definition bind {A B : Type} (m : Eff A) (k : A -> Eff B) : Eff B :=
  fun tr =>
    match m tr with
    | (Returns a, tr') => k a tr'
    | (Throws e, tr') => (Throws e, tr')
    end.

Definition try_catch {A : Type} (body : Eff A) (handler : thrown -> Eff A)
  : Eff A :=
  fun tr =>
    match body tr with
    | (Returns a, tr') => (Returns a, tr')
    | (Throws e, tr') => handler e tr'
    end.

Definition emit (ev : event) : Eff unit :=
  fun tr => (Returns tt, (tr ++ [ev])%list).

Declare Scope eff_scope.
Delimit Scope eff_scope with eff.
Notation "x <- m ;; k" := (bind m (fun x => k))
  (at level 61, m at next level, right associativity) : eff_scope.
Notation "m ;; k" := (bind m (fun _ => k))
  (at level 61, right associativity) : eff_scope.

Definition lift {A : Type} (r : thrown + A) : Eff A :=
  match r with inl e => throw e | inr a => ret a end.

(** [await fetch(url, init)]. *)
Definition await_fetch (h : Host.t) (request : Request.t) : Eff Response.t :=
  (emit (Fetched request) ;; lift (Host.fetch h request))%eff.

(** [await callback(content)]. *)
Definition await_callback (callback : HandlerCallback)
  (content : CallbackContent.t) : Eff unit :=
  (emit (CallbackCalled content) ;;
   match callback content with
   | None => ret tt
   | Some e => throw e
   end)%eff.

(** ** [URLSearchParams] *)

Definition hex_digit_upper (n : N) : ascii :=
  if (n <? 10)%N then ascii_of_N (48 + n) else ascii_of_N (55 + n).

(** The application/x-www-form-urlencoded byte serializer. *)
Definition urlencode_char (c : ascii) : string :=
  if in_range 48 57 c || in_range 65 90 c || in_range 97 122 c
     || Ascii.eqb c "*" || Ascii.eqb c "-" || Ascii.eqb c "."
     || Ascii.eqb c "_"
  then String c EmptyString
  else if Ascii.eqb c " " then "+"
  else String "%" (String (hex_digit_upper (code c / 16))
                          (String (hex_digit_upper (code c mod 16))
                                  EmptyString)).

Fixpoint urlencode (s : string) : string :=
  match s with
  | EmptyString => EmptyString
  | String c t => urlencode_char c ++ urlencode t
  end.

(** [params.toString()]. *)
Definition URLSearchParams_toString (params : list (string * string))
  : string :=
  join "&" (map (fun p => urlencode (fst p) ++ "=" ++ urlencode (snd p)) params).

(** ** [octavProvider] ([src/providers/index.ts]) *)

Definition OCTAV_API_URL : string := "https://backend-dev-api.octav.fi".

Definition env_truthy (v : option string) : bool :=
  match v with Some s => truthy_string s | None => false end.

(** The request of [get]: the [url] built from [params] and the [init]
    object with the bearer token. *)
Definition portfolio_request (h : Host.t) (address : string) : Request.t :=
  let params := [("addresses", address)] in
  let url :=
    OCTAV_API_URL ++ "/v1/portfolio?" ++ URLSearchParams_toString params in
  Request.mk url "GET"
    [("Authorization",
      "Bearer " ++ match Host.OCTAV_API_KEY h with
                   | Some k => k
                   | None => "undefined"
                   end)].

(** The [try] block of [get]. *)
Definition octavProvider_get_try (h : Host.t) (message : Memory.t)
  : Eff ProviderResult.t :=
  (if negb (env_truthy (Host.OCTAV_API_KEY h))
   then throw (new_Error "Octav API not found")
   else
     let content := Memory.content message in
     match Content.text content with
     | None => throw (ErrorObject "TypeError" (Host.undefined_receiver h))
     | Some text =>
         match match_address text with
         | None =>
             throw (new_Error "Valid ethereum address not found in message")
         | Some address =>
             responseRaw <- await_fetch h (portfolio_request h address) ;;
             if negb (Response.ok responseRaw) then
               throw (new_Error ("Failed to fetch portfolio balances for "
                                   ++ address ++ ": "
                                   ++ Response.statusText responseRaw))
             else
               data <- lift (Response.json responseRaw) ;;
               ret (ProviderResult.mk None None (Some (nth_error data 0)))
         end
     end)%eff.

(** [octavProvider.get]. *)
Definition octavProvider_get (h : Host.t) (message : Memory.t)
  : Eff ProviderResult.t :=
  try_catch
    (octavProvider_get_try h message)
    (fun error =>
       (emit (LoggerError ["Error in Octav provider"; String_of error]) ;;
        ret (ProviderResult.mk
               (Some (if instanceof_Error error then message_of error
                      else "Failed to fetch portfolio balances from Octav"))
               None None))%eff).

(** ** [getPortfolioBalancesAction] ([src/actions/index.ts]) *)

Definition fetchPortfolioBalancesKeyword : list string :=
  [ "fetch portfolio";
    "get portfolio";
    "list portfolio balances";
    "portfolio";
    "display portfolio balances" ].

Definition string_of_bool (b : bool) : string :=
  if b then "true" else "false".

(** [message.content?.text?.toLowerCase() || ""]. *)
Definition validate_content (message : Memory.t) : string :=
  match Content.text (Memory.content message) with
  | Some text =>
      let lowered := toLowerCase text in
      if truthy_string lowered then lowered else ""
  | None => ""
  end.

Definition getPortfolioBalancesAction_validate (message : Memory.t)
  : Eff bool :=
  (let content := validate_content message in
   let isMatch :=
     existsb (fun keyword => includes content keyword)
             fetchPortfolioBalancesKeyword in
   emit (LoggerInfo
           ("[GET_PORTFOLIO] Validation result: " ++ string_of_bool isMatch
            ++ " (keywords checked: "
            ++ decimal_string
                 (Z.of_nat (List.length fetchPortfolioBalancesKeyword))
            ++ ")")) ;;
   ret isMatch)%eff.

Definition sucessfullActionMessage : string :=
  "Sucessfully Fetched portfolio balances on Octav " ++ LF.

Definition success_text (formattedResponse : string) : string :=
  "âœ… " ++ sucessfullActionMessage ++ " " ++ LF ++ " " ++ formattedResponse.

Definition when_callback (callback : option HandlerCallback)
  (content : CallbackContent.t) : Eff unit :=
  match callback with
  | Some cb => await_callback cb content
  | None => ret tt
  end.

(** The [try] block of the handler. *)
Definition handler_try (h : Host.t) (message : Memory.t)
  (callback : option HandlerCallback) (address : string)
  : Eff ActionResult.t :=
  (response <- octavProvider_get h message ;;
   match ProviderResult.data response with
   | None | Some None =>
       ret (ActionResult.mk None false None None
                            (Some (ErrorString "No data")))
   | Some (Some dataTyped) =>
       let formattedResponse := formatPortfolioBalancesResponse dataTyped in
       when_callback callback
         (CallbackContent.mk
            (success_text formattedResponse)
            [("success", VBoolean true);
             ("address", VString address);
             ("formattedResponse", VString formattedResponse)]) ;;
       ret (ActionResult.mk
              (Some (success_text formattedResponse))
              true
              (Some [("operationSucessfull", VBoolean true);
                     ("address", VString address);
                     ("formattedResponse", VString formattedResponse)])
              (Some [("actions", VString "GET_PORTFOLIO");
                     ("address", VString address);
                     ("formattedResponse", VString formattedResponse);
                     ("timestamp", VNumber (Host.now h))])
              None)
   end)%eff.

(** The [catch] block of the handler. *)
Definition handler_catch (callback : option HandlerCallback) (error : thrown)
  : Eff ActionResult.t :=
  (emit (LoggerError
           ["[GET_PORTFOLIO] - Error fetching portfolio balances: "
            ++ JSON_stringify error]) ;;
   let errorMessage :=
     if instanceof_Error error then message_of error else String_of error in
   when_callback callback
     (CallbackContent.mk errorMessage
        [("success", VBoolean false);
         ("error", VString errorMessage)]) ;;
   ret (ActionResult.mk
          (Some ("âŒ " ++ errorMessage))
          false
          None
          (Some [("actionName", VString "GET_PORTFOLIO");
                 ("error", VString errorMessage)])
          (Some (ErrorInstance
                   (if instanceof_Error error then error
                    else new_Error (String_of error))))))%eff.

Definition getPortfolioBalancesAction_handler (h : Host.t)
  (message : Memory.t) (callback : option HandlerCallback)
  : Eff ActionResult.t :=
  (let addressMatch :=
     match Content.text (Memory.content message) with
     | Some text => match_address text
     | None => None
     end in
   let address := match addressMatch with Some a => a | None => "" end in
   emit (LoggerInfo
           ("[GET_PORTFOLIO] - Fetching portfolio balances for address: "
            ++ address)) ;;
   try_catch (handler_try h message callback address)
             (handler_catch callback))%eff.

(** ** [octavPlugin] ([src/index.ts]) *)

(** [process.env]: the variables in creation order. *)
Definition process_env : Type := object string.

(** [process.env[name]]. *)
Fixpoint env_get (name : string) (env : process_env) : option string :=
  match env with
  | [] => None
  | kv :: t =>
      if String.eqb (fst kv) name then Some (snd kv) else env_get name t
  end.

(** [process.env[name] = value]. *)
Fixpoint env_set (name value : string) (env : process_env) : process_env :=
  match env with
  | [] => [(name, value)]
  | kv :: t =>
      if String.eqb (fst kv) name then (fst kv, value) :: t
      else kv :: env_set name value t
  end.

(** The host [h] run with [env] as its [process.env]. *)
Definition host_in (env : process_env) (h : Host.t) : Host.t :=
  Host.mk (env_get "OCTAV_API_KEY" env) (Host.fetch h) (Host.now h)
          (Host.undefined_receiver h).

(** A property value of the [config] object handed to [init]: a string,
    [undefined], or any other value, kept as the message of the issue that
    [z.string()] raises on it. *)
Inductive config_value : Type :=
| ConfigString (s : string)
| ConfigUndefined
| ConfigOther (issue : string).

Module ZodIssue.
Record t : Type := mk { message : string }.
End ZodIssue.

(** A [z.ZodError], as its [errors]. *)
Definition ZodError : Type := list ZodIssue.t.

(** [config[key]]: [None] when [config] has no such property. *)
Fixpoint config_get (key : string) (config : object config_value)
  : option config_value :=
  match config with
  | [] => None
  | kv :: t =>
      if String.eqb (fst kv) key then Some (snd kv) else config_get key t
  end.

(** [z.string().optional()]. *)
Definition string_optional (val : config_value) : ZodError + option string :=
  match val with
  | ConfigString s => inr (Some s)
  | ConfigUndefined => inr None
  | ConfigOther issue => inl [ZodIssue.mk issue]
  end.

(** The function given to [transform]. *)
Definition OCTAV_API_KEY_transform (val : option string)
  : Eff (option string) :=
  ((if negb (env_truthy val)
    then emit (LoggerInfo "No Octav API key provided")
    else ret tt) ;;
   ret val)%eff.

(** [configSchema.parseAsync(config)]: the promise is fulfilled with the
    validated object ([inr]) or rejected with a [ZodError] ([inl]). The
    schema has the one key [OCTAV_API_KEY]; the other properties of
    [config] are stripped, and the key is set in the result when [config]
    has it. *)
Definition configSchema_parseAsync (config : object config_value)
  : Eff (ZodError + object (option string)) :=
  (let data := config_get "OCTAV_API_KEY" config in
   let value := match data with Some v => v | None => ConfigUndefined end in
   match string_optional value with
   | inl error => ret (inl error)
   | inr val =>
       out <- OCTAV_API_KEY_transform val ;;
       ret (inr match data with
                | Some _ => [("OCTAV_API_KEY", out)]
                | None => []
                end)
   end)%eff.

(** The body of the [for] loop: [if (value) process.env[key] = value]. *)
Definition store_entry (env : process_env) (entry : string * option string)
  : process_env :=
  match snd entry with
  | Some value =>
      if truthy_string value then env_set (fst entry) value env else env
  | None => env
  end.

(** [octavPlugin.init(config)], from the environment [env]: the outcome,
    the environment it leaves, and the trace. *)
Definition octavPlugin_init (config : object config_value)
  (env : process_env) (tr : trace) : outcome unit * process_env * trace :=
  let tr := (tr ++ [LoggerInfo "Initializing Octav plugin"])%list in
  match configSchema_parseAsync config tr with
  | (Returns (inr validatedConfig), tr) =>
      let env := fold_left store_entry (Object_entries validatedConfig) env in
      (Returns tt, env, (tr ++ [LoggerInfo "Octav plugin initialized"])%list)
  | (Returns (inl error), tr) =>
      (Throws (new_Error ("Invalid Octav plugin configuration: "
                            ++ join ", " (map ZodIssue.message error))),
       env, tr)
  | (Throws error, tr) => (Throws error, env, tr)
  end.

(** [octavPlugin.config], read from the environment when the module is
    loaded: [{ OCTAV_API_KEY: process.env.OCTAV_API_KEY }]. *)
Definition octavPlugin_config (env : process_env) : object config_value :=
  [("OCTAV_API_KEY",
    match env_get "OCTAV_API_KEY" env with
    | Some s => ConfigString s
    | None => ConfigUndefined
    end)].

(** ** Vocabulary of the statements *)

(** *** Texts *)

(** [k] occurs in [s] at position [i]. *)
Definition occurs_at (k s : string) (i : nat) : Prop :=
  exists pre post, s = pre ++ k ++ post /\ String.length pre = i.

Definition occurs_in (k s : string) : Prop := exists i, occurs_at k s i.

Definition all_chars (P : ascii -> Prop) (s : string) : Prop :=
  Forall P (list_ascii_of_string s).

(** A hexadecimal character, in either case. *)
Definition hexadecimal (c : ascii) : Prop :=
  In c (list_ascii_of_string "0123456789abcdefABCDEF").

(** [0x] followed by exactly 40 hexadecimal characters. *)
Definition address_form (a : string) : Prop :=
  exists h, a = "0x" ++ h /\ String.length h = 40 /\ all_chars hexadecimal h.

(** [a] is the occurrence of an address in [text] that starts leftmost. *)
Definition first_address (text a : string) : Prop :=
  exists i,
    address_form a /\ occurs_at a text i /\
    forall a' j, address_form a' -> occurs_at a' text j -> i <= j.

(** The text [validate] searches: the lowercased message text, empty when
    the message has none. *)
Definition lowercased_text (message : Memory.t) : string :=
  match Content.text (Memory.content message) with
  | Some text => toLowerCase text
  | None => ""
  end.

(** *** Numbers *)

(** A decimal digit. *)
Definition decimal_digit (c : ascii) : Prop :=
  In c (list_ascii_of_string "0123456789").

(** A number written with exactly two decimal places: an optional minus
    sign, at least one digit, a point, two digits. *)
Definition two_decimals (s : string) : Prop :=
  exists sign int frac,
    s = sign ++ int ++ "." ++ frac /\
    (sign = "" \/ sign = "-") /\
    int <> "" /\ all_chars decimal_digit int /\
    String.length frac = 2 /\ all_chars decimal_digit frac.

(** [x] is a finite number of magnitude below [10 ^ 21]: a zero, or
    [m * 2 ^ e] with [m * 2 ^ e < 10 ^ 21]. *)
Definition below_1e21 (x : number) : Prop :=
  match x with
  | S754_zero _ => True
  | S754_finite _ m e =>
      if (0 <=? e)%Z then (Zpos m * 2 ^ e < 10 ^ 21)%Z
      else (Zpos m < 10 ^ 21 * 2 ^ (- e))%Z
  | _ => False
  end.

(** The minimal exponent of a binary64 mantissa, [-1074]. *)
Definition emin64 : Z := emin prec emax.

(** A finite number whose exponent is at least the minimal one, as every
    result of a rounding is. *)
Definition above_emin (x : number) : Prop :=
  match x with
  | S754_finite _ _ e => (emin64 <= e)%Z
  | _ => True
  end.

(** The value of a finite number or zero, scaled by [2 ^ 1074]. *)
Definition scaled_value (x : number) : Z :=
  match x with
  | S754_finite s m e => cond_Zopp s (Zpos m * 2 ^ (e + 1074))%Z
  | _ => 0%Z
  end.

(** [a < b] on the values: false when one of them is NaN. *)
Definition number_lt (a b : number) : Prop :=
  match a, b with
  | S754_nan, _ | _, S754_nan => False
  | S754_infinity sa, S754_infinity sb => sa = true /\ sb = false
  | S754_infinity sa, _ => sa = true
  | _, S754_infinity sb => sb = false
  | _, _ => (scaled_value a < scaled_value b)%Z
  end.

(** The exact difference of two finite numbers, as [SFsub] computes it
    before rounding: both mantissas aligned on the smaller exponent. *)
Definition aligned_difference (sa : bool) (ma : positive) (ea : Z)
  (sb : bool) (mb : positive) (eb : Z) : Z :=
  let ez := Z.min ea eb in
  (cond_Zopp sa (Zpos (fst (shl_align ma ea ez)))
   - cond_Zopp sb (Zpos (fst (shl_align mb eb ez))))%Z.

(** *** Orders *)

(** [x] may stay before [y] under [comparefn]: the comparator does not
    return a positive number, which would ask for [y] first. *)
Definition keeps {A : Type} (comparefn : A -> A -> number) (x y : A) : Prop :=
  is_positive (comparefn x y) = false.

(** The value of [q] is not greater than the value of [p]. *)
Definition not_greater (p q : NameValue.t) : Prop :=
  ~ number_lt (StringToNumber (NameValue.value p))
              (StringToNumber (NameValue.value q)).

(** The value of [p] parses to a number. *)
Definition numeric (p : NameValue.t) : Prop :=
  StringToNumber (NameValue.value p) <> S754_nan.

(** Two entries whose keys are array indices, the first index being at
    most the second. *)
Definition index_le {A : Type} (kv1 kv2 : string * A) : Prop :=
  match array_index (fst kv1), array_index (fst kv2) with
  | Some i, Some j => (i <= j)%N
  | _, _ => False
  end.

(** *** What the formatter reads *)

(** A function applied to the value of an entry, the key being kept. *)
Definition on_value {A B : Type} (f : A -> B) (kv : string * A)
  : string * B :=
  (fst kv, f (snd kv)).

Definition on_indexed {A B : Type} (f : A -> B) (x : N * (string * A))
  : N * (string * B) :=
  (fst x, on_value f (snd x)).

(** The key, the name and the value of every chain and protocol. *)
Definition chain_view (o : object Chain.t)
  : list (string * (string * string)) :=
  map (on_value (fun c => (Chain.name c, Chain.value c))) o.

Definition protocol_view (o : AssetByProtocols)
  : list (string * (string * string)) :=
  map (on_value (fun p => (Protocol.name p, Protocol.value p))) o.

Definition same_report_fields (a b : OctavPortfolioBalance.t) : Prop :=
  OctavPortfolioBalance.address a = OctavPortfolioBalance.address b /\
  OctavPortfolioBalance.networth a = OctavPortfolioBalance.networth b /\
  chain_view (OctavPortfolioBalance.chains a)
  = chain_view (OctavPortfolioBalance.chains b) /\
  protocol_view (OctavPortfolioBalance.assetByProtocols a)
  = protocol_view (OctavPortfolioBalance.assetByProtocols b).

(** *** The report *)

(** The text of a report: the banner, the address, the total net worth
    after its [$], and the two sections under their headings. *)
Definition report_text (address total chains protocols : string) : string :=
  "=== ðŸ“ˆ Portfolio Balances (in USD) ðŸ“ˆ ===" ++ LF ++
  LF ++
  "Address: " ++ address ++ LF ++
  "Total Networth: $" ++ total ++ LF ++
  "    " ++ LF ++
  "Networth per Chain:" ++ LF ++
  "-----------------------------" ++ LF ++
  chains ++ LF ++
  "    " ++ LF ++
  "Networth per Protocol:" ++ LF ++
  "-----------------------------" ++ LF ++
  protocols ++ LF ++
  LF ++
  "=============================".

(** The Wallet rule, from a list to the list shown: a list without an
    entry named "Wallet" is shown as it is; otherwise the first entry of
    that name is taken out and shown first. *)
Inductive wallet_moved_first : list NameValue.t -> list NameValue.t -> Prop :=
| wallet_absent : forall l,
    (forall p, In p l -> NameValue.name p <> "Wallet") ->
    wallet_moved_first l l
| wallet_present : forall pre wallet post,
    NameValue.name wallet = "Wallet" ->
    (forall p, In p pre -> NameValue.name p <> "Wallet") ->
    wallet_moved_first (pre ++ wallet :: post)%list
                       (wallet :: pre ++ post)%list.

(** [a = b] on the values: the two zeros are one value, and NaN equals
    nothing. *)
Definition same_number (a b : number) : bool :=
  match a, b with
  | S754_nan, _ | _, S754_nan => false
  | S754_infinity sa, S754_infinity sb => Bool.eqb sa sb
  | S754_infinity _, _ | _, S754_infinity _ => false
  | _, _ => (scaled_value a =? scaled_value b)%Z
  end.

(** The value of [p] is the number [x]. *)
Definition has_value (x : number) (p : NameValue.t) : bool :=
  same_number (StringToNumber (NameValue.value p)) x.

(** *** Results and traces *)

(** The fields a result object has. *)
Definition present {A : Type} (name : string) (field : option A)
  : list string :=
  match field with Some _ => [name] | None => [] end.

Definition ProviderResult_fields (r : ProviderResult.t) : list string :=
  (present "text" (ProviderResult.text r)
   ++ present "values" (ProviderResult.values r)
   ++ present "data" (ProviderResult.data r))%list.

Definition ActionResult_fields (r : ActionResult.t) : list string :=
  (present "text" (ActionResult.text r)
   ++ ["success"]
   ++ present "values" (ActionResult.values r)
   ++ present "data" (ActionResult.data r)
   ++ present "error" (ActionResult.error r))%list.

(** The HTTP requests and the callback calls recorded in a trace. *)
Definition requests (tr : trace) : list Request.t :=
  flat_map (fun ev => match ev with Fetched r => [r] | _ => [] end) tr.

Definition callback_calls (tr : trace) : list CallbackContent.t :=
  flat_map (fun ev => match ev with CallbackCalled c => [c] | _ => [] end) tr.

(** The portfolio fetch of [message] fails, with the given error message:
    the API key is missing, the text holds no address, or the response
    has a non-success status. *)
Inductive fetch_fails (h : Host.t) (message : Memory.t) : string -> Prop :=
| missing_api_key :
    env_truthy (Host.OCTAV_API_KEY h) = false ->
    fetch_fails h message "Octav API not found"
| no_address : forall text,
    env_truthy (Host.OCTAV_API_KEY h) = true ->
    Content.text (Memory.content message) = Some text ->
    match_address text = None ->
    fetch_fails h message "Valid ethereum address not found in message"
| bad_status : forall text address response,
    env_truthy (Host.OCTAV_API_KEY h) = true ->
    Content.text (Memory.content message) = Some text ->
    match_address text = Some address ->
    Host.fetch h (portfolio_request h address) = inr response ->
    Response.ok response = false ->
    fetch_fails h message
      ("Failed to fetch portfolio balances for " ++ address ++ ": "
       ++ Response.statusText response).

(** Unfolds a run of the provider down to its events. *)
Ltac run_eff :=
  unfold octavProvider_get, octavProvider_get_try, await_fetch, lift,
    try_catch, bind, emit, throw, ret.

(** *** Scenarios *)

(** The address and the message of the action's example transcript. *)
Definition example_address : string :=
  "0xEF7F2e81EA14538858d962df34eB1bFDa83da395".

Definition example_message : Memory.t :=
  Memory.mk (Content.mk
    (Some ("Can you fetch portfolio balances of " ++ example_address))).

(** One portfolio of net worth 500.5, held in the wallet on Ethereum. *)
Definition example_portfolio : OctavPortfolioBalance.t :=
  OctavPortfolioBalance.mk example_address "500.5"
    [("wallet", Protocol.mk "Wallet" "wallet" "500.5" "0" "0" "0" [])]
    [("eth", Chain.mk "Ethereum" "eth" "500.5" "0" "0" "0")].

(** The protocols [{A: 10, Wallet: 1, B: 100}]. *)
Definition example_protocol (name value : string) : Protocol.t :=
  Protocol.mk name name value "0" "0" "0" [].

Definition example_protocols : AssetByProtocols :=
  [ ("A", example_protocol "A" "10");
    ("Wallet", example_protocol "Wallet" "1");
    ("B", example_protocol "B" "100") ].

(** A portfolio whose second chain is created under the key ["1"]. *)
Definition reordered_portfolio : OctavPortfolioBalance.t :=
  OctavPortfolioBalance.mk example_address "3" []
    [ ("base", Chain.mk "Base" "base" "1" "0" "0" "0");
      ("1", Chain.mk "Ethereum" "1" "2" "0" "0" "0") ].

(** A host without API key, and hosts with a key whose network gives a
    fixed response. *)
Definition keyless_host : Host.t :=
  Host.mk None (fun _ => inl (ErrorObject "TypeError" "fetch failed")) 0
          "undefined is not an object".

Definition host_answering (response : Response.t) : Host.t :=
  Host.mk (Some "secret") (fun _ => inr response) 1762156800000
          "undefined is not an object".

Definition unauthorized : Response.t :=
  Response.mk false "Unauthorized"
              (inl (ErrorObject "SyntaxError" "Unexpected token")).

Definition one_portfolio : Response.t :=
  Response.mk true "OK" (inr [example_portfolio]).

(** *** Runs of the plugin *)

(** [config] gives no API key: the property is absent, [undefined] or the
    empty string. *)
Definition lacks_api_key (config : object config_value) : Prop :=
  config_get "OCTAV_API_KEY" config = None \/
  config_get "OCTAV_API_KEY" config = Some ConfigUndefined \/
  config_get "OCTAV_API_KEY" config = Some (ConfigString "").

(** The fetch of [message] yields the portfolio [pb], queried for
    [address]: the key is set, the text holds the address, the request is
    answered with a success status and a body whose element [0] is [pb]. *)
Definition fetches (h : Host.t) (message : Memory.t) (address : string)
  (pb : OctavPortfolioBalance.t) : Prop :=
  exists text response rest,
    env_truthy (Host.OCTAV_API_KEY h) = true /\
    Content.text (Memory.content message) = Some text /\
    match_address text = Some address /\
    Host.fetch h (portfolio_request h address) = inr response /\
    Response.ok response = true /\
    Response.json response = inr (pb :: rest).

(** The fetch of [message] yields no portfolio. *)
Inductive no_portfolio (h : Host.t) (message : Memory.t) : Prop :=
| without_api_key :
    env_truthy (Host.OCTAV_API_KEY h) = false ->
    no_portfolio h message
| without_text :
    Content.text (Memory.content message) = None ->
    no_portfolio h message
| without_address : forall text,
    Content.text (Memory.content message) = Some text ->
    match_address text = None ->
    no_portfolio h message
| request_rejected : forall text address e,
    Content.text (Memory.content message) = Some text ->
    match_address text = Some address ->
    Host.fetch h (portfolio_request h address) = inl e ->
    no_portfolio h message
| status_not_ok : forall text address response,
    Content.text (Memory.content message) = Some text ->
    match_address text = Some address ->
    Host.fetch h (portfolio_request h address) = inr response ->
    Response.ok response = false ->
    no_portfolio h message
| body_not_parsed : forall text address response e,
    Content.text (Memory.content message) = Some text ->
    match_address text = Some address ->
    Host.fetch h (portfolio_request h address) = inr response ->
    Response.json response = inl e ->
    no_portfolio h message
| body_empty : forall text address response,
    Content.text (Memory.content message) = Some text ->
    match_address text = Some address ->
    Host.fetch h (portfolio_request h address) = inr response ->
    Response.json response = inr [] ->
    no_portfolio h message.

(** The results of the handler and the contents it hands to the
    callback. *)
Definition no_data_result : ActionResult.t :=
  ActionResult.mk None false None None (Some (ErrorString "No data")).

Definition success_content (address report : string) : CallbackContent.t :=
  CallbackContent.mk (success_text report)
    [("success", VBoolean true);
     ("address", VString address);
     ("formattedResponse", VString report)].

Definition success_result (now : Z) (address report : string)
  : ActionResult.t :=
  ActionResult.mk
    (Some (success_text report))
    true
    (Some [("operationSucessfull", VBoolean true);
           ("address", VString address);
           ("formattedResponse", VString report)])
    (Some [("actions", VString "GET_PORTFOLIO");
           ("address", VString address);
           ("formattedResponse", VString report);
           ("timestamp", VNumber now)])
    None.

(** The message the [catch] block reports for a thrown value. *)
Definition error_message (error : thrown) : string :=
  if instanceof_Error error then message_of error else String_of error.

Definition error_content (error : thrown) : CallbackContent.t :=
  CallbackContent.mk (error_message error)
    [("success", VBoolean false);
     ("error", VString (error_message error))].

Definition failure_result (error : thrown) : ActionResult.t :=
  ActionResult.mk
    (Some ("âŒ " ++ error_message error))
    false
    None
    (Some [("actionName", VString "GET_PORTFOLIO");
           ("error", VString (error_message error))])
    (Some (ErrorInstance
             (if instanceof_Error error then error
              else new_Error (String_of error)))).

(** The events of a trace that are not requests: the logger calls and the
    callback calls. *)
Definition without_requests (tr : trace) : trace :=
  filter (fun ev => match ev with Fetched _ => false | _ => true end) tr.

(** A host with a key whose network is down, and a callback that always
    throws. *)
Definition offline_host : Host.t :=
  Host.mk (Some "secret")
          (fun _ => inl (ErrorObject "TypeError" "fetch failed"))
          1762156800000 "undefined is not an object".

Definition failing_callback : HandlerCallback :=
  fun _ => Some (new_Error "Callback error").

(** The number of hundredths that the text [int.frac], with two decimal
    places, denotes. *)
Definition hundredths (int frac : string) : Z :=
  Z.of_N (digits_value 0 (list_ascii_of_string (int ++ frac))).

(** No two different entries of [l] have the same numeric value. *)
Definition no_ties (l : list NameValue.t) : Prop :=
  forall p q, In p l -> In q l -> p <> q ->
    number_lt (StringToNumber (NameValue.value p))
              (StringToNumber (NameValue.value q)) \/
    number_lt (StringToNumber (NameValue.value q))
              (StringToNumber (NameValue.value p)).

(** The UTF-8 form of a code point below [2 ^ 16]. *)
Definition utf8 (cp : N) : string :=
  if (cp <? 128)%N then String (ascii_of_N cp) ""
  else if (cp <? 2048)%N then
    String (ascii_of_N (192 + cp / 64))
      (String (ascii_of_N (128 + cp mod 64)) "")
  else
    String (ascii_of_N (224 + cp / 4096))
      (String (ascii_of_N (128 + (cp / 64) mod 64))
         (String (ascii_of_N (128 + cp mod 64)) "")).

(** The code points of [StrWhiteSpaceChar]: the white space of the
    language (TAB, VT, FF, U+FEFF and the space separators of Unicode)
    and its line terminators (LF, CR, U+2028, U+2029). *)
Definition StrWhiteSpaceChar : list N :=
  [ 0x9; 0xB; 0xC; 0xFEFF;
    0x20; 0xA0; 0x1680; 0x2000; 0x2001; 0x2002; 0x2003; 0x2004; 0x2005;
    0x2006; 0x2007; 0x2008; 0x2009; 0x200A; 0x202F; 0x205F; 0x3000;
    0xA; 0xD; 0x2028; 0x2029 ]%N.

(** The first byte of the UTF-8 form of a character: not a continuation
    byte. *)
Definition leading (c : ascii) : Prop := (code c < 128 \/ 192 <= code c)%N.

(** A string made of white space alone; the empty string is one. *)
Inductive blank : string -> Prop :=
| blank_empty : blank ""
| blank_more : forall cp s,
    In cp StrWhiteSpaceChar -> blank s -> blank (utf8 cp ++ s).

(** A portfolio whose net worth is [10 ^ 21] and whose chain has a value
    that is no number. *)
Definition unbounded_portfolio : OctavPortfolioBalance.t :=
  OctavPortfolioBalance.mk example_address "1000000000000000000000" []
    [("eth", Chain.mk "Ethereum" "eth" "unknown" "0" "0" "0")].


(** The protocols of the example, listed in another order. *)
Definition example_protocols_reordered : AssetByProtocols :=
  [ ("B", example_protocol "B" "100");
    ("A", example_protocol "A" "10");
    ("Wallet", example_protocol "Wallet" "1") ].

(* ================================================================= *)
(** * Properties *)

(** ** Strings *)

Lemma prefix_spec : forall k s,
  prefix k s = true <-> exists post, s = k ++ post.
Proof.
  induction k as [|a k IH]; intros s.
  - split; [intros _; now exists s | now destruct s].
  - destruct s as [|b s]; simpl.
    + split; [discriminate | intros [post H]; discriminate].
    + destruct (ascii_dec a b) as [->|Hne].
      * rewrite IH. split; intros [post H]; exists post.
        -- now rewrite H.
        -- now inversion H.
      * split; [discriminate|]. intros [post H]. congruence.
Qed.

Lemma append_assoc : forall a b c : string, (a ++ b) ++ c = a ++ b ++ c.
Proof.
  induction a as [|x a IH]; intros b c; simpl; [reflexivity | now rewrite IH].
Qed.

Lemma append_nil_r : forall a : string, a ++ "" = a.
Proof. induction a as [|x a IH]; simpl; [reflexivity | now rewrite IH]. Qed.

Lemma includes_spec : forall s k, includes s k = true <-> occurs_in k s.
Proof.
  unfold occurs_in, occurs_at.
  induction s as [|c s IH]; intros k.
  - change (includes "" k) with (prefix k "" || false).
    rewrite orb_false_r, prefix_spec. split.
    + intros [post H]. exists 0, "", post. now split.
    + intros (i & pre & post & H & _). destruct pre; simpl in H.
      * now exists post.
      * discriminate.
  - change (includes (String c s) k)
      with (prefix k (String c s) || includes s k).
    rewrite orb_true_iff, prefix_spec, IH. split.
    + intros [[post H] | (i & pre & post & H & Hi)].
      * exists 0, "", post. now split.
      * exists (S i), (String c pre), post. simpl. split; [now rewrite H | now rewrite Hi].
    + intros (i & pre & post & H & Hi). destruct pre as [|c' pre]; simpl in H.
      * left. now exists post.
      * right. inversion H. subst. exists (String.length pre), pre, post. now split.
Qed.

(** ** [validate] *)

Lemma validate_content_lowercased : forall message,
  validate_content message = lowercased_text message.
Proof.
  intros [[[text|]]]; unfold validate_content, lowercased_text; simpl; auto.
  now destruct (toLowerCase text).
Qed.

(** C8. For every message, [validate] returns [true] if and only if the
    lowercased message text contains one of the five keyword phrases as a
    substring (so a text containing none of them yields [false]); it
    always returns, after one logger call. *)
Theorem validate_iff_keyword : forall (message : Memory.t) (tr : trace),
  exists (isMatch : bool) (tr' : trace),
    getPortfolioBalancesAction_validate message tr = (Returns isMatch, tr') /\
    (isMatch = true <->
     exists keyword,
       In keyword [ "fetch portfolio"; "get portfolio";
                    "list portfolio balances"; "portfolio";
                    "display portfolio balances" ] /\
       occurs_in keyword (lowercased_text message)).
Proof.
  intros message tr.
  unfold getPortfolioBalancesAction_validate, bind, emit, ret.
  eexists; eexists; split; [reflexivity|].
  rewrite validate_content_lowercased, existsb_exists.
  split; intros (k & Hin & Hk); exists k; (split; [exact Hin|]);
    now apply includes_spec.
Qed.

(** ** The address extractor *)

Lemma is_hex_spec : forall c, is_hex c = true <-> hexadecimal c.
Proof.
  intros c. unfold hexadecimal. split.
  - destruct c as [[] [] [] [] [] [] [] []]; vm_compute;
      intros H; try discriminate H; clear H;
      repeat (first [left; reflexivity | right]).
  - simpl. intros H.
    repeat (destruct H as [<- | H]; [reflexivity|]). contradiction.
Qed.

Lemma match_hex_spec : forall n s h,
  match_hex n s = Some h <->
  (exists post, s = h ++ post) /\ String.length h = n /\ all_chars hexadecimal h.
Proof.
  unfold all_chars.
  induction n as [|n IH]; intros s h; simpl.
  - split.
    + intros [= <-]. repeat split; [now exists s | constructor].
    + intros (_ & Hl & _). destruct h; [reflexivity | discriminate].
  - destruct s as [|c s].
    + split; [discriminate|]. intros ([post H] & Hl & _).
      destruct h; discriminate.
    + destruct (is_hex c) eqn:Hc.
      * destruct (match_hex n s) as [h'|] eqn:Hm; simpl.
        -- apply IH in Hm. destruct Hm as ([post Hp] & Hl & Hall). split.
           ++ intros [= <-]. simpl. repeat split.
              ** exists post. now rewrite Hp.
              ** now rewrite Hl.
              ** constructor; [now apply is_hex_spec | exact Hall].
           ++ intros ([post' Hp'] & Hl' & Hall'). destruct h as [|c' h]; [discriminate|].
              simpl in *. inversion Hp'; subst c'. f_equal. f_equal.
              assert (Hx : match_hex n s = Some h).
              { apply IH. repeat split; [now exists post' | lia | now inversion Hall']. }
              rewrite (proj2 (IH s h')) in Hx; [congruence|].
              repeat split; [now exists post | assumption | assumption].
        -- split; [discriminate|]. intros ([post' Hp'] & Hl' & Hall').
           destruct h as [|c' h]; [discriminate|]. simpl in *.
           inversion Hp'; subst c'.
           assert (Hx : match_hex n s = Some h).
           { apply IH. repeat split; [now exists post' | lia | now inversion Hall']. }
           congruence.
      * split; [discriminate|]. intros ([post' Hp'] & Hl' & Hall').
        destruct h as [|c' h]; [discriminate|]. simpl in *.
        inversion Hp'; subst c'. inversion Hall' as [|? ? Hc' Hrest]; subst.
        apply is_hex_spec in Hc'. congruence.
Qed.

Lemma match_here_spec : forall s a,
  match_here s = Some a <-> address_form a /\ exists post, s = a ++ post.
Proof.
  intros s a. unfold address_form. split.
  - unfold match_here.
    destruct s as [|c0 [|c1 t]]; try discriminate.
    + destruct c0 as [[] [] [] [] [] [] [] []]; discriminate.
    + destruct c0 as [[] [] [] [] [] [] [] []]; try discriminate.
      destruct c1 as [[] [] [] [] [] [] [] []]; try discriminate.
      destruct (match_hex 40 t) as [h|] eqn:Hm; [|discriminate].
      simpl. intros [= <-]. apply match_hex_spec in Hm.
      destruct Hm as ([post Hp] & Hl & Hall). split.
      * now exists h.
      * exists post. now rewrite Hp.
  - intros ((h & -> & Hl & Hall) & post & ->).
    change (match_here (("0x" ++ h) ++ post))
      with (option_map (fun h0 => "0x" ++ h0) (match_hex 40 (h ++ post))).
    rewrite (proj2 (match_hex_spec 40 (h ++ post) h)); [reflexivity|].
    repeat split; [now exists post | assumption | assumption].
Qed.

Lemma match_address_some : forall text a,
  match_address text = Some a -> first_address text a.
Proof.
  unfold first_address, occurs_at.
  induction text as [|c text IH]; intros a.
  - simpl. discriminate.
  - change (match_address (String c text))
      with (match match_here (String c text) with
            | Some m => Some m
            | None => match_address text
            end).
    destruct (match_here (String c text)) as [m|] eqn:Hm.
    + intros [= <-]. apply match_here_spec in Hm. destruct Hm as (Ha & post & Hp).
      exists 0. split; [exact Ha|]. split.
      * exists "", post. now split.
      * intros; lia.
    + intros H. destruct (IH a H) as (i & Ha & (pre & post & Hp & Hi) & Hmin).
      exists (S i). split; [exact Ha|]. split.
      * exists (String c pre), post. simpl. split; [now rewrite Hp | now rewrite Hi].
      * intros a' j Ha' (pre' & post' & Hp' & Hj).
        destruct pre' as [|c' pre'].
        -- simpl in Hp'. assert (Hx : match_here (String c text) = Some a').
           { apply match_here_spec. split; [exact Ha' | now exists post']. }
           congruence.
        -- simpl in Hp', Hj. injection Hp' as _ Ht.
           assert (i <= String.length pre') by
             (apply (Hmin a'); [exact Ha' | now exists pre', post']).
           lia.
Qed.

Lemma match_address_none : forall text,
  match_address text = None ->
  forall a i, address_form a -> ~ occurs_at a text i.
Proof.
  unfold occurs_at.
  induction text as [|c text IH]; intros Hn a i Ha (pre & post & Hp & Hi).
  - destruct pre; [|discriminate]. simpl in Hp.
    destruct Ha as (h & -> & _). discriminate.
  - change (match_address (String c text))
      with (match match_here (String c text) with
            | Some m => Some m
            | None => match_address text
            end) in Hn.
    destruct (match_here (String c text)) as [m|] eqn:Hm; [discriminate|].
    destruct pre as [|c' pre].
    + simpl in Hp. assert (Hx : match_here (String c text) = Some a).
      { apply match_here_spec. split; [exact Ha | now exists post]. }
      congruence.
    + simpl in Hp. injection Hp as _ Ht.
      apply (IH Hn a (String.length pre) Ha). now exists pre, post.
Qed.

Lemma append_inj_length : forall x x' y y',
  String.length x = String.length x' -> x ++ y = x' ++ y' -> x = x' /\ y = y'.
Proof.
  induction x as [|c x IH]; intros [|c' x'] y y' Hl H; simpl in *;
    try discriminate.
  - now split.
  - injection H as -> H. injection Hl as Hl.
    destruct (IH x' y y' Hl H) as [-> ->]. now split.
Qed.

Lemma length_append : forall x y,
  String.length (x ++ y) = String.length x + String.length y.
Proof. induction x as [|c x IH]; intros y; simpl; [reflexivity | now rewrite IH]. Qed.

Lemma address_form_length : forall a, address_form a -> String.length a = 42.
Proof. intros a (h & -> & Hl & _). simpl. now rewrite Hl. Qed.

Lemma occurs_at_unique : forall a a' s i,
  occurs_at a s i -> occurs_at a' s i ->
  String.length a = String.length a' -> a = a'.
Proof.
  intros a a' s i (pre & post & H & Hi) (pre' & post' & H' & Hi') Hl.
  rewrite H in H'.
  destruct (append_inj_length pre pre' _ _ (eq_trans Hi (eq_sym Hi')) H')
    as [_ Hrest].
  now destruct (append_inj_length a a' _ _ Hl Hrest).
Qed.

Lemma first_address_unique : forall text a a',
  first_address text a -> first_address text a' -> a = a'.
Proof.
  intros text a a' (i & Ha & Hi & Hmin) (j & Ha' & Hj & Hmin').
  assert (i = j) as <-.
  { apply Nat.le_antisymm; [exact (Hmin a' j Ha' Hj) | exact (Hmin' a i Ha Hi)]. }
  apply (occurs_at_unique a a' text i Hi Hj).
  now rewrite !address_form_length.
Qed.

(** C2. The address extractor [text.match(/0x[a-fA-F0-9]{40}/)] returns
    exactly the leftmost substring of the text made of [0x] and 40
    hexadecimal characters (letters of either case), as it is written in
    the text, whatever follows it; it signals not-found ([null]) exactly
    when the text contains no such substring. *)
Theorem match_address_first : forall text : string,
  (forall a, match_address text = Some a <-> first_address text a) /\
  (match_address text = None <->
   forall a, address_form a -> ~ occurs_in a text).
Proof.
  intros text. split.
  - intros a. split; [apply match_address_some|].
    intros Hf. destruct (match_address text) as [a'|] eqn:Hm.
    + f_equal. eapply first_address_unique; [|exact Hf].
      now apply match_address_some.
    + destruct Hf as (i & Ha & Hi & _).
      now destruct (match_address_none text Hm a i Ha).
  - split.
    + intros Hm a Ha [i Hi]. exact (match_address_none text Hm a i Ha Hi).
    + intros Hno. destruct (match_address text) as [a|] eqn:Hm; [|reflexivity].
      apply match_address_some in Hm. destruct Hm as (i & Ha & Hi & _).
      destruct (Hno a Ha). now exists i.
Qed.

(** ** Subtraction and its sign *)

Lemma binary_round_aux_sign : forall sx mx ex lx,
  match binary_round_aux prec emax sx mx ex lx with
  | S754_zero s | S754_infinity s | S754_finite s _ _ => s = sx
  | S754_nan => True
  end.
Proof.
  intros. unfold binary_round_aux.
  destruct (shr_fexp prec emax mx ex lx) as [mrs' e'].
  destruct (shr_fexp prec emax _ e' loc_Exact) as [mrs'' e''].
  destruct (shr_m mrs''); auto.
  destruct (Z.leb e'' (Z.sub emax prec)); auto.
Qed.

Lemma binary_normalize_sign : forall m e,
  match binary_normalize prec emax m e false with
  | S754_zero _ => True
  | S754_infinity s | S754_finite s _ _ => s = (m <? 0)%Z
  | S754_nan => True
  end.
Proof.
  intros m e. destruct m as [|p|p]; simpl; auto; unfold binary_round;
    destruct (shl_align _ _ _) as [mz ez];
    pose proof (binary_round_aux_sign (match Z.neg p with Z.neg _ => true | _ => false end) (Zpos mz) ez loc_Exact) as H.
  - pose proof (binary_round_aux_sign false (Zpos mz) ez loc_Exact) as H'.
    destruct (binary_round_aux prec emax false (Zpos mz) ez loc_Exact); auto.
  - pose proof (binary_round_aux_sign true (Zpos mz) ez loc_Exact) as H'.
    destruct (binary_round_aux prec emax true (Zpos mz) ez loc_Exact); auto.
Qed.

Lemma is_positive_sign : forall x,
  is_positive x = true ->
  match x with
  | S754_infinity s | S754_finite s _ _ => s = false
  | _ => False
  end.
Proof.
  intros [s|s|
         |s m e]; unfold is_positive, SFltb; simpl; try discriminate;
    destruct s; simpl; auto; discriminate.
Qed.

Lemma is_positive_of_sign : forall x,
  match x with
  | S754_infinity s | S754_finite s _ _ => s = true
  | _ => True
  end -> is_positive x = false.
Proof.
  intros [s|s| |s m e]; unfold is_positive, SFltb; simpl; auto;
    intros ->; reflexivity.
Qed.

Lemma number_sub_finite : forall sa ma ea sb mb eb,
  number_sub (S754_finite sa ma ea) (S754_finite sb mb eb)
  = binary_normalize prec emax (aligned_difference sa ma ea sb mb eb)
                     (Z.min ea eb) false.
Proof. reflexivity. Qed.

Lemma aligned_difference_opp : forall sa ma ea sb mb eb,
  aligned_difference sb mb eb sa ma ea
  = (- aligned_difference sa ma ea sb mb eb)%Z.
Proof.
  intros. unfold aligned_difference. rewrite (Z.min_comm eb ea). lia.
Qed.

(** If [a - b] is positive then [b - a] is not. *)
Lemma number_sub_antisym : forall a b,
  is_positive (number_sub a b) = true -> is_positive (number_sub b a) = false.
Proof.
  intros a b H. apply is_positive_sign in H. apply is_positive_of_sign.
  destruct a as [sa|sa| |sa ma ea], b as [sb|sb| |sb mb eb];
    try (unfold number_sub in *; try (destruct sa); try (destruct sb);
         simpl in *; try discriminate; try contradiction; auto; fail).
  rewrite number_sub_finite in *.
  rewrite aligned_difference_opp, (Z.min_comm eb ea).
  set (d := aligned_difference sa ma ea sb mb eb) in *.
  pose proof (binary_normalize_sign d (Z.min ea eb)) as H1.
  pose proof (binary_normalize_sign (- d) (Z.min ea eb)) as H2.
  assert (Hd : (0 < d)%Z).
  { destruct (binary_normalize prec emax d (Z.min ea eb) false) eqn:E1;
      try contradiction; subst;
      symmetry in H1; apply Z.ltb_ge in H1;
      (assert (d <> 0)%Z; [|lia]); intros Hz; rewrite Hz in E1;
      discriminate E1. }
  destruct (binary_normalize prec emax (- d) (Z.min ea eb) false);
    auto; subst; apply Z.ltb_lt; lia.
Qed.

(** ** [Array.prototype.sort] *)

Section ArraySortFacts.
Context {A : Type}.
Variable comparefn : A -> A -> number.

Hypothesis comparefn_antisym : forall x y,
  is_positive (comparefn x y) = true -> is_positive (comparefn y x) = false.

Lemma sort_insert_perm : forall x l,
  Permutation (x :: l) (sort_insert comparefn x l).
Proof.
  intros x l. induction l as [|y t IH]; simpl; [reflexivity|].
  destruct (is_positive (comparefn x y)); [|reflexivity].
  rewrite perm_swap. now constructor.
Qed.

Lemma Array_sort_perm : forall l, Permutation l (Array_sort comparefn l).
Proof.
  induction l as [|x t IH]; simpl; [reflexivity|].
  rewrite <- sort_insert_perm. now constructor.
Qed.

Lemma sort_insert_sorted : forall x l,
  Sorted (keeps comparefn) l ->
  Sorted (keeps comparefn) (sort_insert comparefn x l).
Proof.
  intros x l Hs. induction Hs as [|y t Ht IH Hhd]; simpl.
  - repeat constructor.
  - destruct (is_positive (comparefn x y)) eqn:Hxy.
    + constructor; [exact IH|].
      destruct t as [|z t]; simpl.
      * constructor. now apply comparefn_antisym.
      * destruct (is_positive (comparefn x z)).
        -- inversion Hhd; subst. now constructor.
        -- constructor. now apply comparefn_antisym.
    + constructor; [now constructor | now constructor].
Qed.

Lemma Array_sort_sorted : forall l,
  Sorted (keeps comparefn) (Array_sort comparefn l).
Proof.
  induction l as [|x t IH]; simpl; [constructor|].
  now apply sort_insert_sorted.
Qed.
End ArraySortFacts.

Lemma by_value_descending_antisym : forall x y,
  is_positive (by_value_descending x y) = true ->
  is_positive (by_value_descending y x) = false.
Proof. intros x y. apply number_sub_antisym. Qed.

(** ** [findIndex], [splice] and the Wallet rule *)

Lemma findIndex_from_none : forall {A : Type} (p : A -> bool) l i,
  (forall x, In x l -> p x = false) -> findIndex_from p l i = (-1)%Z.
Proof.
  intros A p l. induction l as [|x t IH]; intros i H; simpl; [reflexivity|].
  rewrite (H x (or_introl eq_refl)). apply IH. intros y Hy. apply H. now right.
Qed.

Lemma findIndex_from_first : forall {A : Type} (p : A -> bool) pre w post i,
  p w = true -> (forall x, In x pre -> p x = false) ->
  findIndex_from p (pre ++ w :: post) i = (i + Z.of_nat (List.length pre))%Z.
Proof.
  intros A p pre w post. induction pre as [|x t IH]; intros i Hw H; simpl.
  - rewrite Hw. lia.
  - rewrite (H x (or_introl eq_refl)).
    rewrite IH; [lia | exact Hw | intros y Hy; apply H; now right].
Qed.

Lemma is_Wallet_false : forall p,
  NameValue.name p <> "Wallet" -> is_Wallet p = false.
Proof. intros p H. unfold is_Wallet. now apply String.eqb_neq. Qed.

Lemma wallet_first_absent : forall l,
  (forall p, In p l -> NameValue.name p <> "Wallet") -> wallet_first l = l.
Proof.
  intros l H. unfold wallet_first, findIndex.
  rewrite findIndex_from_none; [reflexivity|].
  intros p Hp. apply is_Wallet_false. now apply H.
Qed.

Lemma splice1_at : forall {A : Type} (pre : list A) w post,
  splice1 (pre ++ w :: post) (Z.of_nat (List.length pre))
  = ([w], (pre ++ post)%list).
Proof.
  intros A pre w post. unfold splice1. cbv zeta. rewrite Nat2Z.id.
  f_equal.
  - rewrite skipn_app, skipn_all, Nat.sub_diag. reflexivity.
  - f_equal.
    + rewrite firstn_app, firstn_all, Nat.sub_diag. simpl.
      now rewrite app_nil_r.
    + replace (pre ++ w :: post)%list with ((pre ++ [w]) ++ post)%list
        by (now rewrite <- app_assoc).
      replace (S (List.length pre)) with (List.length (pre ++ [w])%list)
        by (rewrite length_app; simpl; lia).
      rewrite skipn_app, skipn_all, Nat.sub_diag. reflexivity.
Qed.

Lemma wallet_first_moves : forall pre wallet post,
  NameValue.name wallet = "Wallet" ->
  (forall p, In p pre -> NameValue.name p <> "Wallet") ->
  wallet_first (pre ++ wallet :: post) = wallet :: pre ++ post.
Proof.
  intros pre wallet post Hw H. unfold wallet_first, findIndex.
  rewrite findIndex_from_first.
  - replace (-1 <? 0 + Z.of_nat (List.length pre))%Z with true
      by (symmetry; apply Z.ltb_lt; lia).
    rewrite Z.add_0_l, splice1_at. reflexivity.
  - unfold is_Wallet. now apply String.eqb_eq.
  - intros p Hp. apply is_Wallet_false. now apply H.
Qed.

(** ** Joined lines *)

Lemma truthy_append : forall a b,
  truthy_string (a ++ b) = truthy_string a || truthy_string b.
Proof. intros [|c a] b; reflexivity. Qed.

Lemma format_line_truthy : forall name value,
  truthy_string (format_line name value) = true.
Proof.
  intros. unfold format_line. rewrite truthy_append, orb_true_iff. right.
  reflexivity.
Qed.

Lemma join_lines_truthy : forall {A : Type} (f : A -> string) (l : list A),
  (forall x, truthy_string (f x) = true) ->
  truthy_string (join LF (map f l))
  = match l with [] => false | _ => true end.
Proof.
  intros A f [|x [|y t]] H; simpl; auto.
  unfold join; simpl. rewrite truthy_append, H. reflexivity.
Qed.

(** ** [Object.entries] *)

Lemma insert_index_perm : forall {A : Type} (x : N * A) l,
  Permutation (x :: l) (insert_index x l).
Proof.
  intros A x l. induction l as [|y t IH]; simpl; [reflexivity|].
  destruct (fst x <? fst y)%N; [reflexivity|].
  rewrite perm_swap. now constructor.
Qed.

Lemma ascending_perm : forall {A : Type} (l : list (N * A)),
  Permutation l (ascending l).
Proof.
  intros A l. induction l as [|x t IH]; simpl; [reflexivity|].
  rewrite <- insert_index_perm. now constructor.
Qed.

Lemma insert_index_sorted : forall {A : Type} (x : N * A) l,
  Sorted (fun a b => (fst a <= fst b)%N) l ->
  Sorted (fun a b => (fst a <= fst b)%N) (insert_index x l).
Proof.
  intros A x l Hs. induction Hs as [|y t Ht IH Hhd]; simpl.
  - repeat constructor.
  - destruct (fst x <? fst y)%N eqn:Hxy.
    + apply N.ltb_lt in Hxy. constructor; [now constructor|].
      constructor. lia.
    + apply N.ltb_ge in Hxy. constructor; [exact IH|].
      destruct t as [|z t]; simpl.
      * now constructor.
      * destruct (fst x <? fst z)%N.
        -- now constructor.
        -- inversion Hhd; subst. now constructor.
Qed.

Lemma ascending_sorted : forall {A : Type} (l : list (N * A)),
  Sorted (fun a b => (fst a <= fst b)%N) (ascending l).
Proof.
  intros A l. induction l as [|x t IH]; simpl; [constructor|].
  now apply insert_index_sorted.
Qed.

Lemma index_properties_keys : forall {A : Type} (o : object A),
  Forall (fun x => array_index (fst (snd x)) = Some (fst x))
         (index_properties o).
Proof.
  intros A o. induction o as [|kv t IH]; simpl; [constructor|].
  destruct (array_index (fst kv)) eqn:E; simpl; [|exact IH].
  constructor; [exact E | exact IH].
Qed.

Lemma index_properties_filter : forall {A : Type} (o : object A),
  map snd (index_properties o)
  = filter (fun kv => is_array_index (fst kv)) o.
Proof.
  intros A o. induction o as [|kv t IH]; simpl; [reflexivity|].
  unfold is_array_index. destruct (array_index (fst kv)); simpl;
    [now rewrite IH | exact IH].
Qed.

Lemma filter_partition_perm : forall {A : Type} (f : A -> bool) (l : list A),
  Permutation l (filter f l ++ filter (fun x => negb (f x)) l).
Proof.
  intros A f l. induction l as [|x t IH]; simpl; [reflexivity|].
  destruct (f x); simpl.
  - now constructor.
  - rewrite <- Permutation_middle. now constructor.
Qed.

Lemma Object_entries_perm : forall {A : Type} (o : object A),
  Permutation o (Object_entries o).
Proof.
  intros A o. unfold Object_entries, string_properties.
  rewrite <- (ascending_perm (index_properties o)).
  rewrite index_properties_filter.
  apply filter_partition_perm.
Qed.

Lemma Object_entries_no_index : forall {A : Type} (o : object A),
  (forall kv, In kv o -> array_index (fst kv) = None) ->
  Object_entries o = o.
Proof.
  intros A o H. unfold Object_entries, string_properties.
  assert (Hi : index_properties o = []).
  { induction o as [|kv t IH]; simpl; [reflexivity|].
    rewrite (H kv (or_introl eq_refl)). simpl. apply IH.
    intros kv' Hin. apply H. now right. }
  rewrite Hi. simpl.
  induction o as [|kv t IH]; simpl; [reflexivity|].
  unfold is_array_index at 1. rewrite (H kv (or_introl eq_refl)). simpl.
  f_equal. apply IH.
  - intros kv' Hin. apply H. now right.
  - simpl in Hi. rewrite (H kv (or_introl eq_refl)) in Hi. exact Hi.
Qed.

Lemma Sorted_map_snd_index : forall {A : Type} (l : list (N * (string * A))),
  Forall (fun x => array_index (fst (snd x)) = Some (fst x)) l ->
  Sorted (fun a b => (fst a <= fst b)%N) l ->
  Sorted index_le (map snd l).
Proof.
  intros A l Hk Hs. induction Hs as [|x t Ht IH Hhd]; simpl; [constructor|].
  inversion Hk as [|? ? Hx Hkt]; subst.
  constructor; [now apply IH|].
  destruct Hhd as [|y t' Hxy]; simpl; constructor.
  inversion Hkt as [|? ? Hy ?]; subst.
  unfold index_le. now rewrite Hx, Hy.
Qed.

(** The order of [Object.entries]: the entries under an array index, by
    ascending index, then the other ones as they were created. *)
Lemma Object_entries_order : forall {A : Type} (o : object A),
  exists indexed others,
    Object_entries o = (indexed ++ others)%list /\
    Permutation indexed (filter (fun kv => is_array_index (fst kv)) o) /\
    Sorted index_le indexed /\
    others = filter (fun kv => negb (is_array_index (fst kv))) o.
Proof.
  intros A o.
  exists (map snd (ascending (index_properties o))), (string_properties o).
  split; [reflexivity|]. split; [|split; [|reflexivity]].
  - rewrite <- index_properties_filter. apply Permutation_map.
    symmetry. apply ascending_perm.
  - apply Sorted_map_snd_index; [|apply ascending_sorted].
    eapply Permutation_Forall; [apply ascending_perm|].
    apply index_properties_keys.
Qed.

Lemma Object_entries_nil : forall {A : Type} (o : object A),
  Object_entries o = [] <-> o = [].
Proof.
  intros A o. split.
  - intros H. pose proof (Object_entries_perm o) as Hp. rewrite H in Hp.
    symmetry in Hp. now apply Permutation_nil in Hp.
  - intros ->. reflexivity.
Qed.

(** ** Rounding and the order of the values *)

Section Binary64.
Local Open Scope Z_scope.

Lemma emin64_value : emin64 = -1074.
Proof. reflexivity. Qed.

Lemma fexp_ge_emin : forall e, emin64 <= fexp prec emax e.
Proof. intros e. unfold fexp, emin64. lia. Qed.

Lemma iter_pos_nat : forall {A : Type} (f : A -> A) p x,
  iter_pos f p x = Nat.iter (Pos.to_nat p) f x.
Proof.
  intros A f p. induction p as [p IH|p IH|]; intros x.
  - change (iter_pos f p~1 x) with (iter_pos f p (iter_pos f p (f x))).
    rewrite !IH, Pos2Nat.inj_xI, Nat.iter_succ_r.
    replace (2 * Pos.to_nat p)%nat with (Pos.to_nat p + Pos.to_nat p)%nat
      by lia.
    now rewrite Nat.iter_add.
  - change (iter_pos f p~0 x) with (iter_pos f p (iter_pos f p x)).
    rewrite !IH, Pos2Nat.inj_xO.
    replace (2 * Pos.to_nat p)%nat with (Pos.to_nat p + Pos.to_nat p)%nat
      by lia.
    now rewrite Nat.iter_add.
  - reflexivity.
Qed.

Lemma shr_1_m : forall mrs, 0 <= shr_m mrs ->
  shr_m (shr_1 mrs) = shr_m mrs / 2.
Proof.
  intros [m r s] Hm. simpl in *. destruct m as [|p|p]; try lia; simpl.
  - reflexivity.
  - destruct p; simpl.
    + rewrite Pos2Z.inj_xI. apply Z.div_unique with 1; lia.
    + rewrite Pos2Z.inj_xO. apply Z.div_unique with 0; lia.
    + reflexivity.
Qed.

Lemma shr_iter_m : forall n mrs, 0 <= shr_m mrs ->
  shr_m (Nat.iter n shr_1 mrs) = shr_m mrs / 2 ^ Z.of_nat n.
Proof.
  induction n as [|n IH]; intros mrs Hm.
  - simpl. now rewrite Z.div_1_r.
  - rewrite Nat.iter_succ, shr_1_m.
    + rewrite IH by exact Hm. rewrite Nat2Z.inj_succ, Z.pow_succ_r by lia.
      rewrite Z.div_div by lia. f_equal. lia.
    + rewrite IH by exact Hm. apply Z.div_pos; lia.
Qed.

Lemma shr_record_of_loc_m : forall m l, shr_m (shr_record_of_loc m l) = m.
Proof. intros m [|[]]; reflexivity. Qed.

Lemma digits2_pos_bound : forall p,
  2 ^ (Zpos (digits2_pos p) - 1) <= Zpos p.
Proof.
  induction p as [p IH|p IH|]; simpl digits2_pos.
  - rewrite Pos2Z.inj_succ. replace (Z.succ (Zpos (digits2_pos p)) - 1)
      with (Z.succ (Zpos (digits2_pos p) - 1)) by lia.
    rewrite Z.pow_succ_r by lia. lia.
  - rewrite Pos2Z.inj_succ. replace (Z.succ (Zpos (digits2_pos p)) - 1)
      with (Z.succ (Zpos (digits2_pos p) - 1)) by lia.
    rewrite Z.pow_succ_r by lia. lia.
  - simpl. lia.
Qed.

(** Rounding a positive mantissa to the format leaves a positive
    mantissa, at an exponent that is at least the minimal one. *)
Lemma shr_fexp_positive : forall m e l,
  0 < m -> emin64 <= e ->
  0 < shr_m (fst (shr_fexp prec emax m e l)).
Proof.
  intros m e l Hm He. unfold shr_fexp, shr.
  destruct m as [|p|p]; try lia. simpl Zdigits2.
  set (d := Zpos (digits2_pos p)).
  destruct (fexp prec emax (d + e) - e) as [|n|n] eqn:En; simpl fst;
    try (rewrite shr_record_of_loc_m; lia).
  rewrite iter_pos_nat, shr_iter_m by (rewrite shr_record_of_loc_m; lia).
  rewrite shr_record_of_loc_m, positive_nat_Z.
  assert (Hn : Zpos n = d - prec).
  { unfold fexp in En. fold emin64 in En. unfold prec in *. lia. }
  pose proof (digits2_pos_bound p) as Hb. fold d in Hb.
  apply Z.div_str_pos. split; [lia|].
  eapply Z.le_trans; [|exact Hb]. apply Z.pow_le_mono_r; unfold prec in *; lia.
Qed.

Lemma shr_fexp_exponent : forall m e l,
  emin64 <= snd (shr_fexp prec emax m e l).
Proof.
  intros m e l. unfold shr_fexp, shr.
  pose proof (fexp_ge_emin (Zdigits2 m + e)) as Hf.
  destruct (fexp prec emax (Zdigits2 m + e) - e) as [|n|n] eqn:En;
    simpl snd; lia.
Qed.

Lemma round_nearest_even_ge : forall m l, m <= round_nearest_even m l.
Proof. intros m [|[]]; simpl; try lia. destruct (Z.even m); lia. Qed.

(** The result of a rounding of a positive mantissa whose exponent is at
    least the minimal one is not a zero. *)
Lemma binary_round_aux_nonzero : forall sx m e l,
  emin64 <= e ->
  match binary_round_aux prec emax sx (Zpos m) e l with
  | S754_finite s _ _ | S754_infinity s => s = sx
  | _ => False
  end.
Proof.
  intros sx m e l He. unfold binary_round_aux.
  pose proof (shr_fexp_positive (Zpos m) e l eq_refl He) as H1.
  pose proof (shr_fexp_exponent (Zpos m) e l) as E1.
  destruct (shr_fexp prec emax (Zpos m) e l) as [mrs' e']. simpl in H1, E1.
  pose proof (round_nearest_even_ge (shr_m mrs') (loc_of_shr_record mrs'))
    as Hr.
  pose proof (shr_fexp_positive
                (round_nearest_even (shr_m mrs') (loc_of_shr_record mrs'))
                e' loc_Exact ltac:(lia) E1) as H2.
  destruct (shr_fexp prec emax _ e' loc_Exact) as [mrs'' e'']. simpl in H2.
  destruct (shr_m mrs''); try lia.
  now destruct (Z.leb e'' (Z.sub emax prec)).
Qed.

Lemma binary_round_aux_exponent : forall sx m e l,
  match binary_round_aux prec emax sx m e l with
  | S754_finite _ _ e' => emin64 <= e'
  | _ => True
  end.
Proof.
  intros sx m e l. unfold binary_round_aux.
  destruct (shr_fexp prec emax m e l) as [mrs' e'].
  pose proof (shr_fexp_exponent
                (round_nearest_even (shr_m mrs') (loc_of_shr_record mrs'))
                e' loc_Exact) as E2.
  destruct (shr_fexp prec emax _ e' loc_Exact) as [mrs'' e'']. simpl in E2.
  destruct (shr_m mrs''); auto.
  now destruct (Z.leb e'' (Z.sub emax prec)).
Qed.

Lemma binary_round_nonzero : forall sx m e,
  emin64 <= e ->
  match binary_round prec emax sx m e with
  | S754_finite s _ _ | S754_infinity s => s = sx
  | _ => False
  end.
Proof.
  intros sx m e He. unfold binary_round, shl_align.
  pose proof (fexp_ge_emin (Zpos (digits2_pos m) + e)) as Hf.
  destruct (fexp prec emax (Zpos (digits2_pos m) + e) - e) eqn:Ed;
    apply binary_round_aux_nonzero; lia.
Qed.

(** At an exponent that is at least the minimal one, the rounding of an
    integer mantissa is positive exactly when the mantissa is. *)
Lemma binary_normalize_positive : forall d e,
  emin64 <= e ->
  is_positive (binary_normalize prec emax d e false) = true <-> 0 < d.
Proof.
  intros d e He. destruct d as [|m|m]; simpl binary_normalize.
  - split; [discriminate | lia].
  - pose proof (binary_round_nonzero false m e He) as H.
    destruct (binary_round prec emax false m e); try contradiction;
      subst; split; auto; lia.
  - pose proof (binary_round_nonzero true m e He) as H.
    destruct (binary_round prec emax true m e); try contradiction;
      subst; split; try discriminate; lia.
Qed.

Lemma shl_align_value : forall m e ez,
  ez <= e -> Zpos (fst (shl_align m e ez)) = Zpos m * 2 ^ (e - ez).
Proof.
  intros m e ez He. unfold shl_align.
  destruct (ez - e) as [|d|d] eqn:Ed; simpl fst; try lia.
  - replace (e - ez) with 0 by lia. lia.
  - replace (e - ez) with (Zpos d) by lia.
    change (Pos.iter xO m d) with (shift_pos d m).
    rewrite shift_pos_correct. apply Z.mul_comm.
Qed.

Lemma cond_Zopp_mul : forall s a b,
  cond_Zopp s a * b = cond_Zopp s (a * b).
Proof. intros [] a b; simpl; lia. Qed.

(** The aligned difference of two finite numbers is their difference, up
    to a power of two. *)
Lemma aligned_difference_scaled : forall sa ma ea sb mb eb,
  emin64 <= ea -> emin64 <= eb ->
  aligned_difference sa ma ea sb mb eb * 2 ^ (Z.min ea eb + 1074)
  = scaled_value (S754_finite sa ma ea) - scaled_value (S754_finite sb mb eb).
Proof.
  intros sa ma ea sb mb eb Ha Hb. rewrite emin64_value in Ha, Hb.
  unfold aligned_difference, scaled_value. cbv zeta.
  set (ez := Z.min ea eb).
  rewrite Z.mul_sub_distr_r, !cond_Zopp_mul.
  rewrite !shl_align_value by (unfold ez; lia).
  rewrite <- !Z.mul_assoc, <- !Z.pow_add_r by (unfold ez; lia).
  replace (ea - ez + (ez + 1074)) with (ea + 1074) by lia.
  replace (eb - ez + (ez + 1074)) with (eb + 1074) by lia.
  reflexivity.
Qed.

Lemma scaled_value_sign : forall s m e,
  emin64 <= e ->
  (scaled_value (S754_finite s m e) < 0 <-> s = true) /\
  (0 < scaled_value (S754_finite s m e) <-> s = false).
Proof.
  intros s m e He. rewrite emin64_value in He.
  assert (0 < Zpos m * 2 ^ (e + 1074))
    by (apply Z.mul_pos_pos; [lia | apply Z.pow_pos_nonneg; lia]).
  destruct s; unfold scaled_value, cond_Zopp; split; split; intros;
    try lia; try discriminate; reflexivity.
Qed.

(** The sign of the computed difference [b - a] tells whether [a < b]. *)
Lemma number_sub_positive : forall a b,
  above_emin a -> above_emin b ->
  is_positive (number_sub b a) = true <-> number_lt a b.
Proof.
  intros a b Ha Hb.
  destruct a as [sa|sa| |sa ma ea], b as [sb|sb| |sb mb eb];
    try (unfold number_sub, is_positive, SFltb; simpl;
         try (destruct sa); try (destruct sb); simpl;
         split; intros H; try discriminate; try contradiction;
         try lia; try reflexivity; try (now split); try (now destruct H);
         fail).
  - (* a = zero, b finite *)
    simpl in Hb. destruct (scaled_value_sign sb mb eb Hb) as [_ Hpos].
    unfold number_sub, number_lt. simpl SFsub.
    change (scaled_value (S754_zero sa)) with 0. rewrite Hpos.
    destruct sb; unfold is_positive, SFltb; simpl; split; intros;
      try discriminate; reflexivity.
  - (* a finite, b = zero *)
    simpl in Ha. destruct (scaled_value_sign sa ma ea Ha) as [Hneg _].
    unfold number_sub, number_lt. simpl SFsub.
    change (scaled_value (S754_zero sb)) with 0. rewrite Hneg.
    destruct sa; unfold is_positive, SFltb; simpl; split; intros;
      try discriminate; reflexivity.
  - (* both finite *)
    simpl in Ha, Hb. rewrite number_sub_finite.
    rewrite binary_normalize_positive by lia.
    pose proof (aligned_difference_scaled sb mb eb sa ma ea Hb Ha) as Hd.
    unfold number_lt.
    assert (Hp : 0 < 2 ^ (Z.min eb ea + 1074))
      by (apply Z.pow_pos_nonneg; rewrite emin64_value in *; lia).
    split; intros H.
    + assert (0 < aligned_difference sb mb eb sa ma ea
                  * 2 ^ (Z.min eb ea + 1074))
        by (apply Z.mul_pos_pos; assumption).
      lia.
    + assert (0 < aligned_difference sb mb eb sa ma ea
                  * 2 ^ (Z.min eb ea + 1074)) by lia.
      apply Z.mul_pos_cancel_r with (2 ^ (Z.min eb ea + 1074)); assumption.
Qed.

(** Every parsed number has an exponent that is at least the minimal
    one. *)
Lemma decimal_to_number_above_emin : forall s d e10,
  above_emin (decimal_to_number s d e10).
Proof.
  intros s d e10. unfold decimal_to_number.
  destruct d as [|p]; [exact I|].
  destruct (0 <=? e10).
  - unfold binary_round.
    destruct (shl_align _ _ _) as [mz ez].
    exact (binary_round_aux_exponent s (Zpos mz) ez loc_Exact).
  - unfold SFdiv.
    destruct (SFdiv_core_binary prec emax (Zpos p) 0 _ 0) as [[mz ez] lz].
    exact (binary_round_aux_exponent (xorb s false) mz ez lz).
Qed.

Lemma parse_decimal_above_emin : forall s l, above_emin (parse_decimal s l).
Proof.
  intros s l. unfold parse_decimal.
  destruct (ascii_list_eqb l Infinity_literal); [exact I|].
  destruct (take_digits 0 0 l) as [[ip nip] r1].
  destruct (match r1 with
            | "."%char :: r =>
                let '(m, n, r') := take_digits ip 0 r in
                (m, n, r', (0 <? nip + n)%nat)
            | _ => (ip, O, r1, (0 <? nip)%nat)
            end) as [[[mant nfp] r2] some_digit].
  destruct some_digit; [|exact I].
  destruct (parse_exponent r2); [apply decimal_to_number_above_emin|exact I].
Qed.

Lemma parse_non_decimal_above_emin : forall radix l,
  above_emin (parse_non_decimal radix l).
Proof.
  intros radix l. unfold parse_non_decimal.
  destruct l; [exact I|].
  destruct (parse_radix radix 0 (a :: l));
    [apply decimal_to_number_above_emin | exact I].
Qed.

Lemma StringToNumber_above_emin : forall value,
  above_emin (StringToNumber value).
Proof.
  intros value. unfold StringToNumber.
  set (l := trim (list_ascii_of_string value)).
  assert (Hd : above_emin (let (s, r) := parse_sign l in parse_decimal s r))
    by (destruct (parse_sign l); apply parse_decimal_above_emin).
  destruct l as [|c0 [|c1 t]].
  - exact I.
  - destruct c0 as [[] [] [] [] [] [] [] []]; exact Hd.
  - destruct c0 as [[] [] [] [] [] [] [] []]; try exact Hd.
    repeat match goal with
           | |- above_emin (if ?b then _ else _) => destruct b
           end; try exact Hd; apply parse_non_decimal_above_emin.
Qed.

(** ** The order of the values *)

Lemma number_lt_of_sub : forall a b : string,
  is_positive (number_sub (StringToNumber b) (StringToNumber a)) = true
  <-> number_lt (StringToNumber a) (StringToNumber b).
Proof.
  intros a b. apply number_sub_positive; apply StringToNumber_above_emin.
Qed.

(** On numbers, "not less than" is transitive. *)
Lemma number_not_lt_trans : forall a b c,
  a <> S754_nan -> b <> S754_nan -> c <> S754_nan ->
  ~ number_lt a b -> ~ number_lt b c -> ~ number_lt a c.
Proof.
  intros a b c Ha Hb Hc.
  destruct a as [sa|sa| |sa ma ea]; try congruence;
    destruct b as [sb|sb| |sb mb eb]; try congruence;
    destruct c as [sc|sc| |sc mc ec]; try congruence;
    unfold number_lt; try (destruct sa); try (destruct sb);
    try (destruct sc); intuition (try discriminate; try lia).
Qed.

Lemma Sorted_weaken : forall {A : Type} (R R' : A -> A -> Prop) l,
  (forall x y, R x y -> R' x y) -> Sorted R l -> Sorted R' l.
Proof.
  intros A R R' l H Hs. induction Hs as [|x l Hl IH Hhd]; constructor; auto.
  destruct Hhd; constructor; auto.
Qed.

Lemma keeps_not_greater : forall p q,
  keeps by_value_descending p q -> not_greater p q.
Proof.
  intros p q H Hlt. apply number_lt_of_sub in Hlt.
  unfold keeps, by_value_descending in H. congruence.
Qed.

(** In a list of numeric values, sorted from one entry to the next, no
    entry has a smaller value than a later one. *)
Lemma Sorted_not_greater_strongly : forall l,
  Forall numeric l -> Sorted not_greater l -> StronglySorted not_greater l.
Proof.
  intros l Hn Hs. induction Hs as [|x l Hl IH Hhd]; [constructor|].
  inversion Hn as [|? ? Hx Hnl]; subst.
  specialize (IH Hnl). constructor; [exact IH|].
  destruct Hhd as [|y l Hxy]; [constructor|].
  inversion IH as [|? ? Hsl Hy]; subst.
  inversion Hnl as [|? ? Hny Hnt]; subst.
  constructor; [exact Hxy|].
  rewrite Forall_forall in *. intros z Hz.
  unfold not_greater, numeric in *.
  apply (number_not_lt_trans _ (StringToNumber (NameValue.value y)) _);
    auto.
Qed.
End Binary64.

(** ** The report and its protocol section *)

(** The report, section by section. *)
Lemma report_written_out : forall pb,
  formatPortfolioBalancesResponse pb
  = report_text (OctavPortfolioBalance.address pb)
      (toFixed 2 (StringToNumber (OctavPortfolioBalance.networth pb)))
      (chain_section pb) (protocol_section pb).
Proof. reflexivity. Qed.

Lemma protocol_section_unfold : forall pb,
  protocol_section pb
  = match networthPerProtocol pb with
    | [] => "No data available for protocols."
    | _ =>
        join LF
          (map (fun p =>
                  NameValue.name p ++ ": $"
                  ++ toFixed 2 (StringToNumber (NameValue.value p)))
               (networthPerProtocol pb))
    end.
Proof.
  intros pb. unfold protocol_section, networthProtocolStr.
  rewrite (join_lines_truthy
             (fun protocol => format_line (NameValue.name protocol)
                                          (NameValue.value protocol)));
    [|intros x; apply format_line_truthy].
  now destruct (networthPerProtocol pb).
Qed.

(** A list has no entry named "Wallet", or a first one. *)
Lemma first_wallet : forall l : list NameValue.t,
  (forall p, In p l -> NameValue.name p <> "Wallet") \/
  exists pre wallet post,
    l = (pre ++ wallet :: post)%list /\
    NameValue.name wallet = "Wallet" /\
    (forall p, In p pre -> NameValue.name p <> "Wallet").
Proof.
  induction l as [|x t IH].
  - left. intros p [].
  - destruct (string_dec (NameValue.name x) "Wallet") as [Hx|Hx].
    + right. exists [], x, t. repeat split; [exact Hx | intros p []].
    + destruct IH as [Hno | (pre & wallet & post & -> & Hw & Hpre)].
      * left. intros p [<-|Hp]; [exact Hx | now apply Hno].
      * right. exists (x :: pre), wallet, post. repeat split; [exact Hw|].
        intros p [<-|Hp]; [exact Hx | now apply Hpre].
Qed.

(** The [walletIndex] block follows the Wallet rule. *)
Lemma wallet_first_rule : forall l, wallet_moved_first l (wallet_first l).
Proof.
  intros l. destruct (first_wallet l)
    as [Hno | (pre & wallet & post & -> & Hw & Hpre)].
  - rewrite (wallet_first_absent l Hno). now constructor.
  - rewrite (wallet_first_moves pre wallet post Hw Hpre). now constructor.
Qed.

Lemma wallet_moved_first_perm : forall l l',
  wallet_moved_first l l' -> Permutation l l'.
Proof.
  intros l l' [l0 _ | pre wallet post _ _]; [reflexivity|].
  symmetry. apply Permutation_middle.
Qed.

(** The sorted pairs when every value is a number: no entry comes before
    an entry of greater value. *)
Lemma Array_sort_descending : forall l,
  Forall numeric l ->
  StronglySorted not_greater (Array_sort by_value_descending l).
Proof.
  intros l Hn. apply Sorted_not_greater_strongly.
  - eapply Permutation_Forall; [apply Array_sort_perm | exact Hn].
  - apply (Sorted_weaken (keeps by_value_descending));
      [exact keeps_not_greater|].
    exact (Array_sort_sorted by_value_descending
             by_value_descending_antisym l).
Qed.




(** ** The chain section *)

Lemma chain_section_unfold : forall pb,
  chain_section pb
  = match OctavPortfolioBalance.chains pb with
    | [] => "No data available for chains."
    | _ =>
        join LF
          (map (fun entry =>
                  Chain.name (snd entry) ++ ": $"
                  ++ toFixed 2 (StringToNumber (Chain.value (snd entry))))
               (Object_entries (OctavPortfolioBalance.chains pb)))
    end.
Proof.
  intros pb. unfold chain_section, networthPerChain.
  rewrite (join_lines_truthy
             (fun entry => format_line (Chain.name (snd entry))
                                       (Chain.value (snd entry))));
    [|intros x; apply format_line_truthy].
  destruct (Object_entries (OctavPortfolioBalance.chains pb)) eqn:E.
  - apply (proj1 (Object_entries_nil _)) in E. now rewrite E.
  - destruct (OctavPortfolioBalance.chains pb) eqn:E'; [discriminate E|].
    reflexivity.
Qed.

(** C7, as the code has it. The chain section of the report holds one
    line per entry of the chains mapping, each [<chain.name>: $<value>]
    with the value through [Number(...).toFixed(2)], in the order of
    [Object.entries]: the entries whose key is an array index come first,
    by ascending index, and the other entries follow in insertion order
    (so the order is the insertion order when no key is an array index);
    when the mapping is empty the section is the placeholder line. *)
Theorem chain_lines_in_entries_order : forall pb : OctavPortfolioBalance.t,
  let chains := OctavPortfolioBalance.chains pb in
  let line := fun entry : string * Chain.t =>
    Chain.name (snd entry) ++ ": $"
    ++ toFixed 2 (StringToNumber (Chain.value (snd entry))) in
  exists indexed others : list (string * Chain.t),
    formatPortfolioBalancesResponse pb
    = report_text
        (OctavPortfolioBalance.address pb)
        (toFixed 2 (StringToNumber (OctavPortfolioBalance.networth pb)))
        match chains with
        | [] => "No data available for chains."
        | _ => join LF (map line (indexed ++ others))
        end
        (protocol_section pb) /\
    Permutation indexed (filter (fun kv => is_array_index (fst kv)) chains) /\
    Sorted index_le indexed /\
    others = filter (fun kv => negb (is_array_index (fst kv))) chains /\
    Permutation chains (indexed ++ others) /\
    ((forall kv, In kv chains -> array_index (fst kv) = None) ->
     (indexed ++ others)%list = chains).
Proof.
  intros pb chains line.
  destruct (Object_entries_order chains)
    as (indexed & others & Hentries & Hperm & Hsorted & Hothers).
  exists indexed, others.
  split; [|split; [exact Hperm|split; [exact Hsorted|split; [exact Hothers|]]]].
  - rewrite report_written_out, chain_section_unfold.
    fold chains. now rewrite Hentries.
  - split.
    + rewrite <- Hentries. apply Object_entries_perm.
    + intros Hno. rewrite <- Hentries. now apply Object_entries_no_index.
Qed.

(** C7, as the specification states it, fails: the chain created second,
    under the key ["1"], is printed first. *)
Lemma chains_not_in_insertion_order :
  map fst (OctavPortfolioBalance.chains reordered_portfolio) = ["base"; "1"] /\
  formatPortfolioBalancesResponse reordered_portfolio
  = report_text example_address "3.00"
      ("Ethereum: $2.00" ++ LF ++ "Base: $1.00")
      "No data available for protocols.".
Proof. split; vm_compute; reflexivity. Qed.

(** ** What the formatter reads *)

Section EntriesOfMappedValues.
Context {A B : Type}.
Variable f : A -> B.

Lemma index_properties_map : forall o : object A,
  index_properties (map (on_value f) o)
  = map (on_indexed f) (index_properties o).
Proof.
  induction o as [|kv t IH]; simpl; [reflexivity|].
  destruct (array_index (fst kv)); simpl; now rewrite IH.
Qed.

Lemma insert_index_map : forall x l,
  insert_index (on_indexed f x) (map (on_indexed f) l)
  = map (on_indexed f) (insert_index x l).
Proof.
  intros x l. induction l as [|y t IH]; simpl; [reflexivity|].
  destruct (fst x <? fst y)%N; simpl; [reflexivity | now rewrite IH].
Qed.

Lemma ascending_map : forall l,
  ascending (map (on_indexed f) l) = map (on_indexed f) (ascending l).
Proof.
  induction l as [|x t IH]; simpl; [reflexivity|].
  now rewrite IH, insert_index_map.
Qed.

Lemma string_properties_map : forall o : object A,
  string_properties (map (on_value f) o)
  = map (on_value f) (string_properties o).
Proof.
  unfold string_properties.
  induction o as [|kv t IH]; simpl; [reflexivity|].
  destruct (is_array_index (fst kv)); simpl; now rewrite IH.
Qed.

(** [Object.entries] looks at the keys only. *)
Lemma Object_entries_map : forall o : object A,
  Object_entries (map (on_value f) o) = map (on_value f) (Object_entries o).
Proof.
  intros o. unfold Object_entries.
  rewrite index_properties_map, ascending_map, string_properties_map.
  rewrite map_app, !map_map. reflexivity.
Qed.
End EntriesOfMappedValues.

Lemma networthPerChain_view : forall pb,
  networthPerChain pb
  = join LF
      (map (fun e => format_line (fst (snd e)) (snd (snd e)))
           (Object_entries (chain_view (OctavPortfolioBalance.chains pb)))).
Proof.
  intros pb. unfold networthPerChain, chain_view.
  rewrite Object_entries_map. now rewrite map_map.
Qed.

Lemma protocol_pairs_view : forall pb,
  protocol_pairs pb
  = map (fun e => NameValue.mk (fst (snd e)) (snd (snd e)))
        (Object_entries
           (protocol_view (OctavPortfolioBalance.assetByProtocols pb))).
Proof.
  intros pb. unfold protocol_pairs, protocol_view.
  rewrite Object_entries_map. now rewrite map_map.
Qed.

(** C9. The formatter is deterministic: its text is a function of the
    fields it reads (the address, the net worth, and the key, name and
    value of every chain and protocol), so two calls on portfolios that
    agree on these fields, and in particular two calls on the same
    portfolio, yield the same text, character for character. *)
Theorem formatPortfolioBalancesResponse_deterministic :
  forall a b : OctavPortfolioBalance.t,
    same_report_fields a b ->
    formatPortfolioBalancesResponse a = formatPortfolioBalancesResponse b.
Proof.
  intros a b (Haddr & Hnet & Hchains & Hprotocols).
  unfold formatPortfolioBalancesResponse, totalNetworthFormatted,
    chain_section, protocol_section, networthProtocolStr, networthPerProtocol.
  rewrite !networthPerChain_view, !protocol_pairs_view.
  now rewrite Haddr, Hnet, Hchains, Hprotocols.
Qed.

(** The same portfolio formatted twice. *)
Lemma formatPortfolioBalancesResponse_twice :
  same_report_fields reordered_portfolio reordered_portfolio /\
  formatPortfolioBalancesResponse reordered_portfolio
  = formatPortfolioBalancesResponse reordered_portfolio.
Proof.
  assert (H : same_report_fields reordered_portfolio reordered_portfolio)
    by (repeat split; reflexivity).
  split; [exact H|].
  exact (formatPortfolioBalancesResponse_deterministic
           reordered_portfolio reordered_portfolio H).
Defined.

(** ** The provider *)

Lemma requests_app : forall tr tr' : trace,
  requests (tr ++ tr')%list = (requests tr ++ requests tr')%list.
Proof. intros. unfold requests. apply flat_map_app. Qed.

Lemma callback_calls_app : forall tr tr' : trace,
  callback_calls (tr ++ tr')%list
  = (callback_calls tr ++ callback_calls tr')%list.
Proof. intros. unfold callback_calls. apply flat_map_app. Qed.

(** The runs of the [try] block, branch by branch. *)
Lemma get_try_missing_key : forall h message tr,
  env_truthy (Host.OCTAV_API_KEY h) = false ->
  octavProvider_get_try h message tr
  = (Throws (new_Error "Octav API not found"), tr).
Proof. intros h message tr H. run_eff. now rewrite H. Qed.

Lemma get_try_no_text : forall h message tr,
  env_truthy (Host.OCTAV_API_KEY h) = true ->
  Content.text (Memory.content message) = None ->
  octavProvider_get_try h message tr
  = (Throws (ErrorObject "TypeError" (Host.undefined_receiver h)), tr).
Proof. intros h message tr H Ht. run_eff. now rewrite H, Ht. Qed.

Lemma get_try_no_address : forall h message text tr,
  env_truthy (Host.OCTAV_API_KEY h) = true ->
  Content.text (Memory.content message) = Some text ->
  match_address text = None ->
  octavProvider_get_try h message tr
  = (Throws (new_Error "Valid ethereum address not found in message"), tr).
Proof. intros h message text tr H Ht Hm. run_eff. now rewrite H, Ht, Hm. Qed.

Lemma get_try_fetch_rejects : forall h message text address e tr,
  env_truthy (Host.OCTAV_API_KEY h) = true ->
  Content.text (Memory.content message) = Some text ->
  match_address text = Some address ->
  Host.fetch h (portfolio_request h address) = inl e ->
  octavProvider_get_try h message tr
  = (Throws e, (tr ++ [Fetched (portfolio_request h address)])%list).
Proof.
  intros h message text address e tr H Ht Hm Hf. run_eff.
  now rewrite H, Ht, Hm, Hf.
Qed.

Lemma get_try_bad_status : forall h message text address response tr,
  env_truthy (Host.OCTAV_API_KEY h) = true ->
  Content.text (Memory.content message) = Some text ->
  match_address text = Some address ->
  Host.fetch h (portfolio_request h address) = inr response ->
  Response.ok response = false ->
  octavProvider_get_try h message tr
  = (Throws (new_Error ("Failed to fetch portfolio balances for "
                          ++ address ++ ": " ++ Response.statusText response)),
     (tr ++ [Fetched (portfolio_request h address)])%list).
Proof.
  intros h message text address response tr H Ht Hm Hf Hok. run_eff.
  now rewrite H, Ht, Hm, Hf, Hok.
Qed.

Lemma get_try_bad_body : forall h message text address response e tr,
  env_truthy (Host.OCTAV_API_KEY h) = true ->
  Content.text (Memory.content message) = Some text ->
  match_address text = Some address ->
  Host.fetch h (portfolio_request h address) = inr response ->
  Response.ok response = true ->
  Response.json response = inl e ->
  octavProvider_get_try h message tr
  = (Throws e, (tr ++ [Fetched (portfolio_request h address)])%list).
Proof.
  intros h message text address response e tr H Ht Hm Hf Hok Hj. run_eff.
  now rewrite H, Ht, Hm, Hf, Hok, Hj.
Qed.

Lemma get_try_success : forall h message text address response data tr,
  env_truthy (Host.OCTAV_API_KEY h) = true ->
  Content.text (Memory.content message) = Some text ->
  match_address text = Some address ->
  Host.fetch h (portfolio_request h address) = inr response ->
  Response.ok response = true ->
  Response.json response = inr data ->
  octavProvider_get_try h message tr
  = (Returns (ProviderResult.mk None None (Some (nth_error data 0))),
     (tr ++ [Fetched (portfolio_request h address)])%list).
Proof.
  intros h message text address response data tr H Ht Hm Hf Hok Hj. run_eff.
  now rewrite H, Ht, Hm, Hf, Hok, Hj.
Qed.

(** What [get] makes of the outcome of its [try] block. *)
Lemma get_of_throw : forall h message tr e tr',
  octavProvider_get_try h message tr = (Throws e, tr') ->
  octavProvider_get h message tr
  = (Returns (ProviderResult.mk
                (Some (if instanceof_Error e then message_of e
                       else "Failed to fetch portfolio balances from Octav"))
                None None),
     (tr' ++ [LoggerError ["Error in Octav provider"; String_of e]])%list).
Proof.
  intros h message tr e tr' H. unfold octavProvider_get, try_catch.
  rewrite H. reflexivity.
Qed.

Lemma get_of_return : forall h message tr r tr',
  octavProvider_get_try h message tr = (Returns r, tr') ->
  octavProvider_get h message tr = (Returns r, tr').
Proof.
  intros h message tr r tr' H. unfold octavProvider_get, try_catch.
  now rewrite H.
Qed.

(** C4. While [OCTAV_API_KEY] is absent (or empty), a call of the
    provider sends no request and returns a result made of the field
    [text] alone, so with no [success] field, whose [text] is the
    configuration error message. *)
Theorem provider_without_api_key : forall h message tr,
  env_truthy (Host.OCTAV_API_KEY h) = false ->
  exists r tr',
    octavProvider_get h message tr = (Returns r, tr') /\
    ProviderResult.text r = Some "Octav API not found" /\
    ProviderResult_fields r = ["text"] /\
    ~ In "success" (ProviderResult_fields r) /\
    requests tr' = requests tr.
Proof.
  intros h message tr H.
  do 2 eexists. split.
  - apply get_of_throw. now apply get_try_missing_key.
  - simpl. repeat split.
    + intros [E|[]]. discriminate E.
    + rewrite requests_app. simpl. apply app_nil_r.
Qed.

(** The provider called on a host that has no key. *)
Lemma provider_without_api_key_witness :
  env_truthy (Host.OCTAV_API_KEY keyless_host) = false /\
  exists r tr',
    octavProvider_get keyless_host example_message [] = (Returns r, tr') /\
    ProviderResult.text r = Some "Octav API not found" /\
    ProviderResult_fields r = ["text"] /\
    ~ In "success" (ProviderResult_fields r) /\
    requests tr' = requests [].
Proof.
  split; [reflexivity|].
  exact (provider_without_api_key keyless_host example_message []
           eq_refl).
Defined.

(** C5. A response with a non-success status makes the fetcher fail with
    an error whose message holds the queried address and the status text
    of the response, and [get] hands that message out as its [text]; with
    a success status the JSON body, an array of portfolio balances, is
    parsed and its element [0] is returned as the [data] of the result. *)
Theorem fetcher_status_and_first_element :
  forall h message text address response tr,
    env_truthy (Host.OCTAV_API_KEY h) = true ->
    Content.text (Memory.content message) = Some text ->
    match_address text = Some address ->
    Host.fetch h (portfolio_request h address) = inr response ->
    (Response.ok response = false ->
     exists msg tr',
       octavProvider_get_try h message tr = (Throws (new_Error msg), tr') /\
       occurs_in address msg /\
       occurs_in (Response.statusText response) msg /\
       fst (octavProvider_get h message tr)
       = Returns (ProviderResult.mk (Some msg) None None)) /\
    (Response.ok response = true ->
     forall data, Response.json response = inr data ->
     exists tr',
       octavProvider_get_try h message tr
       = (Returns (ProviderResult.mk None None (Some (nth_error data 0))),
          tr') /\
       octavProvider_get h message tr
       = (Returns (ProviderResult.mk None None (Some (nth_error data 0))),
          tr')).
Proof.
  intros h message text address response tr H Ht Hm Hf. split.
  - intros Hok.
    pose proof (get_try_bad_status h message text address response tr
                  H Ht Hm Hf Hok) as Hrun.
    do 2 eexists. split; [exact Hrun|]. split; [|split].
    + exists (String.length "Failed to fetch portfolio balances for "),
        "Failed to fetch portfolio balances for ",
        (": " ++ Response.statusText response). now split.
    + exists (String.length ("Failed to fetch portfolio balances for "
                               ++ address ++ ": ")),
        ("Failed to fetch portfolio balances for " ++ address ++ ": "), "".
      split; [|reflexivity].
      now rewrite append_nil_r, !append_assoc.
    + now rewrite (get_of_throw _ _ _ _ _ Hrun).
  - intros Hok data Hj.
    pose proof (get_try_success h message text address response data tr
                  H Ht Hm Hf Hok Hj) as Hrun.
    eexists. split; [exact Hrun | now apply get_of_return].
Qed.

(** The fetcher answered by a 401 response, and by one portfolio. *)
Lemma fetcher_status_and_first_element_witness :
  (exists msg tr',
     octavProvider_get_try (host_answering unauthorized) example_message []
     = (Throws (new_Error msg), tr') /\
     occurs_in example_address msg /\
     occurs_in "Unauthorized" msg /\
     fst (octavProvider_get (host_answering unauthorized) example_message [])
     = Returns (ProviderResult.mk (Some msg) None None)) /\
  (exists tr',
     octavProvider_get_try (host_answering one_portfolio) example_message []
     = (Returns (ProviderResult.mk None None (Some (Some example_portfolio))),
        tr') /\
     octavProvider_get (host_answering one_portfolio) example_message []
     = (Returns (ProviderResult.mk None None (Some (Some example_portfolio))),
        tr')).
Proof.
  split.
  - exact (proj1 (fetcher_status_and_first_element
                    (host_answering unauthorized) example_message
                    ("Can you fetch portfolio balances of " ++ example_address)
                    example_address unauthorized []
                    eq_refl eq_refl eq_refl eq_refl) eq_refl).
  - exact (proj2 (fetcher_status_and_first_element
                    (host_answering one_portfolio) example_message
                    ("Can you fetch portfolio balances of " ++ example_address)
                    example_address one_portfolio []
                    eq_refl eq_refl eq_refl eq_refl) eq_refl
                 [example_portfolio] eq_refl).
Defined.

(** C10. [get] never throws: whatever the key, the message and the
    outcome of the request are, it returns a result. The result holds the
    field [data], and no other, only on the success path (key present,
    address found, success status, body parsed), where [data] is element
    [0] of the parsed array; in every other case the error has been caught
    and the result holds the field [text] and no other. *)
Theorem provider_get_never_throws : forall h message tr,
  exists r tr',
    octavProvider_get h message tr = (Returns r, tr') /\
    (ProviderResult_fields r = ["text"] \/
     (ProviderResult_fields r = ["data"] /\
      exists text address response data,
        env_truthy (Host.OCTAV_API_KEY h) = true /\
        Content.text (Memory.content message) = Some text /\
        match_address text = Some address /\
        Host.fetch h (portfolio_request h address) = inr response /\
        Response.ok response = true /\
        Response.json response = inr data /\
        ProviderResult.data r = Some (nth_error data 0))).
Proof.
  intros h message tr.
  destruct (env_truthy (Host.OCTAV_API_KEY h)) eqn:H.
  2:{ do 2 eexists. split;
        [apply get_of_throw; now apply get_try_missing_key | now left]. }
  destruct (Content.text (Memory.content message)) as [text|] eqn:Ht.
  2:{ do 2 eexists. split;
        [apply get_of_throw; now apply get_try_no_text | now left]. }
  destruct (match_address text) as [address|] eqn:Hm.
  2:{ do 2 eexists. split;
        [apply get_of_throw; now apply (get_try_no_address h message text)
        | now left]. }
  destruct (Host.fetch h (portfolio_request h address)) as [e|response] eqn:Hf.
  { do 2 eexists. split;
      [apply get_of_throw;
       eapply (get_try_fetch_rejects h message text address); eassumption
      | now left]. }
  destruct (Response.ok response) eqn:Hok.
  2:{ do 2 eexists. split;
        [apply get_of_throw;
         now apply (get_try_bad_status h message text address response)
        | now left]. }
  destruct (Response.json response) as [e|data] eqn:Hj.
  { do 2 eexists. split;
      [apply get_of_throw;
       eapply (get_try_bad_body h message text address response);
       eassumption
      | now left]. }
  do 2 eexists. split.
  - apply get_of_return.
    now apply (get_try_success h message text address response data).
  - right. split; [reflexivity|].
    exists text, address, response, data. repeat split; assumption.
Qed.

(** ** The action handler *)

Lemma provider_on_failed_fetch : forall h message underlying tr,
  fetch_fails h message underlying ->
  exists tr',
    octavProvider_get h message tr
    = (Returns (ProviderResult.mk (Some underlying) None None), tr') /\
    callback_calls tr' = callback_calls tr.
Proof.
  intros h message underlying tr Hfail.
  destruct Hfail as [H | text H Ht Hm | text address response H Ht Hm Hf Hok].
  - pose proof (get_of_throw _ _ _ _ _ (get_try_missing_key h message tr H))
      as Hrun.
    eexists. split; [exact Hrun|].
    now rewrite callback_calls_app, app_nil_r.
  - pose proof (get_of_throw _ _ _ _ _
                  (get_try_no_address h message text tr H Ht Hm)) as Hrun.
    eexists. split; [exact Hrun|].
    now rewrite callback_calls_app, app_nil_r.
  - pose proof (get_of_throw _ _ _ _ _
                  (get_try_bad_status h message text address response tr
                     H Ht Hm Hf Hok)) as Hrun.
    eexists. split; [exact Hrun|].
    rewrite !callback_calls_app. simpl. now rewrite !app_nil_r.
Qed.

(** C1, as the code has it. When the portfolio fetch fails (missing API
    key, no address in the text, or a non-success status), the provider
    catches the error and returns the underlying error message as its
    [text]; the handler then returns the failure result
    [{success: false, error: "No data"}], made of these two fields alone,
    and does not call the callback. *)
Theorem handler_on_failed_fetch : forall h message callback underlying tr,
  fetch_fails h message underlying ->
  exists r tr',
    getPortfolioBalancesAction_handler h message callback tr
    = (Returns r, tr') /\
    r = ActionResult.mk None false None None (Some (ErrorString "No data")) /\
    ActionResult_fields r = ["success"; "error"] /\
    callback_calls tr' = callback_calls tr /\
    fst (octavProvider_get h message tr)
    = Returns (ProviderResult.mk (Some underlying) None None).
Proof.
  intros h message callback underlying tr Hfail.
  unfold getPortfolioBalancesAction_handler, handler_try, try_catch, bind,
    emit.
  set (tr0 := (tr ++ [LoggerInfo _])%list).
  destruct (provider_on_failed_fetch h message underlying tr0 Hfail)
    as (tr1 & Hrun & Hcalls).
  rewrite Hrun. simpl.
  do 2 eexists. split; [reflexivity|]. split; [reflexivity|].
  split; [reflexivity|]. split.
  - rewrite Hcalls. unfold tr0. now rewrite callback_calls_app, app_nil_r.
  - destruct (provider_on_failed_fetch h message underlying tr Hfail)
      as (tr2 & Hrun2 & _).
    now rewrite Hrun2.
Qed.

(** The handler on a host whose request is answered by a 401 response. *)
Lemma handler_on_failed_fetch_witness :
  exists r tr',
    getPortfolioBalancesAction_handler
      (host_answering unauthorized) example_message None []
    = (Returns r, tr') /\
    r = ActionResult.mk None false None None (Some (ErrorString "No data")) /\
    ActionResult_fields r = ["success"; "error"] /\
    callback_calls tr' = callback_calls [] /\
    fst (octavProvider_get (host_answering unauthorized) example_message [])
    = Returns (ProviderResult.mk
                 (Some ("Failed to fetch portfolio balances for "
                          ++ example_address ++ ": Unauthorized"))
                 None None).
Proof.
  exact (handler_on_failed_fetch
           (host_answering unauthorized) example_message None _ []
           (bad_status (host_answering unauthorized) example_message
              ("Can you fetch portfolio balances of " ++ example_address)
              example_address unauthorized
              eq_refl eq_refl eq_refl eq_refl eq_refl)).
Defined.

(** C1, as the specification states it, fails: with the API key missing the
    result of the handler has no [text], and its [error] is the fixed
    string, not the message of the fetch. *)
Lemma handler_failure_has_no_text :
  fetch_fails keyless_host example_message "Octav API not found" /\
  fst (getPortfolioBalancesAction_handler keyless_host example_message None [])
  = Returns (ActionResult.mk None false None None
                             (Some (ErrorString "No data"))).
Proof. split; [now constructor | reflexivity]. Qed.

(** ** Two decimal places *)

Lemma list_ascii_of_append : forall a b,
  list_ascii_of_string (a ++ b)
  = (list_ascii_of_string a ++ list_ascii_of_string b)%list.
Proof.
  induction a as [|c a IH]; intros b; simpl; [reflexivity | now rewrite IH].
Qed.

Lemma all_chars_append : forall P a b,
  all_chars P (a ++ b) <-> all_chars P a /\ all_chars P b.
Proof.
  intros P a b. unfold all_chars. rewrite list_ascii_of_append.
  apply Forall_app.
Qed.

Lemma string_of_uint_digits : forall d,
  all_chars decimal_digit (NilEmpty.string_of_uint d).
Proof.
  unfold all_chars, decimal_digit.
  induction d; simpl; constructor; auto; simpl; tauto.
Qed.

Lemma decimal_string_digits : forall n,
  all_chars decimal_digit (decimal_string n).
Proof. intros n. apply string_of_uint_digits. Qed.

Lemma decimal_string_not_empty : forall n, decimal_string n <> "".
Proof.
  intros n. unfold decimal_string.
  destruct (Z.to_N n) as [|p]; simpl; [discriminate|].
  pose proof (Unsigned.to_uint_nonnil p) as H.
  destruct (Pos.to_uint p); [contradiction | discriminate ..].
Qed.

Lemma zeros_digits : forall k, all_chars decimal_digit (zeros k).
Proof.
  unfold all_chars, decimal_digit.
  induction k; simpl; constructor; auto; simpl; tauto.
Qed.

Lemma zeros_length : forall k, String.length (zeros k) = k.
Proof. induction k; simpl; [reflexivity | now rewrite IHk]. Qed.

(** A string cut at position [n]. *)
Lemma substring_cut : forall s n,
  n <= String.length s ->
  s = substring 0 n s ++ substring n (String.length s - n) s /\
  String.length (substring 0 n s) = n.
Proof.
  induction s as [|c s IH]; intros n Hn; simpl in Hn.
  - assert (n = 0) as -> by lia. now split.
  - destruct n as [|n].
    + simpl. split; [|reflexivity]. f_equal.
      clear. induction s as [|c s IH]; simpl; [reflexivity | now f_equal].
    + simpl. destruct (IH n) as [Hs Hl]; [lia|].
      split; [now f_equal | now rewrite Hl].
Qed.

Lemma fixed_digits_two : forall n,
  exists int frac,
    fixed_digits 2 n = int ++ "." ++ frac /\
    int <> "" /\ all_chars decimal_digit int /\
    String.length frac = 2 /\ all_chars decimal_digit frac.
Proof.
  intros n. unfold fixed_digits.
  set (m := decimal_string n).
  set (m' := if (String.length m <=? 2)%nat
             then zeros (2 + 1 - String.length m) ++ m else m).
  assert (Hd : all_chars decimal_digit m') .
  { unfold m'. destruct (String.length m <=? 2)%nat.
    - apply all_chars_append. split;
        [apply zeros_digits | apply decimal_string_digits].
    - apply decimal_string_digits. }
  assert (Hl : 3 <= String.length m').
  { unfold m'. destruct (String.length m <=? 2)%nat eqn:E.
    - apply Nat.leb_le in E. rewrite length_append, zeros_length.
      assert (String.length m <> 0).
      { pose proof (decimal_string_not_empty n) as Hne. fold m in Hne.
        destruct m; [contradiction | discriminate]. }
      lia.
    - apply Nat.leb_gt in E. lia. }
  destruct (substring_cut m' (String.length m' - 2)) as [Hs Hlen]; [lia|].
  replace (String.length m' - (String.length m' - 2)) with 2 in Hs by lia.
  exists (substring 0 (String.length m' - 2) m'),
         (substring (String.length m' - 2) 2 m').
  split; [reflexivity|].
  rewrite Hs in Hd. apply all_chars_append in Hd. destruct Hd as [Hd1 Hd2].
  assert (Hl2 : String.length (substring (String.length m' - 2) 2 m') = 2).
  { apply (f_equal String.length) in Hs. rewrite length_append, Hlen in Hs.
    lia. }
  repeat split; auto.
  intros Hz. rewrite Hz in Hlen. simpl in Hlen. lia.
Qed.

Lemma finite_ge_below : forall s m e,
  below_1e21 (S754_finite s m e) -> finite_ge m e (10 ^ 21) = false.
Proof.
  intros s m e. unfold below_1e21, finite_ge.
  destruct (0 <=? e)%Z; intros H; apply Z.leb_gt; exact H.
Qed.

Lemma toFixed_two_decimals : forall x,
  below_1e21 x -> two_decimals (toFixed 2 x).
Proof.
  intros [s|s| |s m e] H; try contradiction.
  - exists "", "0", "00". repeat split; try (now left); try discriminate;
      unfold all_chars, decimal_digit; simpl; repeat constructor; tauto.
  - unfold toFixed. rewrite (finite_ge_below s m e H).
    destruct (fixed_digits_two (nearest_scaled 2 m e))
      as (int & frac & -> & Hne & Hi & Hl & Hf).
    exists (if s then "-" else ""), int, frac.
    repeat split; auto. destruct s; [now right | now left].
Qed.

Lemma two_decimals_point : forall s,
  two_decimals s -> In "."%char (list_ascii_of_string s).
Proof.
  intros s (sign & int & frac & -> & _).
  rewrite !list_ascii_of_append. apply in_or_app. right.
  apply in_or_app. right. now left.
Qed.

(** C6, as the code has it. The monetary values of the report are the
    net worth, the value of every chain and the value of every protocol;
    each of them goes through [Number(value).toFixed(2)] and is printed
    after a [$]. The result has exactly two decimal places whenever the
    parsed number is finite with a magnitude below [10 ^ 21]. In
    particular the net worth "1234.5" is printed as $1234.50 and "0" as
    $0.00. *)
Theorem monetary_values_two_decimals :
  (forall pb : OctavPortfolioBalance.t,
     let amount := fun value => toFixed 2 (StringToNumber value) in
     let lines := fun (placeholder : string)
                      (entries : list (string * string)) =>
       match entries with
       | [] => placeholder
       | _ => join LF (map (fun e => fst e ++ ": $" ++ amount (snd e)) entries)
       end in
     exists chains protocols : list (string * string),
       Permutation chains
         (map (fun kv => (Chain.name (snd kv), Chain.value (snd kv)))
              (OctavPortfolioBalance.chains pb)) /\
       Permutation protocols
         (map (fun kv => (Protocol.name (snd kv), Protocol.value (snd kv)))
              (OctavPortfolioBalance.assetByProtocols pb)) /\
       formatPortfolioBalancesResponse pb
       = report_text
           (OctavPortfolioBalance.address pb)
           (amount (OctavPortfolioBalance.networth pb))
           (lines "No data available for chains." chains)
           (lines "No data available for protocols." protocols) /\
       Forall (fun value =>
                 below_1e21 (StringToNumber value) ->
                 two_decimals (amount value))
              (OctavPortfolioBalance.networth pb
                 :: map snd chains ++ map snd protocols)) /\
  (forall value : string,
     below_1e21 (StringToNumber value) ->
     two_decimals (toFixed 2 (StringToNumber value))) /\
  (forall address protocols chains,
     let pb := OctavPortfolioBalance.mk address "1234.5" protocols chains in
     formatPortfolioBalancesResponse pb
     = report_text address "1234.50" (chain_section pb)
                   (protocol_section pb)) /\
  (forall address protocols chains,
     let pb := OctavPortfolioBalance.mk address "0" protocols chains in
     formatPortfolioBalancesResponse pb
     = report_text address "0.00" (chain_section pb) (protocol_section pb)).
Proof.
  split; [|split; [intros value; apply toFixed_two_decimals|split]].
  - intros pb amount lines.
    exists (map (fun e => (Chain.name (snd e), Chain.value (snd e)))
                (Object_entries (OctavPortfolioBalance.chains pb))),
           (map (fun p => (NameValue.name p, NameValue.value p))
                (networthPerProtocol pb)).
    split; [|split; [|split]].
    + apply Permutation_map. symmetry. apply Object_entries_perm.
    + assert (Hp : Permutation (networthPerProtocol pb)
                     (map (fun entry =>
                             NameValue.mk (Protocol.name (snd entry))
                                          (Protocol.value (snd entry)))
                          (OctavPortfolioBalance.assetByProtocols pb))).
      { unfold networthPerProtocol.
        rewrite <- (wallet_moved_first_perm _ _ (wallet_first_rule _)).
        rewrite <- Array_sort_perm. unfold protocol_pairs.
        apply Permutation_map. symmetry. apply Object_entries_perm. }
      apply (Permutation_map
               (fun p => (NameValue.name p, NameValue.value p))) in Hp.
      now rewrite map_map in Hp.
    + rewrite report_written_out, chain_section_unfold,
        protocol_section_unfold.
      unfold lines, amount. f_equal.
      * destruct (OctavPortfolioBalance.chains pb) as [|kv t] eqn:E;
          [reflexivity|].
        destruct (Object_entries (kv :: t)) as [|kv' t'] eqn:E'.
        { apply (proj1 (Object_entries_nil _)) in E'. discriminate E'. }
        cbn [map]. now rewrite map_map.
      * destruct (networthPerProtocol pb) as [|p t]; [reflexivity|].
        cbn [map]. now rewrite map_map.
    + apply Forall_forall. intros value _. apply toFixed_two_decimals.
  - intros address protocols chains pb. rewrite report_written_out.
    cbn [OctavPortfolioBalance.address OctavPortfolioBalance.networth pb].
    now replace (toFixed 2 (StringToNumber "1234.5")) with "1234.50"
      by (vm_compute; reflexivity).
  - intros address protocols chains pb. rewrite report_written_out.
    cbn [OctavPortfolioBalance.address OctavPortfolioBalance.networth pb].
    now replace (toFixed 2 (StringToNumber "0")) with "0.00"
      by (vm_compute; reflexivity).
Qed.

(** C6, as the specification states it, fails: a net worth of [10 ^ 21] is
    printed in exponent notation, and a value that is not a number as
    NaN, in the report as well. *)
Lemma large_value_not_two_decimals :
  toFixed 2 (StringToNumber "1000000000000000000000") = "1e+21" /\
  ~ two_decimals "1e+21" /\
  toFixed 2 (StringToNumber "unknown") = "NaN" /\
  ~ two_decimals "NaN" /\
  formatPortfolioBalancesResponse unbounded_portfolio
  = report_text example_address "1e+21" "Ethereum: $NaN"
                "No data available for protocols.".
Proof.
  split; [vm_compute; reflexivity|].
  split; [intros H; apply two_decimals_point in H; simpl in H;
          repeat (destruct H as [H|H]; [discriminate H|]); exact H|].
  split; [vm_compute; reflexivity|].
  split; [|vm_compute; reflexivity].
  intros H; apply two_decimals_point in H; simpl in H;
    repeat (destruct H as [H|H]; [discriminate H|]); exact H.
Qed.

(** ** The request *)

Lemma urlencode_hex : forall c,
  is_hex c = true -> urlencode_char c = String c "".
Proof.
  intros c. destruct c as [[] [] [] [] [] [] [] []]; vm_compute;
    intros H; try discriminate H; reflexivity.
Qed.

Lemma urlencode_hex_string : forall h,
  all_chars hexadecimal h -> urlencode h = h.
Proof.
  unfold all_chars. induction h as [|c h IH]; simpl; intros H;
    [reflexivity|].
  inversion H as [|? ? Hc Hh]; subst.
  rewrite urlencode_hex by (now apply is_hex_spec). simpl.
  now rewrite IH.
Qed.

Lemma urlencode_address : forall a, address_form a -> urlencode a = a.
Proof.
  intros a (h & -> & _ & Hh).
  change (urlencode ("0x" ++ h)) with ("0x" ++ urlencode h).
  now rewrite urlencode_hex_string.
Qed.

(** The request for an address found in a text, written out. *)
Lemma request_written_out : forall h key text address,
  Host.OCTAV_API_KEY h = Some key ->
  match_address text = Some address ->
  portfolio_request h address
  = Request.mk
      ("https://backend-dev-api.octav.fi/v1/portfolio?addresses=" ++ address)
      "GET" [("Authorization", "Bearer " ++ key)].
Proof.
  intros h key text address Hk Hm.
  apply match_address_some in Hm. destruct Hm as (i & Ha & _).
  unfold portfolio_request, URLSearchParams_toString. rewrite Hk. simpl.
  now rewrite (urlencode_address address Ha).
Qed.

(** The address that [match] finds is the first address of the text. *)
Lemma match_address_of_first : forall text a,
  first_address text a -> match_address text = Some a.
Proof.
  intros text a Hf. destruct (match_address text) as [a'|] eqn:Hm.
  - f_equal. eapply first_address_unique; [|exact Hf].
    now apply match_address_some.
  - destruct Hf as (i & Ha & Hi & _).
    now destruct (match_address_none text Hm a i Ha).
Qed.

Lemma match_address_of_none : forall text,
  (forall a, ~ first_address text a) -> match_address text = None.
Proof.
  intros text Hno. destruct (match_address text) as [a|] eqn:Hm;
    [|reflexivity].
  destruct (Hno a). now apply match_address_some.
Qed.

(** The requests of a call of the provider. *)
Lemma provider_request_sent : forall h message text address tr,
  env_truthy (Host.OCTAV_API_KEY h) = true ->
  Content.text (Memory.content message) = Some text ->
  match_address text = Some address ->
  requests (snd (octavProvider_get h message tr))
  = (requests tr ++ [portfolio_request h address])%list.
Proof.
  intros h message text address tr H Ht Hm.
  destruct (Host.fetch h (portfolio_request h address))
    as [e|response] eqn:Hf.
  { rewrite (get_of_throw _ _ _ _ _
               (get_try_fetch_rejects h message text address e tr
                  H Ht Hm Hf)).
    cbn [snd]. rewrite !requests_app. simpl. now rewrite app_nil_r. }
  destruct (Response.ok response) eqn:Hok.
  2:{ rewrite (get_of_throw _ _ _ _ _
                 (get_try_bad_status h message text address response tr
                    H Ht Hm Hf Hok)).
      cbn [snd]. rewrite !requests_app. simpl. now rewrite app_nil_r. }
  destruct (Response.json response) as [e|data] eqn:Hj.
  { rewrite (get_of_throw _ _ _ _ _
               (get_try_bad_body h message text address response e tr
                  H Ht Hm Hf Hok Hj)).
    cbn [snd]. rewrite !requests_app. simpl. now rewrite app_nil_r. }
  rewrite (get_of_return _ _ _ _ _
             (get_try_success h message text address response data tr
                H Ht Hm Hf Hok Hj)).
  cbn [snd]. now rewrite requests_app.
Qed.

Lemma provider_no_request : forall h message tr,
  env_truthy (Host.OCTAV_API_KEY h) = false \/
  Content.text (Memory.content message) = None \/
  (exists text, Content.text (Memory.content message) = Some text /\
                match_address text = None) ->
  requests (snd (octavProvider_get h message tr)) = requests tr.
Proof.
  intros h message tr Hcase.
  destruct (env_truthy (Host.OCTAV_API_KEY h)) eqn:H.
  2:{ rewrite (get_of_throw _ _ _ _ _ (get_try_missing_key h message tr H)).
      cbn [snd]. rewrite requests_app. apply app_nil_r. }
  destruct Hcase as [Hk | [Ht | (text & Ht & Hm)]]; [discriminate Hk | |].
  - rewrite (get_of_throw _ _ _ _ _ (get_try_no_text h message tr H Ht)).
    cbn [snd]. rewrite requests_app. apply app_nil_r.
  - rewrite (get_of_throw _ _ _ _ _
               (get_try_no_address h message text tr H Ht Hm)).
    cbn [snd]. rewrite requests_app. apply app_nil_r.
Qed.

(** The request of the provider. With a key that is set and a text that
    holds an address, a call of the provider sends one request, whatever
    the network answers: a GET of the portfolio endpoint with the first
    address of the text as the [addresses] parameter and the key as
    bearer token. With no key, an empty key, no text, or a text without
    an address, it sends none. *)
Theorem provider_request_of_address : forall h message tr,
  let sent := requests (snd (octavProvider_get h message tr)) in
  (forall key text address,
     Host.OCTAV_API_KEY h = Some key -> key <> "" ->
     Content.text (Memory.content message) = Some text ->
     first_address text address ->
     sent
     = (requests tr
        ++ [Request.mk
              ("https://backend-dev-api.octav.fi/v1/portfolio?addresses="
                 ++ address)%string
              "GET" [("Authorization", ("Bearer " ++ key)%string)]])%list) /\
  (Host.OCTAV_API_KEY h = None \/ Host.OCTAV_API_KEY h = Some "" \/
   Content.text (Memory.content message) = None \/
   (exists text,
      Content.text (Memory.content message) = Some text /\
      forall a, ~ first_address text a) ->
   sent = requests tr).
Proof.
  intros h message tr sent. split.
  - intros key text address Hk Hne Ht Hfirst.
    pose proof (match_address_of_first text address Hfirst) as Hm.
    rewrite <- (request_written_out h key text address Hk Hm).
    apply (provider_request_sent h message text address tr); auto.
    rewrite Hk. destruct key; [contradiction | reflexivity].
  - intros Hcase. apply provider_no_request.
    destruct Hcase as [Hk | [Hk | [Ht | (text & Ht & Hno)]]].
    + left. now rewrite Hk.
    + left. now rewrite Hk.
    + right. now left.
    + right. right. exists text. split; [exact Ht|].
      now apply match_address_of_none.
Qed.

(** The example message on a host whose network is down. *)
Lemma provider_request_of_address_witness :
  requests (snd (octavProvider_get offline_host example_message []))
  = (requests []
     ++ [Request.mk
           ("https://backend-dev-api.octav.fi/v1/portfolio?addresses="
              ++ example_address)%string
           "GET" [("Authorization", ("Bearer " ++ "secret")%string)]])%list.
Proof.
  refine (proj1 (provider_request_of_address offline_host example_message [])
            "secret"
            ("Can you fetch portfolio balances of " ++ example_address)
            example_address eq_refl _ eq_refl _).
  - discriminate.
  - apply match_address_some. reflexivity.
Defined.

(** A call of the provider sends at most one request. *)
Lemma provider_requests : forall h message tr r tr',
  octavProvider_get h message tr = (r, tr') ->
  requests tr' = requests tr \/
  exists request, requests tr' = (requests tr ++ [request])%list.
Proof.
  intros h message tr r tr' Hrun.
  destruct (env_truthy (Host.OCTAV_API_KEY h)) eqn:H.
  2:{ rewrite (get_of_throw _ _ _ _ _ (get_try_missing_key h message tr H))
        in Hrun.
      injection Hrun as _ <-. left. rewrite requests_app. apply app_nil_r. }
  destruct (Content.text (Memory.content message)) as [text|] eqn:Ht.
  2:{ rewrite (get_of_throw _ _ _ _ _ (get_try_no_text h message tr H Ht))
        in Hrun.
      injection Hrun as _ <-. left. rewrite requests_app. apply app_nil_r. }
  destruct (match_address text) as [address|] eqn:Hm.
  2:{ rewrite (get_of_throw _ _ _ _ _
                 (get_try_no_address h message text tr H Ht Hm)) in Hrun.
      injection Hrun as _ <-. left. rewrite requests_app. apply app_nil_r. }
  right. exists (portfolio_request h address).
  destruct (Host.fetch h (portfolio_request h address)) as [e|response] eqn:Hf.
  { rewrite (get_of_throw _ _ _ _ _
               (get_try_fetch_rejects h message text address e tr H Ht Hm Hf))
      in Hrun.
    injection Hrun as _ <-. rewrite !requests_app. simpl.
    now rewrite app_nil_r. }
  destruct (Response.ok response) eqn:Hok.
  2:{ rewrite (get_of_throw _ _ _ _ _
                 (get_try_bad_status h message text address response tr
                    H Ht Hm Hf Hok)) in Hrun.
      injection Hrun as _ <-. rewrite !requests_app. simpl.
      now rewrite app_nil_r. }
  destruct (Response.json response) as [e|data] eqn:Hj.
  { rewrite (get_of_throw _ _ _ _ _
               (get_try_bad_body h message text address response e tr
                  H Ht Hm Hf Hok Hj)) in Hrun.
    injection Hrun as _ <-. rewrite !requests_app. simpl.
    now rewrite app_nil_r. }
  rewrite (get_of_return _ _ _ _ _
             (get_try_success h message text address response data tr
                H Ht Hm Hf Hok Hj)) in Hrun.
  injection Hrun as _ <-. now rewrite requests_app.
Qed.

(** Neither the logger nor the callback sends a request. *)
Lemma when_callback_requests : forall callback content tr r tr',
  when_callback callback content tr = (r, tr') ->
  requests tr' = requests tr.
Proof.
  intros [cb|] content tr r tr'; unfold when_callback, await_callback,
    bind, emit, ret, throw; simpl.
  - destruct (cb content); intros [= _ <-]; rewrite requests_app;
      apply app_nil_r.
  - now intros [= _ <-].
Qed.

(** The [catch] block of the handler sends no request. *)
Lemma handler_catch_requests : forall callback e tr r tr',
  handler_catch callback e tr = (r, tr') -> requests tr' = requests tr.
Proof.
  intros callback e tr r tr'. unfold handler_catch, bind, emit.
  destruct (when_callback callback _ (tr ++ [_])%list) as [o trd] eqn:Hcb.
  apply when_callback_requests in Hcb.
  rewrite requests_app in Hcb. simpl in Hcb. rewrite app_nil_r in Hcb.
  destruct o; intros [= _ <-]; exact Hcb.
Qed.

(** A call of the handler sends at most one request, whatever the
    message, the callback and the outcome are. *)
Theorem handler_at_most_one_request : forall h message callback tr r tr',
  getPortfolioBalancesAction_handler h message callback tr = (r, tr') ->
  List.length (requests tr') <= List.length (requests tr) + 1.
Proof.
  intros h message callback tr r tr'.
  unfold getPortfolioBalancesAction_handler.
  unfold bind at 1. unfold emit at 1.
  set (address := match _ with Some a => a | None => "" end).
  set (tr0 := (tr ++ [LoggerInfo _])%list).
  assert (H0 : requests tr0 = requests tr)
    by (unfold tr0; rewrite requests_app; apply app_nil_r).
  unfold try_catch, handler_try. unfold bind at 1.
  destruct (octavProvider_get h message tr0) as [out tr1] eqn:Hget.
  assert (H1 : List.length (requests tr1) <= List.length (requests tr) + 1).
  { destruct (provider_requests _ _ _ _ _ Hget) as [E | [request E]];
      rewrite E, H0; [lia | rewrite length_app; simpl; lia]. }
  destruct out as [response|e].
  - destruct (ProviderResult.data response) as [[dataTyped|]|].
    + unfold bind, ret.
      destruct (when_callback callback _ tr1) as [o trd] eqn:Hcb.
      apply when_callback_requests in Hcb.
      destruct o as [[]|e].
      * intros [= _ <-]. rewrite Hcb. exact H1.
      * intros Hrun. apply handler_catch_requests in Hrun.
        rewrite Hrun, Hcb. exact H1.
    + unfold ret. intros [= _ <-]. exact H1.
    + unfold ret. intros [= _ <-]. exact H1.
  - intros Hrun. apply handler_catch_requests in Hrun.
    rewrite Hrun. exact H1.
Qed.

(** The requests of the successful scenario. *)
Lemma handler_at_most_one_request_witness :
  List.length
    (requests
       (snd (getPortfolioBalancesAction_handler
               (host_answering one_portfolio) example_message None [])))
  <= List.length (requests []) + 1.
Proof.
  exact (handler_at_most_one_request
           (host_answering one_portfolio) example_message None [] _ _
           (surjective_pairing _)).
Defined.

(** ** The callback *)

(** The provider on the success path, from any trace. *)
Lemma provider_success : forall h message text address response data tr,
  env_truthy (Host.OCTAV_API_KEY h) = true ->
  Content.text (Memory.content message) = Some text ->
  match_address text = Some address ->
  Host.fetch h (portfolio_request h address) = inr response ->
  Response.ok response = true ->
  Response.json response = inr data ->
  octavProvider_get h message tr
  = (Returns (ProviderResult.mk None None (Some (nth_error data 0))),
     (tr ++ [Fetched (portfolio_request h address)])%list).
Proof.
  intros h message text address response data tr H Ht Hm Hf Hok Hj.
  apply get_of_return.
  exact (get_try_success h message text address response data tr
           H Ht Hm Hf Hok Hj).
Qed.

(** An error thrown by the callback on the success path is caught: it is
    logged, the callback is called again with the error message, and when
    that second call resolves the handler returns a failure result that
    carries the message as its [text] and the error object as its
    [error]. When the second call throws as well, the handler itself
    throws. *)
Theorem handler_callback_error :
  forall h message text address response pb rest cb name msg tr,
    env_truthy (Host.OCTAV_API_KEY h) = true ->
    Content.text (Memory.content message) = Some text ->
    match_address text = Some address ->
    Host.fetch h (portfolio_request h address) = inr response ->
    Response.ok response = true ->
    Response.json response = inr (pb :: rest) ->
    (forall content,
       CallbackContent.text content
       = success_text (formatPortfolioBalancesResponse pb) ->
       cb content = Some (ErrorObject name msg)) ->
    (forall again,
       (forall content, CallbackContent.text content = msg ->
                        cb content = again) ->
       fst (getPortfolioBalancesAction_handler h message (Some cb) tr)
       = match again with
         | None =>
             Returns
               (ActionResult.mk
                  (Some ("âŒ " ++ msg)) false None
                  (Some [("actionName", VString "GET_PORTFOLIO");
                         ("error", VString msg)])
                  (Some (ErrorInstance (ErrorObject name msg))))
         | Some e => Throws e
         end).
Proof.
  intros h message text address response pb rest cb name msg tr
         H Ht Hm Hf Hok Hj Hthrow again Hagain.
  unfold getPortfolioBalancesAction_handler, handler_try, handler_catch,
    try_catch.
  unfold bind at 1. unfold emit at 1.
  unfold bind at 1.
  rewrite (provider_success h message text address response (pb :: rest) _
             H Ht Hm Hf Hok Hj).
  cbn [nth_error ProviderResult.data].
  unfold when_callback, await_callback. unfold bind, emit, ret, throw.
  match goal with
  | |- context [cb ?c] => pose proof (Hthrow c eq_refl) as Hc
  end.
  rewrite Hc. clear Hc.
  cbv beta iota zeta. cbn [instanceof_Error message_of].
  match goal with
  | |- context [cb ?c] => pose proof (Hagain c eq_refl) as Hc
  end.
  rewrite Hc.
  now destruct again.
Qed.

(** A callback that throws on everything but its own error message. *)
Lemma handler_callback_error_witness :
  fst (getPortfolioBalancesAction_handler
         (host_answering one_portfolio) example_message
         (Some (fun content =>
                  if String.eqb (CallbackContent.text content) "Callback error"
                  then None
                  else Some (new_Error "Callback error"))) [])
  = Returns
      (ActionResult.mk
         (Some ("âŒ " ++ "Callback error")) false None
         (Some [("actionName", VString "GET_PORTFOLIO");
                ("error", VString "Callback error")])
         (Some (ErrorInstance (new_Error "Callback error")))).
Proof.
  refine (handler_callback_error
            (host_answering one_portfolio) example_message
            ("Can you fetch portfolio balances of " ++ example_address)
            example_address one_portfolio example_portfolio []
            _ "Error" "Callback error" []
            eq_refl eq_refl eq_refl eq_refl eq_refl eq_refl _ None _).
  - intros content ->. reflexivity.
  - intros content ->. reflexivity.
Defined.

(** ** The scenario of the specification *)

(** The message "Can you fetch portfolio balances of 0xEF7F...", answered
    by one portfolio of net worth "500.5" with the chain Ethereum and the
    protocol Wallet: the handler succeeds after one request and its text
    shows the three amounts with two decimals. *)
Lemma handler_end_to_end :
  exists r tr' text,
    getPortfolioBalancesAction_handler
      (host_answering one_portfolio) example_message None []
    = (Returns r, tr') /\
    ActionResult.success r = true /\
    ActionResult.text r = Some text /\
    occurs_in "Total Networth: $500.50" text /\
    occurs_in "Ethereum: $500.50" text /\
    occurs_in "Wallet: $500.50" text /\
    List.length (requests tr') = 1.
Proof.
  do 3 eexists. split; [vm_compute; reflexivity|].
  split; [reflexivity|]. split; [reflexivity|].
  repeat split; try (apply includes_spec; vm_compute; reflexivity).
Qed.

Lemma includes_trans : forall s k p,
  includes k p = true -> includes s k = true -> includes s p = true.
Proof.
  intros s k p Hp Hk. apply includes_spec in Hp, Hk. apply includes_spec.
  destruct Hp as (i & pre & post & -> & _).
  destruct Hk as (j & pre' & post' & -> & _).
  exists (String.length (pre' ++ pre)), (pre' ++ pre), (post ++ post').
  split; [now rewrite !append_assoc | reflexivity].
Qed.

(** Every keyword phrase contains "portfolio", so [validate] accepts
    exactly the messages whose lowercased text contains "portfolio". *)
Lemma validate_iff_portfolio : forall message tr,
  fst (getPortfolioBalancesAction_validate message tr)
  = Returns (includes (lowercased_text message) "portfolio").
Proof.
  intros message tr.
  unfold getPortfolioBalancesAction_validate, bind, emit, ret. cbn [fst].
  f_equal. rewrite validate_content_lowercased.
  set (s := lowercased_text message).
  unfold fetchPortfolioBalancesKeyword. cbn [existsb].
  destruct (includes s "portfolio") eqn:E.
  - now rewrite !orb_true_r.
  - assert (Hk : forall k, includes k "portfolio" = true ->
                           includes s k = false).
    { intros k Hk. destruct (includes s k) eqn:Ek; [|reflexivity].
      rewrite (includes_trans s k "portfolio" Hk Ek) in E. discriminate E. }
    rewrite !Hk by reflexivity. reflexivity.
Qed.

(** ** Number formatting on known values *)

Example toFixed_rounds_the_binary_value :
  map (fun value => toFixed 2 (StringToNumber value))
      ["1.005"; "8.345"; "0.125"; "-0.001"; "-0"; ""; "  12  "; ".5"; "1e3"]
  = ["1.00"; "8.35"; "0.13"; "-0.00"; "0.00"; "0.00"; "12.00"; "0.50";
     "1000.00"].
Proof. vm_compute. reflexivity. Qed.

Example toFixed_leaves_fixed_notation :
  map (fun value => toFixed 2 (StringToNumber value))
      ["999999999999999999999"; "123456789012345678901234567890";
       "1.7976931348623157e308"; "1e400"; "-Infinity"; "12px"; "0x10"]
  = ["1e+21"; "1.2345678901234568e+29"; "1.7976931348623157e+308";
     "Infinity"; "-Infinity"; "NaN"; "16.00"].
Proof. vm_compute. reflexivity. Qed.

Example StringToNumber_nearest_binary64 :
  StringToNumber "0.1" = S754_finite false 7205759403792794 (-56) /\
  StringToNumber "9007199254740993" = S754_finite false 4503599627370496 1 /\
  StringToNumber "5e-324" = S754_finite false 1 (-1074) /\
  StringToNumber "2e-324" = S754_zero false.
Proof. repeat split; vm_compute; reflexivity. Qed.

Example match_address_examples :
  match_address ("send 0x" ++ "00000000000000000000000000000000000000aB"
                   ++ "cd to " ++ example_address)
  = Some ("0x" ++ "00000000000000000000000000000000000000aB") /\
  match_address "0XEF7F2e81EA14538858d962df34eB1bFDa83da395" = None /\
  match_address "0xEF7F2e81EA14538858d962df34eB1bFDa83da39" = None.
Proof. repeat split; vm_compute; reflexivity. Qed.

(** ** Orders on known values *)

Example Object_entries_example :
  map fst (Object_entries
             [("b", 1); ("10", 2); ("2", 3); ("a", 4); ("01", 5);
              ("4294967295", 6); ("0", 7)])
  = ["0"; "2"; "10"; "b"; "a"; "01"; "4294967295"].
Proof. vm_compute. reflexivity. Qed.

Example Array_sort_example :
  map NameValue.name
      (Array_sort by_value_descending
         [NameValue.mk "a" "2"; NameValue.mk "b" "10"; NameValue.mk "c" "2";
          NameValue.mk "d" "2.0"; NameValue.mk "e" "1e1"])
  = ["b"; "e"; "a"; "c"; "d"].
Proof. vm_compute. reflexivity. Qed.

(** ** Protocols of equal value *)

Section StableSort.
Context {A : Type}.
Variable comparefn : A -> A -> number.
Variable f : A -> bool.

(** [comparefn] never asks to swap two elements that [f] selects. *)
Hypothesis selected_stay : forall x y,
  f x = true -> f y = true -> is_positive (comparefn x y) = false.

Lemma sort_insert_filter : forall x l,
  filter f (sort_insert comparefn x l) = filter f (x :: l).
Proof.
  intros x l. induction l as [|y t IH]; [reflexivity|].
  cbn [sort_insert].
  destruct (is_positive (comparefn x y)) eqn:Hxy; [|reflexivity].
  cbn [filter] in *. rewrite IH.
  destruct (f x) eqn:Hx, (f y) eqn:Hy; try reflexivity.
  rewrite (selected_stay x y Hx Hy) in Hxy. discriminate Hxy.
Qed.

Lemma Array_sort_filter : forall l,
  filter f (Array_sort comparefn l) = filter f l.
Proof.
  induction l as [|x t IH]; [reflexivity|].
  cbn [Array_sort]. rewrite sort_insert_filter. cbn [filter].
  now rewrite IH.
Qed.
End StableSort.

Lemma same_number_not_lt : forall a b x,
  same_number a x = true -> same_number b x = true -> ~ number_lt a b.
Proof.
  intros a b x Ha Hb Hlt.
  destruct a as [sa|sa| |sa ma ea], b as [sb|sb| |sb mb eb],
           x as [sx|sx| |sx mx ex];
    try discriminate Ha; try discriminate Hb;
    unfold same_number in Ha, Hb; unfold number_lt in Hlt;
    try (apply Z.eqb_eq in Ha, Hb; lia);
    destruct sa, sb, sx; try discriminate Ha; try discriminate Hb;
    destruct Hlt; discriminate.
Qed.

Lemma same_number_refl : forall a, a <> S754_nan -> same_number a a = true.
Proof.
  intros [s|s| |s m e] H; try (now destruct s); try congruence;
    apply Z.eqb_refl.
Qed.

(** Two numbers of which neither is less than the other are the same. *)
Lemma same_number_of_not_lt : forall a b,
  a <> S754_nan -> b <> S754_nan ->
  ~ number_lt a b -> ~ number_lt b a -> same_number b a = true.
Proof.
  intros a b Ha Hb Hab Hba.
  destruct a as [sa|sa| |sa ma ea], b as [sb|sb| |sb mb eb];
    try congruence; unfold number_lt in Hab, Hba; unfold same_number;
    try (apply Z.eqb_eq; lia);
    try (destruct sa; tauto); try (destruct sb; tauto).
  destruct sa, sb; simpl; try reflexivity; tauto.
Qed.

(** Two entries of the same value are not asked to swap. *)
Lemma has_value_stay : forall x p q,
  has_value x p = true -> has_value x q = true ->
  is_positive (by_value_descending p q) = false.
Proof.
  intros x p q Hp Hq.
  destruct (is_positive (by_value_descending p q)) eqn:E; [|reflexivity].
  apply number_lt_of_sub in E.
  destruct (same_number_not_lt _ _ x Hp Hq E).
Qed.

(** A list of numeric values has one arrangement that is descending and
    keeps the entries of each value in their order. *)
Lemma stable_descending_unique : forall l l',
  Forall numeric l -> Permutation l l' ->
  StronglySorted not_greater l -> StronglySorted not_greater l' ->
  (forall x, filter (has_value x) l = filter (has_value x) l') ->
  l = l'.
Proof.
  induction l as [|p t IH]; intros l' Hn Hperm Hs Hs' Hf.
  - apply Permutation_nil in Hperm. now rewrite Hperm.
  - destruct l' as [|p' t'].
    { symmetry in Hperm. apply Permutation_nil in Hperm. discriminate. }
    inversion Hn as [|? ? Hp Hnt]; subst.
    inversion Hs as [|? ? Hst Hpt]; subst.
    inversion Hs' as [|? ? Hst' Hpt']; subst.
    assert (Hn' : Forall numeric (p' :: t'))
      by (eapply Permutation_Forall; [exact Hperm | exact Hn]).
    inversion Hn' as [|? ? Hp' Hnt']; subst.
    rewrite Forall_forall in Hpt, Hpt'.
    assert (Hpp' : ~ number_lt (StringToNumber (NameValue.value p))
                               (StringToNumber (NameValue.value p'))).
    { assert (Hin : In p' (p :: t))
        by (apply (Permutation_in p' (Permutation_sym Hperm)); now left).
      destruct Hin as [<-|Hin]; [|exact (Hpt p' Hin)].
      intros Hlt. apply (same_number_not_lt _ _ _
                           (same_number_refl _ Hp) (same_number_refl _ Hp)).
      exact Hlt. }
    assert (Hp'p : ~ number_lt (StringToNumber (NameValue.value p'))
                               (StringToNumber (NameValue.value p))).
    { assert (Hin : In p (p' :: t'))
        by (apply (Permutation_in p Hperm); now left).
      destruct Hin as [<-|Hin]; [|exact (Hpt' p Hin)].
      intros Hlt. apply (same_number_not_lt _ _ _
                           (same_number_refl _ Hp') (same_number_refl _ Hp')).
      exact Hlt. }
    pose proof (Hf (StringToNumber (NameValue.value p))) as Hhead.
    cbn [filter] in Hhead.
    assert (E : has_value (StringToNumber (NameValue.value p)) p = true)
      by exact (same_number_refl _ Hp).
    assert (E' : has_value (StringToNumber (NameValue.value p)) p' = true)
      by exact (same_number_of_not_lt _ _ Hp Hp' Hpp' Hp'p).
    rewrite E, E' in Hhead. injection Hhead as <- _.
    f_equal. apply IH; auto.
    + now apply Permutation_cons_inv in Hperm.
    + intros x. specialize (Hf x). cbn [filter] in Hf.
      destruct (has_value x p); [now injection Hf | exact Hf].
Qed.

(** The order of the protocols is fixed by their values and by the
    order of [Object.entries]. When every protocol value parses to a
    number, the sorted list is a rearrangement of the [{name, value}]
    pairs that is descending by value and holds, for each number, the
    entries of that value in the order in which [Object.entries] lists
    them: protocols of equal value keep their order. There is one such
    rearrangement, and the report prints it after the Wallet rule. *)
Theorem protocol_order_determined :
  forall pb : OctavPortfolioBalance.t,
    let pairs :=
      map (fun entry => NameValue.mk (Protocol.name (snd entry))
                                     (Protocol.value (snd entry)))
          (Object_entries (OctavPortfolioBalance.assetByProtocols pb)) in
    let line := fun p =>
      NameValue.name p ++ ": $"
      ++ toFixed 2 (StringToNumber (NameValue.value p)) in
    let stable_descending := fun l =>
      Permutation pairs l /\
      StronglySorted not_greater l /\
      forall x : number,
        filter (has_value x) l = filter (has_value x) pairs in
    Forall numeric pairs ->
    exists sorted shown : list NameValue.t,
      stable_descending sorted /\
      (forall other, stable_descending other -> other = sorted) /\
      wallet_moved_first sorted shown /\
      formatPortfolioBalancesResponse pb
      = report_text
          (OctavPortfolioBalance.address pb)
          (toFixed 2 (StringToNumber (OctavPortfolioBalance.networth pb)))
          (chain_section pb)
          match shown with
          | [] => "No data available for protocols."
          | _ => join LF (map line shown)
          end.
Proof.
  intros pb pairs line stable_descending Hn.
  set (sorted := Array_sort by_value_descending (protocol_pairs pb)).
  assert (Hsd : stable_descending sorted).
  { split; [apply Array_sort_perm|].
    split; [now apply Array_sort_descending|].
    intros x. apply Array_sort_filter. apply has_value_stay. }
  exists sorted, (networthPerProtocol pb).
  split; [exact Hsd|]. split; [|split].
  - intros other (Hperm & Hs & Hf).
    destruct Hsd as (Hperm' & Hs' & Hf').
    symmetry. apply stable_descending_unique; auto.
    + eapply Permutation_Forall; [exact Hperm' | exact Hn].
    + now rewrite <- Hperm'.
    + intros x. now rewrite Hf, Hf'.
  - apply wallet_first_rule.
  - rewrite report_written_out, protocol_section_unfold. reflexivity.
Qed.

(** Four protocols of which three have the value two, written in three
    ways. *)
Lemma protocol_order_determined_witness :
  let pb :=
    OctavPortfolioBalance.mk example_address "16"
      [ ("a", example_protocol "a" "2");
        ("b", example_protocol "b" "10");
        ("c", example_protocol "c" "2.0");
        ("d", example_protocol "d" "2e0") ] [] in
  let pairs :=
    [ NameValue.mk "a" "2"; NameValue.mk "b" "10"; NameValue.mk "c" "2.0";
      NameValue.mk "d" "2e0" ] in
  let line := fun p =>
    NameValue.name p ++ ": $"
    ++ toFixed 2 (StringToNumber (NameValue.value p)) in
  let stable_descending := fun l =>
    Permutation pairs l /\
    StronglySorted not_greater l /\
    forall x : number,
      filter (has_value x) l = filter (has_value x) pairs in
  exists sorted shown : list NameValue.t,
    stable_descending sorted /\
    (forall other, stable_descending other -> other = sorted) /\
    wallet_moved_first sorted shown /\
    formatPortfolioBalancesResponse pb
    = report_text example_address (toFixed 2 (StringToNumber "16"))
        (chain_section pb)
        match shown with
        | [] => "No data available for protocols."
        | _ => join LF (map line shown)
        end.
Proof.
  refine (protocol_order_determined
            (OctavPortfolioBalance.mk example_address "16"
               [ ("a", example_protocol "a" "2");
                 ("b", example_protocol "b" "10");
                 ("c", example_protocol "c" "2.0");
                 ("d", example_protocol "d" "2e0") ] [])
            _).
  repeat constructor; vm_compute; discriminate.
Defined.

(** ** The plugin: [init] and the environment *)

Lemma env_get_set_same : forall name value env,
  env_get name (env_set name value env) = Some value.
Proof.
  intros name value env. induction env as [|kv t IH]; simpl.
  - now rewrite String.eqb_refl.
  - destruct (String.eqb (fst kv) name) eqn:E; simpl; rewrite E;
      [reflexivity | exact IH].
Qed.

Lemma env_get_set_other : forall name name' value env,
  name' <> name ->
  env_get name' (env_set name value env) = env_get name' env.
Proof.
  intros name name' value env Hne. induction env as [|kv t IH]; simpl.
  - destruct (String.eqb name name') eqn:E; [|reflexivity].
    apply String.eqb_eq in E. now subst.
  - destruct (String.eqb (fst kv) name) eqn:E; simpl.
    + apply String.eqb_eq in E. rewrite E.
      destruct (String.eqb name name') eqn:E'; [|reflexivity].
      apply String.eqb_eq in E'. now subst.
    + now rewrite IH.
Qed.

(** Writing a variable back with the value it has changes nothing. *)
Lemma env_set_same : forall name value env,
  env_get name env = Some value -> env_set name value env = env.
Proof.
  intros name value env. induction env as [|kv t IH]; simpl; [discriminate|].
  destruct (String.eqb (fst kv) name) eqn:E.
  - intros [= <-]. now destruct kv.
  - intros H. now rewrite IH.
Qed.

(** The run of [init], by the value of [OCTAV_API_KEY] in [config]. *)
Lemma init_run : forall config env tr,
  octavPlugin_init config env tr
  = let tr0 := (tr ++ [LoggerInfo "Initializing Octav plugin"])%list in
    match config_get "OCTAV_API_KEY" config with
    | Some (ConfigOther issue) =>
        (Throws (new_Error ("Invalid Octav plugin configuration: " ++ issue)),
         env, tr0)
    | Some (ConfigString (String c s)) =>
        (Returns tt, env_set "OCTAV_API_KEY" (String c s) env,
         (tr0 ++ [LoggerInfo "Octav plugin initialized"])%list)
    | _ =>
        (Returns tt, env,
         (tr0 ++ [LoggerInfo "No Octav API key provided";
                  LoggerInfo "Octav plugin initialized"])%list)
    end.
Proof.
  intros config env tr.
  unfold octavPlugin_init, configSchema_parseAsync, OCTAV_API_KEY_transform,
    bind, ret, emit.
  destruct (config_get "OCTAV_API_KEY" config) as [[[|c s]| |issue]|];
    simpl; try reflexivity; now rewrite <- app_assoc.
Qed.

(** A non-empty [OCTAV_API_KEY] of the configuration is stored in the
    environment: [init] resolves, the variable then holds the key, every
    other variable is as before, and the logger has been told of the
    start and of the end of the initialisation, nothing else. *)
Theorem init_stores_api_key : forall config env key tr,
  config_get "OCTAV_API_KEY" config = Some (ConfigString key) ->
  truthy_string key = true ->
  exists env',
    octavPlugin_init config env tr
    = (Returns tt, env',
       (tr ++ [LoggerInfo "Initializing Octav plugin";
               LoggerInfo "Octav plugin initialized"])%list) /\
    env_get "OCTAV_API_KEY" env' = Some key /\
    forall name, name <> "OCTAV_API_KEY" ->
                 env_get name env' = env_get name env.
Proof.
  intros config env key tr Hc Hk.
  exists (env_set "OCTAV_API_KEY" key env). split; [|split].
  - rewrite init_run, Hc. destruct key; [discriminate Hk|].
    cbv zeta. now rewrite <- app_assoc.
  - apply env_get_set_same.
  - intros name Hn. now apply env_get_set_other.
Qed.

(** A configuration with a key and another setting, on an environment
    that holds another variable. *)
Lemma init_stores_api_key_witness :
  exists env',
    octavPlugin_init
      [("LOG_LEVEL", ConfigString "debug");
       ("OCTAV_API_KEY", ConfigString "secret")]
      [("HOME", "/root")] []
    = (Returns tt, env',
       ([] ++ [LoggerInfo "Initializing Octav plugin";
               LoggerInfo "Octav plugin initialized"])%list) /\
    env_get "OCTAV_API_KEY" env' = Some "secret" /\
    forall name, name <> "OCTAV_API_KEY" ->
                 env_get name env' = env_get name [("HOME", "/root")].
Proof.
  exact (init_stores_api_key
           [("LOG_LEVEL", ConfigString "debug");
            ("OCTAV_API_KEY", ConfigString "secret")]
           [("HOME", "/root")] "secret" [] eq_refl eq_refl).
Defined.

(** Without a key in the configuration (the property absent,
    [undefined] or empty) [init] resolves and leaves the environment as it
    was, so a key that the environment already holds is neither removed
    nor emptied; the logger is told that no key was provided. *)
Theorem init_without_api_key : forall config env tr,
  lacks_api_key config ->
  octavPlugin_init config env tr
  = (Returns tt, env,
     (tr ++ [LoggerInfo "Initializing Octav plugin";
             LoggerInfo "No Octav API key provided";
             LoggerInfo "Octav plugin initialized"])%list).
Proof.
  intros config env tr H. rewrite init_run. cbv zeta.
  destruct H as [-> | [-> | ->]]; now rewrite <- app_assoc.
Qed.

(** The empty configuration on an environment that holds a key. *)
Lemma init_without_api_key_witness :
  octavPlugin_init [] [("OCTAV_API_KEY", "secret")] []
  = (Returns tt, [("OCTAV_API_KEY", "secret")],
     ([] ++ [LoggerInfo "Initializing Octav plugin";
             LoggerInfo "No Octav API key provided";
             LoggerInfo "Octav plugin initialized"])%list).
Proof.
  apply init_without_api_key. left. reflexivity.
Defined.

(** A key that is neither a string nor [undefined] makes [init]
    reject with an [Error] whose message is "Invalid Octav plugin
    configuration: " followed by the message of the validation issue; the
    environment is left as it was and the end of the initialisation is
    not logged. *)
Theorem init_invalid_configuration : forall config env issue tr,
  config_get "OCTAV_API_KEY" config = Some (ConfigOther issue) ->
  octavPlugin_init config env tr
  = (Throws (ErrorObject "Error"
               ("Invalid Octav plugin configuration: " ++ issue)),
     env, (tr ++ [LoggerInfo "Initializing Octav plugin"])%list).
Proof.
  intros config env issue tr Hc. rewrite init_run, Hc. reflexivity.
Qed.

(** A number given as key. *)
Lemma init_invalid_configuration_witness :
  octavPlugin_init
    [("OCTAV_API_KEY", ConfigOther "Expected string, received number")]
    [("HOME", "/root")] []
  = (Throws (ErrorObject "Error"
               ("Invalid Octav plugin configuration: "
                  ++ "Expected string, received number")),
     [("HOME", "/root")],
     ([] ++ [LoggerInfo "Initializing Octav plugin"])%list).
Proof.
  exact (init_invalid_configuration
           [("OCTAV_API_KEY", ConfigOther "Expected string, received number")]
           [("HOME", "/root")] "Expected string, received number" []
           eq_refl).
Defined.

(** Whatever the configuration holds, [init] changes no variable of
    the environment but [OCTAV_API_KEY] (the other properties of the
    configuration are not copied), and a key that was set stays set. *)
Theorem init_changes_only_api_key : forall config env tr,
  let env' := snd (fst (octavPlugin_init config env tr)) in
  (forall name, name <> "OCTAV_API_KEY" ->
                env_get name env' = env_get name env) /\
  (env_truthy (env_get "OCTAV_API_KEY" env) = true ->
   env_truthy (env_get "OCTAV_API_KEY" env') = true).
Proof.
  intros config env tr.
  rewrite init_run. cbv zeta.
  destruct (config_get "OCTAV_API_KEY" config) as [[[|c s]| |issue]|];
    cbn [fst snd]; try (now split).
  split.
  - intros name Hn. now apply env_get_set_other.
  - intros _. now rewrite env_get_set_same.
Qed.

(** Initialised with its own default configuration, which was read
    from the environment, the plugin never rejects and leaves the
    environment exactly as it was. *)
Theorem init_default_config : forall env tr,
  exists tr',
    octavPlugin_init (octavPlugin_config env) env tr = (Returns tt, env, tr').
Proof.
  intros env tr. rewrite init_run. cbv zeta.
  unfold octavPlugin_config. cbn [config_get fst snd].
  rewrite String.eqb_refl.
  destruct (env_get "OCTAV_API_KEY" env) as [[|c s]|] eqn:E;
    eexists; try reflexivity.
  now rewrite (env_set_same _ _ _ E).
Qed.

(** [init] followed by the provider: once [init] has run with a
    non-empty key, a call of the provider in the environment it leaves,
    for a message that holds an address, sends one request, for that
    address and with that key as bearer token. *)
Theorem init_then_provider : forall config env key tr h message text address,
  config_get "OCTAV_API_KEY" config = Some (ConfigString key) ->
  truthy_string key = true ->
  Content.text (Memory.content message) = Some text ->
  match_address text = Some address ->
  let env' := snd (fst (octavPlugin_init config env tr)) in
  requests (snd (octavProvider_get (host_in env' h) message []))
  = [Request.mk
       ("https://backend-dev-api.octav.fi/v1/portfolio?addresses=" ++ address)
       "GET" [("Authorization", "Bearer " ++ key)]].
Proof.
  intros config env key tr h message text address Hc Hk Ht Hm env'.
  assert (Hkey : Host.OCTAV_API_KEY (host_in env' h) = Some key).
  { unfold env', host_in. simpl.
    rewrite init_run, Hc. destruct key; [discriminate Hk|].
    cbn [fst snd]. apply env_get_set_same. }
  assert (Htruthy : env_truthy (Host.OCTAV_API_KEY (host_in env' h)) = true).
  { rewrite Hkey. exact Hk. }
  rewrite <- (request_written_out (host_in env' h) key text address
                Hkey Hm).
  set (h' := host_in env' h) in *.
  destruct (Host.fetch h' (portfolio_request h' address))
    as [e|response] eqn:Hf.
  { rewrite (get_of_throw _ _ _ _ _
               (get_try_fetch_rejects h' message text address e []
                  Htruthy Ht Hm Hf)).
    reflexivity. }
  destruct (Response.ok response) eqn:Hok.
  2:{ rewrite (get_of_throw _ _ _ _ _
                 (get_try_bad_status h' message text address response []
                    Htruthy Ht Hm Hf Hok)).
      reflexivity. }
  destruct (Response.json response) as [e|data] eqn:Hj.
  { rewrite (get_of_throw _ _ _ _ _
               (get_try_bad_body h' message text address response e []
                  Htruthy Ht Hm Hf Hok Hj)).
    reflexivity. }
  rewrite (get_of_return _ _ _ _ _
             (get_try_success h' message text address response data []
                Htruthy Ht Hm Hf Hok Hj)).
  reflexivity.
Qed.

(** The example message after an initialisation on an empty environment,
    the network being down. *)
Lemma init_then_provider_witness :
  requests
    (snd (octavProvider_get
            (host_in
               (snd (fst (octavPlugin_init
                            [("OCTAV_API_KEY", ConfigString "k1")] [] [])))
               keyless_host)
            example_message []))
  = [Request.mk
       ("https://backend-dev-api.octav.fi/v1/portfolio?addresses="
          ++ example_address)
       "GET" [("Authorization", "Bearer " ++ "k1")]].
Proof.
  exact (init_then_provider
           [("OCTAV_API_KEY", ConfigString "k1")] [] "k1" [] keyless_host
           example_message
           ("Can you fetch portfolio balances of " ++ example_address)
           example_address eq_refl eq_refl eq_refl eq_refl).
Defined.

(** ** The runs of the handler *)

(** The provider when the fetch yields a portfolio, and when it yields
    none. *)
Lemma provider_of_fetches : forall h message address pb tr,
  fetches h message address pb ->
  octavProvider_get h message tr
  = (Returns (ProviderResult.mk None None (Some (Some pb))),
     (tr ++ [Fetched (portfolio_request h address)])%list).
Proof.
  intros h message address pb tr
         (text & response & rest & H & Ht & Hm & Hf & Hok & Hj).
  exact (provider_success h message text address response (pb :: rest) tr
           H Ht Hm Hf Hok Hj).
Qed.

Lemma provider_of_no_portfolio : forall h message tr,
  no_portfolio h message ->
  exists r evs,
    octavProvider_get h message tr = (Returns r, (tr ++ evs)%list) /\
    (ProviderResult.data r = None \/ ProviderResult.data r = Some None) /\
    callback_calls evs = [] /\
    List.length (requests evs) <= 1.
Proof.
  intros h message tr Hno.
  destruct (env_truthy (Host.OCTAV_API_KEY h)) eqn:H.
  2:{ do 2 eexists. split.
      - apply get_of_throw. now apply get_try_missing_key.
      - simpl. auto. }
  destruct Hno as [H' | Ht | text Ht Hm | text address e Ht Hm Hf
                   | text address response Ht Hm Hf Hok
                   | text address response e Ht Hm Hf Hj
                   | text address response Ht Hm Hf Hj].
  - congruence.
  - do 2 eexists. split.
    + apply get_of_throw. now apply get_try_no_text.
    + simpl. auto.
  - do 2 eexists. split.
    + apply get_of_throw. now apply (get_try_no_address h message text).
    + simpl. auto.
  - do 2 eexists. split.
    + rewrite (get_of_throw _ _ _ _ _
                 (get_try_fetch_rejects h message text address e tr
                    H Ht Hm Hf)).
      rewrite <- app_assoc. reflexivity.
    + simpl. auto.
  - do 2 eexists. split.
    + rewrite (get_of_throw _ _ _ _ _
                 (get_try_bad_status h message text address response tr
                    H Ht Hm Hf Hok)).
      rewrite <- app_assoc. reflexivity.
    + simpl. auto.
  - destruct (Response.ok response) eqn:Hok.
    + do 2 eexists. split.
      * rewrite (get_of_throw _ _ _ _ _
                   (get_try_bad_body h message text address response e tr
                      H Ht Hm Hf Hok Hj)).
        rewrite <- app_assoc. reflexivity.
      * simpl. auto.
    + do 2 eexists. split.
      * rewrite (get_of_throw _ _ _ _ _
                   (get_try_bad_status h message text address response tr
                      H Ht Hm Hf Hok)).
        rewrite <- app_assoc. reflexivity.
      * simpl. auto.
  - destruct (Response.ok response) eqn:Hok.
    + do 2 eexists. split.
      * exact (provider_success h message text address response [] tr
                 H Ht Hm Hf Hok Hj).
      * simpl. auto.
    + do 2 eexists. split.
      * rewrite (get_of_throw _ _ _ _ _
                   (get_try_bad_status h message text address response tr
                      H Ht Hm Hf Hok)).
        rewrite <- app_assoc. reflexivity.
      * simpl. auto.
Qed.

(** Every fetch yields a portfolio or none, never both. *)
Lemma portfolio_or_not : forall h message,
  no_portfolio h message \/ exists address pb, fetches h message address pb.
Proof.
  intros h message.
  destruct (env_truthy (Host.OCTAV_API_KEY h)) eqn:H;
    [|left; now apply without_api_key].
  destruct (Content.text (Memory.content message)) as [text|] eqn:Ht;
    [|left; now apply without_text].
  destruct (match_address text) as [address|] eqn:Hm;
    [|left; now apply (without_address h message text)].
  destruct (Host.fetch h (portfolio_request h address)) as [e|response] eqn:Hf;
    [left; now apply (request_rejected h message text address e)|].
  destruct (Response.ok response) eqn:Hok;
    [|left; now apply (status_not_ok h message text address response)].
  destruct (Response.json response) as [e|[|pb rest]] eqn:Hj.
  - left. now apply (body_not_parsed h message text address response e).
  - left. now apply (body_empty h message text address response).
  - right. exists address, pb, text, response, rest. auto 6.
Qed.

Lemma fetches_not_no_portfolio : forall h message address pb,
  fetches h message address pb -> no_portfolio h message -> False.
Proof.
  intros h message address pb
         (text & response & rest & H & Ht & Hm & Hf & Hok & Hj) Hno.
  destruct Hno as [H' | Ht' | text' Ht' Hm' | text' address' e Ht' Hm' Hf'
                   | text' address' response' Ht' Hm' Hf' Hok'
                   | text' address' response' e Ht' Hm' Hf' Hj'
                   | text' address' response' Ht' Hm' Hf' Hj'];
    congruence.
Qed.

(** The handler when the fetch yields no portfolio. *)
Lemma handler_of_no_portfolio : forall h message callback tr,
  no_portfolio h message ->
  exists evs,
    getPortfolioBalancesAction_handler h message callback tr
    = (Returns no_data_result, (tr ++ evs)%list) /\
    callback_calls evs = [] /\
    List.length (requests evs) <= 1.
Proof.
  intros h message callback tr Hno.
  unfold getPortfolioBalancesAction_handler, handler_try, try_catch.
  unfold bind at 1. unfold emit at 1. unfold bind at 1.
  set (tr0 := (tr ++ [LoggerInfo _])%list).
  destruct (provider_of_no_portfolio h message tr0 Hno)
    as (r & evs & Hrun & Hdata & Hcalls & Hreq).
  rewrite Hrun. unfold tr0. rewrite <- app_assoc.
  eexists. split; [|split].
  - destruct Hdata as [-> | ->]; reflexivity.
  - simpl. exact Hcalls.
  - simpl. exact Hreq.
Qed.

(** The handler when the fetch yields a portfolio: the callback, when
    there is one, is called with the report; when it throws, it is called
    again with the error message, and the handler throws what that second
    call throws. *)
Lemma handler_of_fetches : forall h message address pb callback tr,
  fetches h message address pb ->
  let report := formatPortfolioBalancesResponse pb in
  let tr1 :=
    (tr ++ [LoggerInfo
              ("[GET_PORTFOLIO] - Fetching portfolio balances for address: "
                 ++ address);
            Fetched (portfolio_request h address)])%list in
  getPortfolioBalancesAction_handler h message callback tr
  = match callback with
    | None => (Returns (success_result (Host.now h) address report), tr1)
    | Some cb =>
        match cb (success_content address report) with
        | None =>
            (Returns (success_result (Host.now h) address report),
             (tr1 ++ [CallbackCalled (success_content address report)])%list)
        | Some first =>
            let tr2 :=
              (tr1 ++ [CallbackCalled (success_content address report);
                       LoggerError
                         [("[GET_PORTFOLIO] - Error fetching portfolio balances: "
                             ++ JSON_stringify first)%string];
                       CallbackCalled (error_content first)])%list in
            match cb (error_content first) with
            | None => (Returns (failure_result first), tr2)
            | Some e => (Throws e, tr2)
            end
        end
    end.
Proof.
  intros h message address pb callback tr Hf report tr1.
  pose proof Hf as (text & response & rest & H & Ht & Hm & _).
  unfold getPortfolioBalancesAction_handler, handler_try, try_catch.
  unfold bind at 1. unfold emit at 1. unfold bind at 1.
  rewrite Ht, Hm.
  rewrite (provider_of_fetches h message address pb _ Hf).
  cbn [ProviderResult.data]. fold report.
  rewrite <- app_assoc. cbn [app]. fold tr1.
  destruct callback as [cb|].
  - unfold when_callback, await_callback. unfold bind at 1 2. unfold emit at 1.
    fold (success_content address report).
    destruct (cb (success_content address report)) as [first|] eqn:E1.
    + unfold throw at 1. unfold handler_catch. unfold bind at 1 2.
      unfold emit at 1. unfold when_callback, await_callback.
      unfold bind at 1. unfold emit at 1.
      fold (error_message first). fold (error_content first).
      rewrite <- !app_assoc. cbn [app].
      destruct (cb (error_content first)) as [e|] eqn:E2; reflexivity.
    + reflexivity.
  - reflexivity.
Qed.

(** The example message is answered by the example portfolio. *)
Lemma example_fetches :
  fetches (host_answering one_portfolio) example_message example_address
          example_portfolio.
Proof.
  exists ("Can you fetch portfolio balances of " ++ example_address),
         one_portfolio, [].
  repeat split; reflexivity.
Defined.

(** The success path. When the key is set, the text holds an
    address, and the request is answered with a success status and a
    non-empty array, the handler formats element [0] of the array (the
    other elements are not read), hands the report to the callback, when
    there is one, exactly once, and, the callback having resolved,
    returns [{text, success: true, values, data}] whose [text] is the one
    the callback received and whose [address] is the first address of the
    message, the one the single request was sent for. *)
Theorem handler_success : forall h message address pb callback tr,
  fetches h message address pb ->
  match callback with
  | Some cb =>
      cb (success_content address (formatPortfolioBalancesResponse pb)) = None
  | None => True
  end ->
  let report := formatPortfolioBalancesResponse pb in
  exists r tr',
    getPortfolioBalancesAction_handler h message callback tr
    = (Returns r, tr') /\
    r = success_result (Host.now h) address report /\
    ActionResult.success r = true /\
    ActionResult.text r = Some (success_text report) /\
    ActionResult.error r = None /\
    requests tr' = (requests tr ++ [portfolio_request h address])%list /\
    callback_calls tr'
    = (callback_calls tr
       ++ match callback with
          | Some _ => [success_content address report]
          | None => []
          end)%list.
Proof.
  intros h message address pb callback tr Hf Hcb report. subst report.
  rewrite (handler_of_fetches h message address pb callback tr Hf).
  cbv zeta.
  destruct callback as [cb|].
  - rewrite Hcb.
    do 2 eexists. split; [reflexivity|].
    repeat split.
    + rewrite !requests_app. simpl. now rewrite app_nil_r.
    + rewrite !callback_calls_app. simpl. now rewrite app_nil_r.
  - do 2 eexists. split; [reflexivity|].
    repeat split.
    + rewrite !requests_app. reflexivity.
    + rewrite !callback_calls_app. simpl. reflexivity.
Qed.

(** The example message answered by the example portfolio, with a
    callback that resolves. *)
Lemma handler_success_witness :
  exists r tr',
    getPortfolioBalancesAction_handler
      (host_answering one_portfolio) example_message (Some (fun _ => None)) []
    = (Returns r, tr') /\
    r = success_result 1762156800000 example_address
          (formatPortfolioBalancesResponse example_portfolio) /\
    ActionResult.success r = true /\
    ActionResult.text r
    = Some (success_text (formatPortfolioBalancesResponse example_portfolio)) /\
    ActionResult.error r = None /\
    requests tr'
    = (requests []
       ++ [portfolio_request (host_answering one_portfolio)
                             example_address])%list /\
    callback_calls tr'
    = (callback_calls []
       ++ [success_content example_address
             (formatPortfolioBalancesResponse example_portfolio)])%list.
Proof.
  exact (handler_success
           (host_answering one_portfolio) example_message example_address
           example_portfolio (Some (fun _ => None)) []
           example_fetches eq_refl).
Defined.

(** The "No data" result. When the fetch yields no portfolio (the key
    is missing or empty, the message has no text, the text holds no
    address, the request is rejected, the status is not a success, the
    body cannot be parsed, or the body is an empty array), the handler
    returns [{success: false, error: "No data"}] and the callback is not
    called. *)
Theorem handler_no_data : forall h message callback tr,
  no_portfolio h message ->
  fst (getPortfolioBalancesAction_handler h message callback tr)
  = Returns no_data_result /\
  callback_calls
    (snd (getPortfolioBalancesAction_handler h message callback tr))
  = callback_calls tr.
Proof.
  intros h message callback tr Hno.
  destruct (handler_of_no_portfolio h message callback tr Hno)
    as (evs & Hrun & Hcalls & _).
  rewrite Hrun. split; [reflexivity|].
  cbn [snd]. rewrite callback_calls_app, Hcalls. apply app_nil_r.
Qed.

(** A success status with an empty array as its body, and a callback
    that would throw. *)
Lemma handler_no_data_witness :
  let h := host_answering (Response.mk true "OK" (inr [])) in
  fst (getPortfolioBalancesAction_handler
         h example_message (Some failing_callback) [])
  = Returns no_data_result /\
  callback_calls
    (snd (getPortfolioBalancesAction_handler
            h example_message (Some failing_callback) []))
  = callback_calls [].
Proof.
  exact (handler_no_data
           (host_answering (Response.mk true "OK" (inr []))) example_message
           (Some failing_callback) []
           (body_empty
              (host_answering (Response.mk true "OK" (inr []))) example_message
              ("Can you fetch portfolio balances of " ++ example_address)
              example_address (Response.mk true "OK" (inr []))
              eq_refl eq_refl eq_refl eq_refl)).
Defined.

(** The handler rejects only after the callback has thrown: when a
    call of the handler throws, a callback was given, and the last thing
    the handler did was to call it with a content on which it threw.
    Without a callback, or with one that does not throw, the handler
    returns a result. *)
Theorem handler_rejects_only_from_callback :
  forall h message callback tr e,
    fst (getPortfolioBalancesAction_handler h message callback tr) = Throws e ->
    exists cb content thrown_value before,
      callback = Some cb /\
      cb content = Some thrown_value /\
      snd (getPortfolioBalancesAction_handler h message callback tr)
      = (before ++ [CallbackCalled content])%list.
Proof.
  intros h message callback tr e Hr.
  destruct (portfolio_or_not h message) as [Hno | (address & pb & Hf)].
  - destruct (handler_of_no_portfolio h message callback tr Hno)
      as (evs & Hrun & _).
    rewrite Hrun in Hr. discriminate Hr.
  - rewrite (handler_of_fetches h message address pb callback tr Hf) in *.
    destruct callback as [cb|]; [|discriminate Hr].
    destruct (cb (success_content _ _)) as [first|] eqn:E1;
      [|discriminate Hr].
    destruct (cb (error_content first)) as [e'|] eqn:E2;
      [|discriminate Hr].
    exists cb, (error_content first), e'. eexists.
    split; [reflexivity|]. split; [exact E2|].
    cbn [snd].
    match goal with
    | |- (?t ++ [?a; ?b; ?c])%list = _ => exact (app_assoc t [a; b] [c])
    end.
Qed.

(** A callback that always throws. *)
Lemma handler_rejects_only_from_callback_witness :
  exists cb content thrown_value before,
    Some failing_callback = Some cb /\
    cb content = Some thrown_value /\
    snd (getPortfolioBalancesAction_handler
           (host_answering one_portfolio) example_message
           (Some failing_callback) [])
    = (before ++ [CallbackCalled content])%list.
Proof.
  exact (handler_rejects_only_from_callback
           (host_answering one_portfolio) example_message
           (Some failing_callback) [] (new_Error "Callback error") eq_refl).
Defined.

(** The results of the handler and what the callback was told. A
    result has one of three shapes. The "No data" result: the callback
    was not called. The success result, with the address found in the
    text and a report: the callback, when there is one, was called once,
    with that address and that report, and resolved. The result of the
    [catch] block, for a value that was caught: the last call of the
    callback, when there is one, was made with the message of that value,
    and resolved. A result is successful exactly when it has no [error];
    a successful result has the fields [text], [success], [values] and
    [data]; a failed one has [success] and [error] alone ("No data"), or
    [text], [data] and an [error] that is an [Error] object whose message
    is the one shown in [text]. *)
Theorem handler_result_shape : forall h message callback tr r,
  fst (getPortfolioBalancesAction_handler h message callback tr) = Returns r ->
  let calls :=
    callback_calls
      (snd (getPortfolioBalancesAction_handler h message callback tr)) in
  ((r = no_data_result /\ calls = callback_calls tr) \/
   (exists text address report,
      Content.text (Memory.content message) = Some text /\
      match_address text = Some address /\
      r = success_result (Host.now h) address report /\
      match callback with
      | Some cb =>
          calls = (callback_calls tr ++ [success_content address report])%list
          /\ cb (success_content address report) = None
      | None => calls = callback_calls tr
      end) \/
   (exists caught,
      r = failure_result caught /\
      match callback with
      | Some cb =>
          (exists before,
             calls = (callback_calls tr ++ before
                      ++ [error_content caught])%list)
          /\ cb (error_content caught) = None
      | None => True
      end)) /\
  (ActionResult.success r = true <-> ActionResult.error r = None) /\
  (ActionResult.success r = true ->
   ActionResult_fields r = ["text"; "success"; "values"; "data"]) /\
  (ActionResult.success r = false ->
   ActionResult_fields r = ["success"; "error"] \/
   (ActionResult_fields r = ["text"; "success"; "data"; "error"] /\
    exists e, ActionResult.error r = Some (ErrorInstance e) /\
              instanceof_Error e = true /\
              ActionResult.text r = Some ("âŒ " ++ message_of e))).
Proof.
  intros h message callback tr r Hr calls.
  assert (Hshape :
    (r = no_data_result /\ calls = callback_calls tr) \/
    (exists text address report,
       Content.text (Memory.content message) = Some text /\
       match_address text = Some address /\
       r = success_result (Host.now h) address report /\
       match callback with
       | Some cb =>
           calls = (callback_calls tr ++ [success_content address report])%list
           /\ cb (success_content address report) = None
       | None => calls = callback_calls tr
       end) \/
    (exists caught,
       r = failure_result caught /\
       match callback with
       | Some cb =>
           (exists before,
              calls = (callback_calls tr ++ before
                       ++ [error_content caught])%list)
           /\ cb (error_content caught) = None
       | None => True
       end)).
  { subst calls.
    destruct (portfolio_or_not h message) as [Hno | (address & pb & Hf)].
    - destruct (handler_of_no_portfolio h message callback tr Hno)
        as (evs & Hrun & Hcalls & _).
      rewrite Hrun in *. injection Hr as <-. left. split; [reflexivity|].
      cbn [snd]. rewrite callback_calls_app, Hcalls. apply app_nil_r.
    - pose proof Hf as (text & response & rest & _ & Ht & Hm & _).
      rewrite (handler_of_fetches h message address pb callback tr Hf) in *.
      destruct callback as [cb|].
      + destruct (cb (success_content _ _)) as [first|] eqn:E1.
        * destruct (cb (error_content first)) eqn:E2; [discriminate Hr|].
          injection Hr as <-. right. right. exists first.
          split; [reflexivity|]. split; [|exact E2].
          eexists [_]. cbn [snd]. rewrite !callback_calls_app.
          simpl. now rewrite app_nil_r.
        * injection Hr as <-. right. left.
          exists text, address, (formatPortfolioBalancesResponse pb).
          repeat split; auto.
          cbn [snd]. rewrite !callback_calls_app. simpl.
          now rewrite app_nil_r.
      + injection Hr as <-. right. left.
        exists text, address, (formatPortfolioBalancesResponse pb).
        repeat split; auto.
        cbn [snd]. rewrite !callback_calls_app. simpl.
        now rewrite app_nil_r. }
  split; [exact Hshape|].
  assert (Hr' : r = no_data_result \/
                (exists address report,
                   r = success_result (Host.now h) address report) \/
                (exists e, r = failure_result e)).
  { destruct Hshape as [[-> _] | [(text & address & report & _ & _ & -> & _)
                                 | (caught & -> & _)]]; eauto. }
  clear Hshape Hr. split; [|split].
  - destruct Hr' as [-> | [(address & report & ->) | (e & ->)]];
      simpl; split; intros H; try discriminate H; reflexivity.
  - destruct Hr' as [-> | [(address & report & ->) | (e & ->)]];
      simpl; intros H; try discriminate H; reflexivity.
  - destruct Hr' as [-> | [(address & report & ->) | (e & ->)]];
      simpl; intros H; try discriminate H.
    + left. reflexivity.
    + right. split; [reflexivity|].
      eexists. split; [reflexivity|].
      unfold error_message. destruct e; simpl; auto.
Qed.

(** The result of the example scenario, without a callback. *)
Lemma handler_result_shape_witness :
  let h := host_answering one_portfolio in
  let callback : option HandlerCallback := None in
  let r := success_result 1762156800000 example_address
             (formatPortfolioBalancesResponse example_portfolio) in
  let calls :=
    callback_calls
      (snd (getPortfolioBalancesAction_handler h example_message callback
              [])) in
  ((r = no_data_result /\ calls = callback_calls []) \/
   (exists text address report,
      Content.text (Memory.content example_message) = Some text /\
      match_address text = Some address /\
      r = success_result (Host.now h) address report /\
      match callback with
      | Some cb =>
          calls = (callback_calls [] ++ [success_content address report])%list
          /\ cb (success_content address report) = None
      | None => calls = callback_calls []
      end) \/
   (exists caught,
      r = failure_result caught /\
      match callback with
      | Some cb =>
          (exists before,
             calls = (callback_calls [] ++ before
                      ++ [error_content caught])%list)
          /\ cb (error_content caught) = None
      | None => True
      end)) /\
  (ActionResult.success r = true <-> ActionResult.error r = None) /\
  (ActionResult.success r = true ->
   ActionResult_fields r = ["text"; "success"; "values"; "data"]) /\
  (ActionResult.success r = false ->
   ActionResult_fields r = ["success"; "error"] \/
   (ActionResult_fields r = ["text"; "success"; "data"; "error"] /\
    exists e, ActionResult.error r = Some (ErrorInstance e) /\
              instanceof_Error e = true /\
              ActionResult.text r = Some ("âŒ " ++ message_of e))).
Proof.
  exact (handler_result_shape
           (host_answering one_portfolio) example_message None [] _ eq_refl).
Defined.

(** The calls of the callback. A call of the handler calls the callback
    at most twice, and never when none is given; it calls it a second
    time only after the first call has thrown. *)
Theorem handler_at_most_two_callback_calls :
  forall h message callback tr,
    exists calls,
      callback_calls
        (snd (getPortfolioBalancesAction_handler h message callback tr))
      = (callback_calls tr ++ calls)%list /\
      List.length calls <= 2 /\
      (callback = None -> calls = []) /\
      (forall first second, calls = [first; second] ->
         exists cb thrown_value,
           callback = Some cb /\ cb first = Some thrown_value).
Proof.
  intros h message callback tr.
  destruct (portfolio_or_not h message) as [Hno | (address & pb & Hf)].
  - destruct (handler_of_no_portfolio h message callback tr Hno)
      as (evs & Hrun & Hcalls & _).
    exists []. rewrite Hrun. cbn [snd].
    rewrite callback_calls_app, Hcalls.
    repeat split; [simpl; lia | discriminate].
  - rewrite (handler_of_fetches h message address pb callback tr Hf).
    destruct callback as [cb|].
    + destruct (cb (success_content _ _)) as [thrown_value|] eqn:E1.
      * exists [success_content address (formatPortfolioBalancesResponse pb);
                error_content thrown_value].
        split; [|split; [simpl; lia|split; [discriminate|]]].
        -- destruct (cb (error_content thrown_value)); cbn [snd];
             rewrite !callback_calls_app; simpl; now rewrite app_nil_r.
        -- intros first second [= <- <-]. now exists cb, thrown_value.
      * exists [success_content address (formatPortfolioBalancesResponse pb)].
        split; [|split; [simpl; lia|split; discriminate]].
        cbn [snd]. rewrite !callback_calls_app. simpl. now rewrite app_nil_r.
    + exists []. cbn [snd]. rewrite !callback_calls_app. simpl.
      repeat split; [simpl; lia | discriminate].
Qed.

(** ** The provider on a failed request *)

(** When the request is rejected (the network fails) or the body of
    a successful response cannot be parsed, the provider has sent its one
    request, logs the error once, and returns [{text}]: the message of
    the thrown value when it is an [Error], and the fixed text "Failed to
    fetch portfolio balances from Octav" when it is anything else. *)
Theorem provider_on_rejected_request :
  forall h message text address e tr,
    env_truthy (Host.OCTAV_API_KEY h) = true ->
    Content.text (Memory.content message) = Some text ->
    match_address text = Some address ->
    (Host.fetch h (portfolio_request h address) = inl e \/
     exists response,
       Host.fetch h (portfolio_request h address) = inr response /\
       Response.ok response = true /\
       Response.json response = inl e) ->
    octavProvider_get h message tr
    = (Returns
         (ProviderResult.mk
            (Some match e with
                  | ErrorObject _ message => message
                  | NonError _ _ =>
                      "Failed to fetch portfolio balances from Octav"
                  end)
            None None),
       (tr ++ [Fetched (portfolio_request h address);
               LoggerError ["Error in Octav provider"; String_of e]])%list).
Proof.
  intros h message text address e tr H Ht Hm [Hf | (response & Hf & Hok & Hj)].
  - rewrite (get_of_throw _ _ _ _ _
               (get_try_fetch_rejects h message text address e tr H Ht Hm Hf)).
    rewrite <- app_assoc. now destruct e.
  - rewrite (get_of_throw _ _ _ _ _
               (get_try_bad_body h message text address response e tr
                  H Ht Hm Hf Hok Hj)).
    rewrite <- app_assoc. now destruct e.
Qed.

(** The example message while the network is down. *)
Lemma provider_on_rejected_request_witness :
  octavProvider_get offline_host example_message []
  = (Returns (ProviderResult.mk (Some "fetch failed") None None),
     ([] ++ [Fetched (portfolio_request offline_host example_address);
             LoggerError
               ["Error in Octav provider";
                String_of (ErrorObject "TypeError" "fetch failed")]])%list).
Proof.
  exact (provider_on_rejected_request
           offline_host example_message
           ("Can you fetch portfolio balances of " ++ example_address)
           example_address (ErrorObject "TypeError" "fetch failed") []
           eq_refl eq_refl eq_refl (or_introl eq_refl)).
Defined.

(** ** The API key *)

Lemma without_requests_app : forall tr tr' : trace,
  without_requests (tr ++ tr')%list
  = (without_requests tr ++ without_requests tr')%list.
Proof. intros. unfold without_requests. apply filter_app. Qed.

(** The provider on two hosts that differ by the value of the key. *)
Lemma provider_same_answer : forall h1 h2 message tr,
  env_truthy (Host.OCTAV_API_KEY h1) = true ->
  env_truthy (Host.OCTAV_API_KEY h2) = true ->
  Host.undefined_receiver h1 = Host.undefined_receiver h2 ->
  (forall address,
     Host.fetch h1 (portfolio_request h1 address)
     = Host.fetch h2 (portfolio_request h2 address)) ->
  exists r evs1 evs2,
    octavProvider_get h1 message tr = (Returns r, (tr ++ evs1)%list) /\
    octavProvider_get h2 message tr = (Returns r, (tr ++ evs2)%list) /\
    without_requests evs1 = without_requests evs2.
Proof.
  intros h1 h2 message tr H1 H2 Hur Hfetch.
  destruct (Content.text (Memory.content message)) as [text|] eqn:Ht.
  2:{ exists (ProviderResult.mk (Some (Host.undefined_receiver h1)) None None),
             [LoggerError ["Error in Octav provider";
                           String_of (ErrorObject "TypeError"
                                        (Host.undefined_receiver h1))]],
             [LoggerError ["Error in Octav provider";
                           String_of (ErrorObject "TypeError"
                                        (Host.undefined_receiver h1))]].
      split; [|split].
      - apply (get_of_throw h1 message tr
                 (ErrorObject "TypeError" (Host.undefined_receiver h1))).
        now apply get_try_no_text.
      - rewrite Hur.
        apply (get_of_throw h2 message tr
                 (ErrorObject "TypeError" (Host.undefined_receiver h2))).
        now apply get_try_no_text.
      - reflexivity. }
  destruct (match_address text) as [address|] eqn:Hm.
  2:{ do 3 eexists. split; [|split].
      - apply get_of_throw. now apply (get_try_no_address h1 message text).
      - apply get_of_throw. now apply (get_try_no_address h2 message text).
      - reflexivity. }
  pose proof (Hfetch address) as Hf.
  destruct (Host.fetch h1 (portfolio_request h1 address))
    as [e|response] eqn:Hf1; symmetry in Hf.
  { do 3 eexists. split; [|split].
    - rewrite (get_of_throw _ _ _ _ _
                 (get_try_fetch_rejects h1 message text address e tr
                    H1 Ht Hm Hf1)).
      rewrite <- app_assoc. reflexivity.
    - rewrite (get_of_throw _ _ _ _ _
                 (get_try_fetch_rejects h2 message text address e tr
                    H2 Ht Hm Hf)).
      rewrite <- app_assoc. reflexivity.
    - reflexivity. }
  destruct (Response.ok response) eqn:Hok.
  2:{ do 3 eexists. split; [|split].
      - rewrite (get_of_throw _ _ _ _ _
                   (get_try_bad_status h1 message text address response tr
                      H1 Ht Hm Hf1 Hok)).
        rewrite <- app_assoc. reflexivity.
      - rewrite (get_of_throw _ _ _ _ _
                   (get_try_bad_status h2 message text address response tr
                      H2 Ht Hm Hf Hok)).
        rewrite <- app_assoc. reflexivity.
      - reflexivity. }
  destruct (Response.json response) as [e|data] eqn:Hj.
  { do 3 eexists. split; [|split].
    - rewrite (get_of_throw _ _ _ _ _
                 (get_try_bad_body h1 message text address response e tr
                    H1 Ht Hm Hf1 Hok Hj)).
      rewrite <- app_assoc. reflexivity.
    - rewrite (get_of_throw _ _ _ _ _
                 (get_try_bad_body h2 message text address response e tr
                    H2 Ht Hm Hf Hok Hj)).
      rewrite <- app_assoc. reflexivity.
    - reflexivity. }
  do 3 eexists. split; [|split].
  - exact (provider_success h1 message text address response data tr
             H1 Ht Hm Hf1 Hok Hj).
  - exact (provider_success h2 message text address response data tr
             H2 Ht Hm Hf Hok Hj).
  - reflexivity.
Qed.


(** The handler around its call of the provider. *)
Lemma handler_around_provider : forall h message callback tr,
  getPortfolioBalancesAction_handler h message callback tr
  = let address :=
      match match Content.text (Memory.content message) with
            | Some text => match_address text
            | None => None
            end with
      | Some a => a
      | None => ""
      end in
    match octavProvider_get h message
            (tr ++ [LoggerInfo
                      ("[GET_PORTFOLIO] - Fetching portfolio balances for address: "
                         ++ address)])%list with
    | (Returns response, tr1) =>
        match ProviderResult.data response with
        | Some (Some pb) =>
            let report := formatPortfolioBalancesResponse pb in
            try_catch
              (bind (when_callback callback (success_content address report))
                    (fun _ => ret (success_result (Host.now h) address report)))
              (handler_catch callback) tr1
        | _ => (Returns no_data_result, tr1)
        end
    | (Throws e, tr1) => handler_catch callback e tr1
    end.
Proof.
  intros h message callback tr.
  unfold getPortfolioBalancesAction_handler, handler_try.
  unfold bind at 1. unfold emit at 1. unfold try_catch at 1. unfold bind at 1.
  cbv zeta.
  destruct (octavProvider_get h message _) as [[response|e] tr1];
    [|reflexivity].
  destruct (ProviderResult.data response) as [[pb|]|]; reflexivity.
Qed.

(** The value of the API key stays between the plugin and the
    upstream: on two hosts that differ by the (non-empty) key alone, and
    whose network answers the requests of the plugin alike, the handler
    gives the same outcome, hands the same contents to the callback and
    logs the same lines; the key is read for the [Authorization] header of
    the request and for nothing else. *)
Theorem api_key_confidential : forall h1 h2 message callback tr,
  env_truthy (Host.OCTAV_API_KEY h1) = true ->
  env_truthy (Host.OCTAV_API_KEY h2) = true ->
  Host.now h1 = Host.now h2 ->
  Host.undefined_receiver h1 = Host.undefined_receiver h2 ->
  (forall address,
     Host.fetch h1 (portfolio_request h1 address)
     = Host.fetch h2 (portfolio_request h2 address)) ->
  fst (getPortfolioBalancesAction_handler h1 message callback tr)
  = fst (getPortfolioBalancesAction_handler h2 message callback tr) /\
  without_requests
    (snd (getPortfolioBalancesAction_handler h1 message callback tr))
  = without_requests
      (snd (getPortfolioBalancesAction_handler h2 message callback tr)).
Proof.
  intros h1 h2 message callback tr H1 H2 Hnow Hur Hfetch.
  rewrite !handler_around_provider. cbv zeta.
  set (tr0 := (tr ++ [LoggerInfo _])%list).
  destruct (provider_same_answer h1 h2 message tr0 H1 H2 Hur Hfetch)
    as (r & evs1 & evs2 & -> & -> & Hevs).
  assert (Htr : without_requests (tr0 ++ evs1)%list
                = without_requests (tr0 ++ evs2)%list)
    by (rewrite !without_requests_app; now rewrite Hevs).
  rewrite <- Hnow.
  destruct (ProviderResult.data r) as [[pb|]|]; [|now split..].
  unfold try_catch, when_callback, await_callback, handler_catch,
    bind, emit, ret, throw.
  destruct callback as [cb|]; [|now split].
  destruct (cb _) as [first|]; cbv beta iota zeta.
  - unfold when_callback, await_callback, bind, emit, ret, throw.
    destruct (cb _); cbv beta iota zeta; split; try reflexivity;
      cbn [snd]; rewrite !without_requests_app; now rewrite Hevs.
  - split; [reflexivity|]. cbn [snd].
    rewrite !without_requests_app. now rewrite Hevs.
Qed.

(** Two hosts with the keys "secret" and "other". *)
Lemma api_key_confidential_witness :
  let h2 := Host.mk (Some "other") (fun _ => inr one_portfolio)
                    1762156800000 "undefined is not an object" in
  fst (getPortfolioBalancesAction_handler
         (host_answering one_portfolio) example_message None [])
  = fst (getPortfolioBalancesAction_handler h2 example_message None []) /\
  without_requests
    (snd (getPortfolioBalancesAction_handler
            (host_answering one_portfolio) example_message None []))
  = without_requests
      (snd (getPortfolioBalancesAction_handler h2 example_message None [])).
Proof.
  exact (api_key_confidential
           (host_answering one_portfolio)
           (Host.mk (Some "other") (fun _ => inr one_portfolio)
                    1762156800000 "undefined is not an object")
           example_message None []
           eq_refl eq_refl eq_refl eq_refl (fun _ => eq_refl)).
Defined.

(** ** Validation and the surrounding text *)

Lemma toLowerCase_append : forall a b,
  toLowerCase (a ++ b) = toLowerCase a ++ toLowerCase b.
Proof.
  induction a as [|c a IH]; intros b; simpl; [reflexivity | now rewrite IH].
Qed.

(** Validation looks for a keyword anywhere in the text: a text that
    is accepted stays accepted whatever is written before and after
    it. *)
Theorem validate_monotone : forall message message' text pre post tr tr',
  Content.text (Memory.content message) = Some text ->
  Content.text (Memory.content message') = Some (pre ++ text ++ post) ->
  fst (getPortfolioBalancesAction_validate message tr) = Returns true ->
  fst (getPortfolioBalancesAction_validate message' tr') = Returns true.
Proof.
  intros message message' text pre post tr tr' Ht Ht'.
  unfold getPortfolioBalancesAction_validate, bind, emit, ret. cbn [fst].
  rewrite !validate_content_lowercased. unfold lowercased_text.
  rewrite Ht, Ht'.
  assert (Hmono : forall k,
             includes (toLowerCase text) k = true ->
             includes (toLowerCase (pre ++ text ++ post)) k = true).
  { intros k Hk.
    apply includes_spec in Hk. destruct Hk as (i & pre' & post' & Hs & _).
    apply includes_spec.
    rewrite !toLowerCase_append, Hs.
    exists (String.length (toLowerCase pre ++ pre')),
           (toLowerCase pre ++ pre'), (post' ++ toLowerCase post).
    split; [now rewrite !append_assoc | reflexivity]. }
  unfold fetchPortfolioBalancesKeyword. cbn [existsb].
  intros [= H]. f_equal.
  rewrite !orb_true_iff in H. rewrite !orb_true_iff.
  intuition auto.
Qed.

(** The word "portfolio" alone, and inside the example message. *)
Lemma validate_monotone_witness :
  fst (getPortfolioBalancesAction_validate example_message []) = Returns true.
Proof.
  exact (validate_monotone
           (Memory.mk (Content.mk (Some "portfolio"))) example_message
           "portfolio" "Can you fetch "
           (" balances of " ++ example_address) [] []
           eq_refl eq_refl eq_refl).
Defined.

(** ** The amounts printed *)

Lemma digits_value_app : forall l1 l2 acc,
  digits_value acc (l1 ++ l2)%list = digits_value (digits_value acc l1) l2.
Proof.
  induction l1 as [|c l1 IH]; intros l2 acc; simpl; [reflexivity | apply IH].
Qed.

Lemma digits_value_zeros : forall k,
  digits_value 0 (list_ascii_of_string (zeros k)) = 0%N.
Proof. induction k as [|k IH]; simpl; [reflexivity | exact IH]. Qed.

(** The digits of a decimal numeral, read back. *)
Lemma digits_value_uint : forall d acc,
  digits_value acc (list_ascii_of_string (NilEmpty.string_of_uint d))
  = (acc * 10 ^ Unsigned.usize d + Pos.of_uint d)%N.
Proof.
  assert (Hcons : forall (f : Decimal.uint -> Decimal.uint) k d,
            (forall d', Decimal.revapp (f d) d' = Decimal.revapp d (f d')) ->
            Unsigned.of_lu (f Decimal.Nil) = k ->
            (Unsigned.of_lu (Decimal.rev (f d))
             = k * 10 ^ Unsigned.usize d + Unsigned.of_lu (Decimal.rev d))%N).
  { intros f k d Hf Hk. unfold Decimal.rev at 1. rewrite Hf.
    rewrite Unsigned.of_lu_revapp, Hk. apply N.add_comm. }
  induction d as [|d IH|d IH|d IH|d IH|d IH|d IH|d IH|d IH|d IH|d IH];
    intros acc;
    [ simpl; lia | .. ];
    simpl NilEmpty.string_of_uint; simpl list_ascii_of_string;
    cbn [digits_value]; rewrite IH; simpl Unsigned.usize;
    rewrite N.pow_succ_r', !Unsigned.of_uint_alt;
    [ rewrite (Hcons Decimal.D0 0%N) by reflexivity
    | rewrite (Hcons Decimal.D1 1%N) by reflexivity
    | rewrite (Hcons Decimal.D2 2%N) by reflexivity
    | rewrite (Hcons Decimal.D3 3%N) by reflexivity
    | rewrite (Hcons Decimal.D4 4%N) by reflexivity
    | rewrite (Hcons Decimal.D5 5%N) by reflexivity
    | rewrite (Hcons Decimal.D6 6%N) by reflexivity
    | rewrite (Hcons Decimal.D7 7%N) by reflexivity
    | rewrite (Hcons Decimal.D8 8%N) by reflexivity
    | rewrite (Hcons Decimal.D9 9%N) by reflexivity ];
    unfold digit_val, code; simpl N_of_ascii; simpl (_ - 48)%N; ring.
Qed.

Lemma digits_value_decimal_string : forall n,
  (0 <= n)%Z ->
  Z.of_N (digits_value 0 (list_ascii_of_string (decimal_string n))) = n.
Proof.
  intros n Hn. unfold decimal_string. rewrite digits_value_uint.
  rewrite N.mul_0_l, N.add_0_l.
  rewrite <- (Z2N.id n Hn) at 2. f_equal.
  destruct (Z.to_N n) as [|p]; [reflexivity|].
  exact (Unsigned.of_to p).
Qed.

Lemma fixed_digits_hundredths : forall n,
  (0 <= n)%Z ->
  exists int frac,
    fixed_digits 2 n = int ++ "." ++ frac /\
    String.length frac = 2 /\
    hundredths int frac = n.
Proof.
  intros n Hn. unfold fixed_digits.
  set (m := decimal_string n).
  set (m' := if (String.length m <=? 2)%nat
             then zeros (2 + 1 - String.length m) ++ m else m).
  assert (Hv : Z.of_N (digits_value 0 (list_ascii_of_string m')) = n).
  { unfold m'. destruct (String.length m <=? 2)%nat.
    - rewrite list_ascii_of_append, digits_value_app, digits_value_zeros.
      now apply digits_value_decimal_string.
    - now apply digits_value_decimal_string. }
  assert (Hl : 3 <= String.length m').
  { unfold m'. destruct (String.length m <=? 2)%nat eqn:E.
    - apply Nat.leb_le in E. rewrite length_append, zeros_length.
      assert (String.length m <> 0).
      { pose proof (decimal_string_not_empty n) as Hne. fold m in Hne.
        destruct m; [contradiction | discriminate]. }
      lia.
    - apply Nat.leb_gt in E. lia. }
  destruct (substring_cut m' (String.length m' - 2)) as [Hs Hlen]; [lia|].
  replace (String.length m' - (String.length m' - 2)) with 2 in Hs by lia.
  exists (substring 0 (String.length m' - 2) m'),
         (substring (String.length m' - 2) 2 m').
  split; [reflexivity|]. split.
  - apply (f_equal String.length) in Hs. rewrite length_append, Hlen in Hs.
    lia.
  - unfold hundredths. now rewrite <- Hs.
Qed.

(** [nearest_scaled 2] is the nearest number of hundredths, the larger
    one of two that are equally near. *)
Lemma nearest_scaled_hundredths : forall m e,
  (0 <= nearest_scaled 2 m e)%Z /\
  if (0 <=? e)%Z
  then nearest_scaled 2 m e = (100 * (Zpos m * 2 ^ e))%Z
  else (- 2 ^ (- e) < 2 * (nearest_scaled 2 m e * 2 ^ (- e) - 100 * Zpos m)
        <= 2 ^ (- e))%Z.
Proof.
  intros m e. unfold nearest_scaled. change (pow10 2) with 100%Z.
  destruct (0 <=? e)%Z eqn:E.
  - apply Z.leb_le in E. split; [|lia].
    assert (0 < 2 ^ e)%Z by (apply Z.pow_pos_nonneg; lia). nia.
  - apply Z.leb_gt in E.
    assert (HP : (0 < 2 ^ (- e))%Z) by (apply Z.pow_pos_nonneg; lia).
    replace (- e + 1)%Z with (Z.succ (- e)) by lia.
    rewrite Z.pow_succ_r by lia.
    set (P := (2 ^ (- e))%Z) in *.
    pose proof (Z.div_mod (2 * Zpos m * 100 + P) (2 * P) ltac:(lia)) as Hdm.
    pose proof (Z.mod_pos_bound (2 * Zpos m * 100 + P) (2 * P) ltac:(lia))
      as Hr.
    set (n := ((2 * Zpos m * 100 + P) / (2 * P))%Z) in *.
    split; [apply Z.div_pos; lia | nia].
Qed.

(** An amount is shown rounded to the nearest cent. For a value
    that parses to the finite number [x = m * 2 ^ e] of magnitude below
    [10 ^ 21], the line reads [<name>: $<sign><int>.<frac>] with two
    decimals, the sign being [-] exactly for a negative [x], and the
    number [n] of hundredths shown satisfies
    [-1/2 < n - 100 * |x| <= 1/2]: it is an exact multiple when [x] is
    an integer, and it differs from [|x|] by half a cent at most, a tie
    going to the larger amount. *)
Theorem amount_nearest_cent : forall name value s m e,
  StringToNumber value = S754_finite s m e ->
  below_1e21 (S754_finite s m e) ->
  exists int frac,
    format_line name value
    = name ++ ": $" ++ (if s then "-" else "") ++ int ++ "." ++ frac /\
    String.length frac = 2 /\
    if (0 <=? e)%Z
    then hundredths int frac = (100 * (Zpos m * 2 ^ e))%Z
    else (- 2 ^ (- e)
          < 2 * (hundredths int frac * 2 ^ (- e) - 100 * Zpos m)
          <= 2 ^ (- e))%Z.
Proof.
  intros name value s m e Hv Hb.
  unfold format_line. rewrite Hv. unfold toFixed.
  rewrite (finite_ge_below s m e Hb).
  destruct (nearest_scaled_hundredths m e) as [Hn Hnear].
  destruct (fixed_digits_hundredths (nearest_scaled 2 m e) Hn)
    as (int & frac & -> & Hl & Hh).
  exists int, frac. split; [reflexivity|]. split; [exact Hl|].
  now rewrite Hh.
Qed.

(** ** Whole amounts *)

Lemma is_digit_of_decimal_digit : forall c,
  decimal_digit c -> is_digit c = true.
Proof.
  intros c H. unfold decimal_digit in H. simpl in H.
  repeat (destruct H as [<-|H]; [reflexivity|]). contradiction.
Qed.

(** What a digit is not. *)
Lemma digit_is_plain : forall c,
  is_digit c = true ->
  is_white_space c = false /\
  (forall t, parse_sign (c :: t) = (false, c :: t)) /\
  Ascii.eqb c "I" = false /\
  Ascii.eqb c "." = false /\
  (Ascii.eqb c "x" || Ascii.eqb c "X" = false) /\
  (Ascii.eqb c "o" || Ascii.eqb c "O" = false) /\
  (Ascii.eqb c "b" || Ascii.eqb c "B" = false).
Proof.
  intros c. destruct c as [[] [] [] [] [] [] [] []]; vm_compute;
    intros H; try discriminate H; repeat split.
Qed.

Lemma digit_is_ascii : forall c, is_digit c = true -> (code c < 128)%N.
Proof.
  intros c H. unfold is_digit, in_range in H.
  apply andb_true_iff in H. destruct H as [_ H]. apply N.leb_le in H. lia.
Qed.

(** The bytes of a white space of several bytes are outside the ASCII
    range. *)
Lemma is_white_space_2_high : forall c1 c2,
  is_white_space_2 c1 c2 = true -> (128 <= code c1 /\ 128 <= code c2)%N.
Proof.
  intros c1 c2 H. unfold is_white_space_2 in H.
  apply andb_true_iff in H. destruct H as [H1 H2].
  apply N.eqb_eq in H1, H2. lia.
Qed.

Lemma is_white_space_3_high : forall c1 c2 c3,
  is_white_space_3 c1 c2 c3 = true ->
  (128 <= code c1 /\ 128 <= code c2 /\ 128 <= code c3)%N.
Proof.
  intros c1 c2 c3 H. unfold is_white_space_3, in_range in H.
  repeat rewrite ?orb_true_iff, ?andb_true_iff, ?N.eqb_eq, ?N.leb_le in H.
  lia.
Qed.

(** A character of the ASCII range that is no white space stays, at the
    start of a string as at its end. *)
Lemma drop_white_space_plain : forall backwards c t,
  is_white_space c = false -> (code c < 128)%N ->
  drop_white_space backwards (c :: t) = c :: t.
Proof.
  intros backwards c t Hc Hlt. cbn [drop_white_space]. rewrite Hc.
  destruct t as [|c2 [|c3 t3]]; [reflexivity | |].
  - destruct backwards.
    + destruct (is_white_space_2 c2 c) eqn:E; [|reflexivity].
      apply is_white_space_2_high in E. lia.
    + destruct (is_white_space_2 c c2) eqn:E; [|reflexivity].
      apply is_white_space_2_high in E. lia.
  - destruct backwards.
    + destruct (is_white_space_2 c2 c) eqn:E2;
        [apply is_white_space_2_high in E2; lia|].
      destruct (is_white_space_3 c3 c2 c) eqn:E3; [|reflexivity].
      apply is_white_space_3_high in E3. lia.
    + destruct (is_white_space_2 c c2) eqn:E2;
        [apply is_white_space_2_high in E2; lia|].
      destruct (is_white_space_3 c c2 c3) eqn:E3; [|reflexivity].
      apply is_white_space_3_high in E3. lia.
Qed.

Lemma drop_white_space_digits : forall backwards l,
  Forall (fun c => is_digit c = true) l -> drop_white_space backwards l = l.
Proof.
  intros backwards [|c t] H; [reflexivity|].
  inversion H as [|? ? Hc _]; subst.
  apply drop_white_space_plain;
    [exact (proj1 (digit_is_plain c Hc)) | now apply digit_is_ascii].
Qed.

Lemma trim_digits : forall l,
  Forall (fun c => is_digit c = true) l -> trim l = l.
Proof.
  intros l H. unfold trim.
  rewrite (drop_white_space_digits false l H).
  rewrite drop_white_space_digits by (now apply Forall_rev).
  apply rev_involutive.
Qed.

Lemma take_digits_all : forall l acc n,
  Forall (fun c => is_digit c = true) l ->
  take_digits acc n l = (digits_value acc l, n + List.length l, []).
Proof.
  induction l as [|c t IH]; intros acc n H; simpl.
  - now rewrite Nat.add_0_r.
  - inversion H as [|? ? Hc Ht]; subst. rewrite Hc, IH by exact Ht.
    now rewrite Nat.add_succ_r.
Qed.

(** [Number] on a non-empty string of digits. *)
Lemma StringToNumber_digits : forall s,
  s <> "" -> all_chars decimal_digit s ->
  StringToNumber s
  = decimal_to_number false (digits_value 0 (list_ascii_of_string s)) 0.
Proof.
  intros s Hne Hd. unfold StringToNumber.
  assert (H : Forall (fun c => is_digit c = true) (list_ascii_of_string s)).
  { unfold all_chars in Hd. eapply Forall_impl; [|exact Hd].
    exact is_digit_of_decimal_digit. }
  rewrite (trim_digits _ H).
  destruct (list_ascii_of_string s) as [|c t] eqn:El.
  { destruct s; [contradiction | discriminate El]. }
  inversion H as [|? ? Hc Ht]; subst.
  destruct (digit_is_plain c Hc) as (_ & Hsign & HI & _).
  assert (Hdec : (let (sg, r) := parse_sign (c :: t) in parse_decimal sg r)
                 = decimal_to_number false (digits_value 0 (c :: t)) 0).
  { rewrite Hsign. unfold parse_decimal.
    assert (Hinf : ascii_list_eqb (c :: t) Infinity_literal = false).
    { unfold ascii_list_eqb, Infinity_literal.
      change (string_of_list_ascii (c :: t))
        with (String c (string_of_list_ascii t)).
      change (string_of_list_ascii (list_ascii_of_string "Infinity"))
        with (String "I" "nfinity").
      change (String.eqb (String c (string_of_list_ascii t))
                         (String "I" "nfinity"))
        with (Ascii.eqb c "I"
              && String.eqb (string_of_list_ascii t) "nfinity").
      now rewrite HI. }
    rewrite Hinf, (take_digits_all (c :: t) 0%N 0 H).
    reflexivity. }
  destruct t as [|c1 t']; [|inversion Ht as [|? ? Hc1 _]; subst;
    destruct (digit_is_plain c1 Hc1) as (_ & _ & _ & _ & Hx & Ho & Hb)];
    destruct c as [[] [] [] [] [] [] [] []]; try discriminate Hc;
    try exact Hdec.
  rewrite Hx, Ho, Hb. exact Hdec.
Qed.

Section WholeNumbers.
Local Open Scope Z_scope.

Lemma digits2_pos_shift : forall k p,
  digits2_pos (Pos.iter xO p k) = (digits2_pos p + k)%positive.
Proof.
  intros k p. induction k as [|k IH] using Pos.peano_ind.
  - simpl. now rewrite Pos.add_1_r.
  - rewrite Pos.iter_succ. simpl digits2_pos. rewrite IH.
    now rewrite Pos.add_succ_r.
Qed.

Lemma digits2_pos_below : forall p z,
  0 <= z -> Zpos p < 2 ^ z -> Zpos (digits2_pos p) <= z.
Proof.
  intros p z Hz Hp. pose proof (digits2_pos_bound p) as Hb.
  destruct (Z.le_gt_cases (Zpos (digits2_pos p)) z) as [H|H]; [exact H|].
  assert (2 ^ z <= 2 ^ (Zpos (digits2_pos p) - 1))
    by (apply Z.pow_le_mono_r; lia).
  lia.
Qed.

(** A mantissa of 53 bits at an exponent of the format is kept by the
    rounding. *)
Lemma binary_round_aux_canonical : forall s m e,
  Zpos (digits2_pos m) = 53 -> -1074 <= e <= 971 ->
  binary_round_aux prec emax s (Zpos m) e loc_Exact = S754_finite s m e.
Proof.
  intros s m e Hd He.
  assert (Hshr : shr_fexp prec emax (Zpos m) e loc_Exact
                 = (Build_shr_record (Zpos m) false false, e)).
  { unfold shr_fexp, shr. simpl Zdigits2. rewrite Hd.
    replace (fexp prec emax (53 + e) - e) with 0; [reflexivity|].
    unfold fexp, emin, prec, emax. lia. }
  unfold binary_round_aux. rewrite Hshr.
  cbn [shr_m loc_of_shr_record round_nearest_even]. rewrite Hshr.
  cbn [shr_m].
  replace (e <=? emax - prec) with true; [reflexivity|].
  symmetry. apply Z.leb_le. unfold emax, prec. lia.
Qed.

(** An integer below [2 ^ 53] is a number: its rounding is exact. *)
Lemma binary_round_integer : forall s p,
  Zpos p < 2 ^ 53 ->
  exists mz k,
    0 <= k /\ Zpos mz = Zpos p * 2 ^ k /\
    binary_round prec emax s p 0 = S754_finite s mz (- k).
Proof.
  intros s p Hp.
  pose proof (digits2_pos_below p 53 ltac:(lia) Hp) as Hd.
  unfold binary_round.
  assert (Hf : fexp prec emax (Zpos (digits2_pos p) + 0)
               = Zpos (digits2_pos p) - 53)
    by (unfold fexp, emin, prec, emax; lia).
  rewrite Hf. unfold shl_align.
  destruct (Zpos (digits2_pos p) - 53 - 0) as [|k|k] eqn:Ek; try lia.
  - exists p, 0. split; [lia|]. split; [lia|].
    apply binary_round_aux_canonical; lia.
  - exists (Pos.iter xO p k), (Zpos k). split; [lia|]. split.
    + change (Pos.iter xO p k) with (shift_pos k p).
      rewrite shift_pos_correct. apply Z.mul_comm.
    + replace (Zpos (digits2_pos p) - 53) with (- Zpos k) by lia.
      apply binary_round_aux_canonical; [|lia].
      rewrite digits2_pos_shift, Pos2Z.inj_add. lia.
Qed.

(** Such a number is shown with its hundredths at zero. *)
Lemma toFixed_scaled_integer : forall mz k p,
  0 <= k -> Zpos mz = Zpos p * 2 ^ k -> Zpos p < 2 ^ 53 ->
  toFixed 2 (S754_finite false mz (- k)) = fixed_digits 2 (100 * Zpos p).
Proof.
  intros mz k p Hk Hm Hp. unfold toFixed.
  assert (HP : 0 < 2 ^ k) by (apply Z.pow_pos_nonneg; lia).
  assert (H53 : 2 ^ 53 < 10 ^ 21) by reflexivity.
  assert (Hge : finite_ge mz (- k) (10 ^ 21) = false).
  { unfold finite_ge. destruct (0 <=? - k) eqn:E.
    - apply Z.leb_le in E. replace (- k) with 0 by lia.
      replace k with 0 in Hm by lia. apply Z.leb_gt.
      rewrite Z.pow_0_r in *. lia.
    - rewrite Z.opp_involutive. apply Z.leb_gt. rewrite Hm. nia. }
  rewrite Hge. cbv iota. cbn [append]. f_equal.
  pose proof (nearest_scaled_hundredths mz (- k)) as [Hn Hnear].
  destruct (0 <=? - k) eqn:E.
  - apply Z.leb_le in E. replace k with 0 in * by lia.
    rewrite Hnear. simpl (- 0). rewrite Z.pow_0_r in *. lia.
  - rewrite Z.opp_involutive, Hm in Hnear. nia.
Qed.
End WholeNumbers.

Lemma string_of_uint_revapp : forall d d',
  NilEmpty.string_of_uint (Decimal.revapp d d')
  = NilEmpty.string_of_uint (Decimal.rev d) ++ NilEmpty.string_of_uint d'.
Proof.
  unfold Decimal.rev.
  induction d as [|d IH|d IH|d IH|d IH|d IH|d IH|d IH|d IH|d IH|d IH];
    intros d'; [reflexivity | ..];
    cbn [Decimal.revapp]; rewrite IH; symmetry; rewrite IH;
    rewrite append_assoc; reflexivity.
Qed.

(** The digits of ten times a positive integer. *)
Lemma decimal_string_tenfold : forall n,
  (0 < n)%Z -> decimal_string (10 * n) = decimal_string n ++ "0".
Proof.
  intros n Hn. unfold decimal_string.
  destruct n as [|p|p]; try lia.
  change (Z.to_N (10 * Zpos p)) with (10 * Npos p)%N.
  change (Z.to_N (Zpos p)) with (Npos p).
  change (N.to_uint (10 * Npos p))
    with (Decimal.rev (Unsigned.to_lu (10 * Npos p))).
  rewrite Unsigned.to_ldec_tenfold.
  change (Decimal.rev (Decimal.D0 (Unsigned.to_lu (Npos p))))
    with (Decimal.revapp (Unsigned.to_lu (Npos p)) (Decimal.D0 Decimal.Nil)).
  now rewrite string_of_uint_revapp.
Qed.

Lemma fixed_digits_whole : forall n,
  (0 <= n)%Z -> fixed_digits 2 (100 * n) = decimal_string n ++ ".00".
Proof.
  intros n Hn.
  destruct (Z.eq_dec n 0) as [-> | Hnz]; [reflexivity|].
  assert (Hs : decimal_string (100 * n) = decimal_string n ++ "00").
  { replace (100 * n)%Z with (10 * (10 * n))%Z by lia.
    rewrite !decimal_string_tenfold by lia.
    now rewrite append_assoc. }
  unfold fixed_digits. rewrite Hs.
  set (s := decimal_string n).
  assert (Hl : String.length (s ++ "00") = String.length s + 2)
    by apply length_append.
  assert (Hne : String.length s <> 0).
  { pose proof (decimal_string_not_empty n) as H. fold s in H.
    destruct s; [contradiction | discriminate]. }
  replace (String.length (s ++ "00") <=? 2)%nat with false
    by (symmetry; apply Nat.leb_gt; lia).
  rewrite Hl. replace (String.length s + 2 - 2) with (String.length s) by lia.
  destruct (substring_cut (s ++ "00") (String.length s)) as [Hcut Hlen];
    [lia|].
  rewrite Hl in Hcut.
  replace (String.length s + 2 - String.length s) with 2 in Hcut by lia.
  destruct (append_inj_length _ _ _ _ (eq_sym Hlen) Hcut) as [H1 H2].
  now rewrite <- H1, <- H2.
Qed.

(** A whole amount below [2 ^ 53] is shown as it is written, with
    ".00" after it: reading the digits with [Number] and printing the
    number with [toFixed(2)] loses nothing. *)
Theorem whole_amount_exact : forall name n,
  (0 <= n < 2 ^ 53)%Z ->
  format_line name (decimal_string n)
  = name ++ ": $" ++ decimal_string n ++ ".00".
Proof.
  intros name n [Hn Hlt]. unfold format_line. do 2 f_equal.
  rewrite StringToNumber_digits
    by (apply decimal_string_not_empty || apply decimal_string_digits).
  pose proof (digits_value_decimal_string n Hn) as Hv.
  destruct (digits_value 0 (list_ascii_of_string (decimal_string n)))
    as [|p] eqn:E.
  - simpl in Hv. subst n. reflexivity.
  - simpl in Hv. subst n.
    unfold decimal_to_number. cbn [Z.leb Z.compare].
    change (Z.to_pos (10 ^ 0)) with 1%positive. rewrite Pos.mul_1_r.
    destruct (binary_round_integer false p Hlt) as (mz & k & Hk & Hm & ->).
    rewrite (toFixed_scaled_integer mz k p Hk Hm Hlt).
    now apply fixed_digits_whole.
Qed.

(** The largest such amount. *)
Lemma whole_amount_exact_witness :
  format_line "Wallet" (decimal_string 9007199254740991)
  = "Wallet" ++ ": $" ++ decimal_string 9007199254740991 ++ ".00".
Proof.
  apply whole_amount_exact. split; [discriminate | reflexivity].
Defined.

(** The value -2.675, whose nearest number lies below it. *)
Lemma amount_nearest_cent_witness :
  exists int frac,
    format_line "Wallet" "-2.675"
    = "Wallet" ++ ": $" ++ "-" ++ int ++ "." ++ frac /\
    String.length frac = 2 /\
    (- 2 ^ 51
     < 2 * (hundredths int frac * 2 ^ 51 - 100 * 6023564501608038)
     <= 2 ^ 51)%Z.
Proof.
  refine (amount_nearest_cent "Wallet" "-2.675" true 6023564501608038 (-51)
            _ _); vm_compute; reflexivity.
Defined.

(** ** The order of the protocols *)

(** Two sorted arrangements of the same entries are equal when the order
    leaves no choice. *)
Lemma StronglySorted_unique : forall {A : Type} (R : A -> A -> Prop) l1 l2,
  (forall x y, In x l1 -> In y l1 -> R x y -> R y x -> x = y) ->
  Permutation l1 l2 ->
  StronglySorted R l1 -> StronglySorted R l2 -> l1 = l2.
Proof.
  intros A R l1. induction l1 as [|x t1 IH]; intros l2 Hanti Hp H1 H2.
  - apply Permutation_nil in Hp. now subst.
  - destruct l2 as [|y t2].
    { symmetry in Hp. apply Permutation_nil in Hp. discriminate Hp. }
    inversion H1 as [|? ? Ht1 Hx]; subst.
    inversion H2 as [|? ? Ht2 Hy]; subst.
    rewrite Forall_forall in Hx, Hy.
    assert (Hxy : x = y).
    { assert (Hin1 : In y (x :: t1))
        by (apply (Permutation_in y (Permutation_sym Hp)); now left).
      assert (Hin2 : In x (y :: t2))
        by (apply (Permutation_in x Hp); now left).
      destruct Hin1 as [E|Hin1]; [exact E|].
      destruct Hin2 as [E|Hin2]; [now symmetry|].
      apply Hanti; [now left | now right | now apply Hx | now apply Hy]. }
    subst y. f_equal.
    apply IH; auto.
    + intros a b Ha Hb. apply Hanti; now right.
    + now apply Permutation_cons_inv in Hp.
Qed.

Lemma NameValue_eq_dec : forall p q : NameValue.t, p = q \/ p <> q.
Proof.
  intros [n v] [n' v'].
  destruct (string_dec n n') as [->|Hn]; [|right; congruence].
  destruct (string_dec v v') as [->|Hv]; [now left | right; congruence].
Qed.

(** The protocol section does not depend on the order in which the
    protocols are listed: two portfolios whose protocol maps hold the
    same entries, in any order, give the same section, provided the
    values are numbers and no two different lines have the same value.
    (With equal values the order of the listing shows through, the sort
    being stable.) *)
Theorem protocol_section_order_independent :
  forall pb pb' : OctavPortfolioBalance.t,
    Permutation (OctavPortfolioBalance.assetByProtocols pb)
                (OctavPortfolioBalance.assetByProtocols pb') ->
    Forall numeric (protocol_pairs pb) ->
    no_ties (protocol_pairs pb) ->
    networthPerProtocol pb = networthPerProtocol pb' /\
    protocol_section pb = protocol_section pb'.
Proof.
  intros pb pb' Hperm Hnum Hties.
  assert (Hpairs : Permutation (protocol_pairs pb) (protocol_pairs pb')).
  { unfold protocol_pairs. apply Permutation_map.
    rewrite <- !Object_entries_perm. exact Hperm. }
  assert (Hsorted : forall b,
            Forall numeric (protocol_pairs b) ->
            StronglySorted not_greater
              (Array_sort by_value_descending (protocol_pairs b))).
  { intros b Hb. apply Sorted_not_greater_strongly.
    - eapply Permutation_Forall; [apply Array_sort_perm | exact Hb].
    - apply (Sorted_weaken (keeps by_value_descending));
        [exact keeps_not_greater|].
      exact (Array_sort_sorted by_value_descending
               by_value_descending_antisym (protocol_pairs b)). }
  assert (Heq : Array_sort by_value_descending (protocol_pairs pb)
                = Array_sort by_value_descending (protocol_pairs pb')).
  { apply (StronglySorted_unique not_greater).
    - intros p q Hp Hq Hpq Hqp.
      destruct (NameValue_eq_dec p q) as [E|Hne]; [exact E|].
      apply (Permutation_in _ (Permutation_sym (Array_sort_perm _ _))) in Hp.
      apply (Permutation_in _ (Permutation_sym (Array_sort_perm _ _))) in Hq.
      destruct (Hties p q Hp Hq Hne) as [H|H]; [now apply Hpq in H|].
      now apply Hqp in H.
    - rewrite <- !Array_sort_perm. exact Hpairs.
    - now apply Hsorted.
    - apply Hsorted. eapply Permutation_Forall; [exact Hpairs | exact Hnum]. }
  assert (Hnet : networthPerProtocol pb = networthPerProtocol pb')
    by (unfold networthPerProtocol; now rewrite Heq).
  split; [exact Hnet|].
  unfold protocol_section, networthProtocolStr. now rewrite Hnet.
Qed.

(** The protocols [{A: 10, Wallet: 1, B: 100}] and [{B, A, Wallet}]. *)
Lemma protocol_section_order_independent_witness :
  let pb := OctavPortfolioBalance.mk example_address "111"
              example_protocols [] in
  let pb' := OctavPortfolioBalance.mk example_address "111"
               example_protocols_reordered [] in
  networthPerProtocol pb = networthPerProtocol pb' /\
  protocol_section pb = protocol_section pb'.
Proof.
  apply protocol_section_order_independent.
  - unfold example_protocols, example_protocols_reordered. simpl.
    eapply perm_trans; [apply perm_skip, perm_swap|].
    apply perm_swap.
  - repeat constructor; vm_compute; discriminate.
  - intros p q [<-|[<-|[<-|[]]]] [<-|[<-|[<-|[]]]] Hne;
      try (exfalso; apply Hne; reflexivity);
      first [left; vm_compute; reflexivity | right; vm_compute; reflexivity].
Defined.

(** ** Blank amounts *)

(** The white space at the start of a string is dropped. *)
Lemma drop_white_space_blank : forall s r,
  blank s ->
  drop_white_space false (list_ascii_of_string s ++ r)
  = drop_white_space false r.
Proof.
  intros s r H. induction H as [|cp s Hcp Hs IH]; [reflexivity|].
  rewrite list_ascii_of_append, <- app_assoc, <- IH.
  simpl in Hcp.
  repeat (destruct Hcp as [<-|Hcp]; [reflexivity|]). contradiction.
Qed.

(** A value that is empty, or made of white space alone (of
    [StrWhiteSpaceChar]: spaces, tabs, line terminators, the no-break
    space, the byte order mark and the other space separators), counts
    as zero: its line shows $0.00, not NaN. *)
Theorem blank_amount_is_zero : forall name value,
  blank value -> format_line name value = name ++ ": $0.00".
Proof.
  intros name value H. unfold format_line, StringToNumber, trim.
  rewrite <- (app_nil_r (list_ascii_of_string value)).
  rewrite (drop_white_space_blank value [] H). reflexivity.
Qed.

(** A space, a no-break space, a line separator and a byte order mark. *)
Lemma blank_amount_is_zero_witness :
  format_line "Wallet"
    (utf8 0x20 ++ utf8 0xA0 ++ utf8 0x2028 ++ utf8 0xFEFF ++ "")
  = "Wallet" ++ ": $0.00".
Proof.
  apply blank_amount_is_zero.
  repeat (apply blank_more;
          [simpl; repeat (first [left; reflexivity | right])|]).
  constructor.
Defined.

(** ** White space around an amount *)

Lemma is_white_space_2_second : forall c1 c2,
  is_white_space_2 c1 c2 = true -> ~ leading c2.
Proof.
  intros c1 c2 H. unfold is_white_space_2 in H.
  apply andb_true_iff in H. destruct H as [_ H]. apply N.eqb_eq in H.
  unfold leading. lia.
Qed.

Lemma is_white_space_3_others : forall c1 c2 c3,
  is_white_space_3 c1 c2 c3 = true -> ~ leading c2 /\ ~ leading c3.
Proof.
  intros c1 c2 c3 H. unfold is_white_space_3, in_range in H.
  repeat rewrite ?orb_true_iff, ?andb_true_iff, ?N.eqb_eq, ?N.leb_le in H.
  unfold leading. lia.
Qed.

(** A blank string is empty or starts with the first byte of a
    character. *)
Lemma blank_head : forall s,
  blank s ->
  match list_ascii_of_string s with
  | [] => True
  | c :: _ => leading c
  end.
Proof.
  intros s H. destruct H as [|cp s Hcp _]; [exact I|].
  rewrite list_ascii_of_append. simpl in Hcp. unfold leading.
  repeat (destruct Hcp as [<-|Hcp];
          [vm_compute; first [left; reflexivity | right; discriminate]|]).
  contradiction.
Qed.

(** The white space at the start of [v] is dropped as well when a blank
    string follows [v], and what is left of [v] stays. *)
Lemma drop_white_space_before_blank : forall n v s,
  List.length v <= n -> blank s ->
  drop_white_space false (v ++ list_ascii_of_string s)
  = match drop_white_space false v with
    | [] => []
    | l => (l ++ list_ascii_of_string s)%list
    end.
Proof.
  induction n as [|n IH]; intros v s Hlen Hs.
  - destruct v; [|simpl in Hlen; lia]. cbn [app drop_white_space].
    rewrite <- (app_nil_r (list_ascii_of_string s)).
    now rewrite (drop_white_space_blank s [] Hs).
  - destruct v as [|c1 t1].
    { cbn [app drop_white_space].
      rewrite <- (app_nil_r (list_ascii_of_string s)).
      now rewrite (drop_white_space_blank s [] Hs). }
    pose proof (blank_head s Hs) as Hhead.
    cbn [app]. cbn [drop_white_space].
    destruct (is_white_space c1) eqn:E1.
    { apply IH; [simpl in Hlen; lia | exact Hs]. }
    destruct t1 as [|c2 t2].
    { cbn [app]. destruct (list_ascii_of_string s) as [|b1 bt]; [reflexivity|].
      destruct (is_white_space_2 c1 b1) eqn:E2.
      { apply is_white_space_2_second in E2. contradiction. }
      destruct bt as [|b2 bt]; [reflexivity|].
      destruct (is_white_space_3 c1 b1 b2) eqn:E3; [|reflexivity].
      apply is_white_space_3_others in E3. tauto. }
    cbn [app].
    destruct (is_white_space_2 c1 c2) eqn:E2.
    { apply IH; [simpl in Hlen; lia | exact Hs]. }
    destruct t2 as [|c3 t3].
    { cbn [app]. destruct (list_ascii_of_string s) as [|b1 bt]; [reflexivity|].
      destruct (is_white_space_3 c1 c2 b1) eqn:E3; [|reflexivity].
      apply is_white_space_3_others in E3. tauto. }
    cbn [app].
    destruct (is_white_space_3 c1 c2 c3) eqn:E3; [|reflexivity].
    apply IH; [simpl in Hlen; lia | exact Hs].
Qed.

(** The white space at the end of a string is dropped. *)
Lemma drop_white_space_blank_end : forall s r,
  blank s ->
  drop_white_space true (rev (list_ascii_of_string s) ++ r)
  = drop_white_space true r.
Proof.
  intros s r H. revert r.
  induction H as [|cp s Hcp Hs IH]; intros r; [reflexivity|].
  rewrite list_ascii_of_append, rev_app_distr, <- app_assoc, IH.
  simpl in Hcp.
  repeat (destruct Hcp as [<-|Hcp]; [reflexivity|]). contradiction.
Qed.

Lemma trim_between_blanks : forall before value after,
  blank before -> blank after ->
  trim (list_ascii_of_string (before ++ value ++ after))
  = trim (list_ascii_of_string value).
Proof.
  intros before value after Hb Ha. unfold trim.
  rewrite !list_ascii_of_append.
  rewrite (drop_white_space_blank before _ Hb).
  rewrite (drop_white_space_before_blank _ _ after (Nat.le_refl _) Ha).
  destruct (drop_white_space false (list_ascii_of_string value)) as [|c t];
    [reflexivity|].
  rewrite rev_app_distr. now rewrite (drop_white_space_blank_end after _ Ha).
Qed.

(** White space around an amount is ignored: the line of a value
    written between two blank strings is the line of the value. *)
Theorem white_space_around_amount : forall name before value after,
  blank before -> blank after ->
  format_line name (before ++ value ++ after) = format_line name value.
Proof.
  intros name before value after Hb Ha.
  unfold format_line, StringToNumber.
  now rewrite (trim_between_blanks before value after Hb Ha).
Qed.

(** The amount 12.5 after a byte order mark and a space, and before a
    no-break space and a line feed. *)
Lemma white_space_around_amount_witness :
  format_line "Wallet"
    ((utf8 0xFEFF ++ utf8 0x20 ++ "") ++ "12.5"
     ++ (utf8 0xA0 ++ utf8 0xA ++ ""))
  = format_line "Wallet" "12.5".
Proof.
  apply white_space_around_amount;
    repeat (apply blank_more;
            [simpl; repeat (first [left; reflexivity | right])|]);
    constructor.
Defined.

(** ** Amounts with one or two decimals *)

Section DecimalQuotients.
Local Open Scope Z_scope.

Lemma digits2_pos_upper : forall p, Zpos p < 2 ^ Zpos (digits2_pos p).
Proof.
  induction p as [p IH|p IH|]; simpl digits2_pos.
  - rewrite Pos2Z.inj_succ, Z.pow_succ_r by lia. lia.
  - rewrite Pos2Z.inj_succ, Z.pow_succ_r by lia. lia.
  - reflexivity.
Qed.

Lemma digits2_pos_eq : forall p k,
  2 ^ (k - 1) <= Zpos p < 2 ^ k -> Zpos (digits2_pos p) = k.
Proof.
  intros p k [Hlo Hhi].
  pose proof (digits2_pos_bound p) as Hb.
  pose proof (digits2_pos_upper p) as Hu.
  set (d := Zpos (digits2_pos p)) in *.
  assert (Hd : 0 < d) by (unfold d; lia).
  destruct (Z.lt_trichotomy d k) as [H|[H|H]]; [|exact H|].
  - assert (2 ^ d <= 2 ^ (k - 1)) by (apply Z.pow_le_mono_r; lia). lia.
  - assert (0 <= k).
    { destruct (Z.le_gt_cases 0 k) as [Hk|Hk]; [exact Hk|].
      rewrite (Z.pow_neg_r 2 k) in Hhi by lia. lia. }
    assert (2 ^ k <= 2 ^ (d - 1)) by (apply Z.pow_le_mono_r; lia). lia.
Qed.

Lemma shr_fexp_53 : forall p e l,
  Zpos (digits2_pos p) = 53 -> -1074 <= e ->
  shr_fexp prec emax (Zpos p) e l = (shr_record_of_loc (Zpos p) l, e).
Proof.
  intros p e l Hd He. unfold shr_fexp, shr. simpl Zdigits2. rewrite Hd.
  replace (fexp prec emax (53 + e) - e) with 0; [reflexivity|].
  unfold fexp, emin, prec, emax. lia.
Qed.

Lemma shr_fexp_54 : forall p e l,
  Zpos (digits2_pos p) = 54 -> -1074 <= e ->
  shr_fexp prec emax (Zpos p) e l
  = (shr_1 (shr_record_of_loc (Zpos p) l), e + 1).
Proof.
  intros p e l Hd He. unfold shr_fexp, shr. simpl Zdigits2. rewrite Hd.
  replace (fexp prec emax (54 + e) - e) with 1; [reflexivity|].
  unfold fexp, emin, prec, emax. lia.
Qed.

Lemma loc_of_shr_record_of_loc : forall m l,
  loc_of_shr_record (shr_record_of_loc m l) = l.
Proof. intros m [|[]]; reflexivity. Qed.

(** The last step of a rounding: a mantissa of 53 bits is kept, and
    [2 ^ 53] becomes [2 ^ 52] at the next exponent. *)
Lemma binary_round_aux_finish : forall s m1 e1,
  2 ^ 52 <= m1 <= 2 ^ 53 -> -1074 <= e1 <= 900 ->
  exists m e2,
    (let '(mrs'', e'') := shr_fexp prec emax m1 e1 loc_Exact in
     match shr_m mrs'' with
     | Z0 => S754_zero s
     | Zpos m =>
         if e'' <=? emax - prec then S754_finite s m e''
         else S754_infinity s
     | Zneg _ => S754_nan
     end) = S754_finite s m e2 /\
    Zpos m * 2 ^ (e2 - e1) = m1 /\ e1 <= e2 <= e1 + 1.
Proof.
  intros s m1 e1 Hm He.
  destruct m1 as [|p|p]; try lia.
  destruct (Z.eq_dec (Zpos p) (2 ^ 53)) as [E|E].
  - injection E as ->.
    rewrite (shr_fexp_54 9007199254740992 e1 loc_Exact eq_refl) by lia.
    cbn [shr_record_of_loc shr_1 shr_m].
    replace (e1 + 1 <=? emax - prec) with true
      by (symmetry; apply Z.leb_le; unfold emax, prec; lia).
    do 2 eexists. split; [reflexivity|].
    replace (e1 + 1 - e1) with 1 by lia. split; [reflexivity | lia].
  - assert (Hd : Zpos (digits2_pos p) = 53)
      by (apply digits2_pos_eq; change (53 - 1) with 52; lia).
    rewrite (shr_fexp_53 _ e1 loc_Exact Hd) by lia.
    cbn [shr_record_of_loc shr_m].
    replace (e1 <=? emax - prec) with true
      by (symmetry; apply Z.leb_le; unfold emax, prec; lia).
    do 2 eexists. split; [reflexivity|].
    rewrite Z.sub_diag. split; lia.
Qed.

(** The divisor: an even number, [10] or [100] below. *)
Variable D : Z.
Hypothesis D_even : Z.even D = true.
Hypothesis D_positive : 0 < D.

(** The location of a remainder [r] of a division by [D], and the
    rounding it asks for. *)
Lemma round_nearest_even_quotient : forall q r,
  0 <= r < D ->
  let m1 := round_nearest_even q (new_location D r) in
  q <= m1 <= q + 1 /\ 2 * Z.abs (D * m1 - (D * q + r)) <= D.
Proof.
  intros q r Hr. unfold new_location.
  rewrite D_even. unfold new_location_even.
  destruct (r =? 0) eqn:E0.
  - apply Z.eqb_eq in E0. subst r. cbn [round_nearest_even]. lia.
  - apply Z.eqb_neq in E0.
    destruct (2 * r ?= D) eqn:Ec; cbn [round_nearest_even].
    + apply Z.compare_eq in Ec. destruct (Z.even q); lia.
    + apply -> Z.compare_lt_iff in Ec. lia.
    + apply -> Z.compare_gt_iff in Ec. lia.
Qed.

(** The same after one bit of the quotient has been shifted out. *)
Lemma round_nearest_even_shifted : forall p r,
  0 <= r < D -> 2 <= Zpos p ->
  let mrs := shr_1 (shr_record_of_loc (Zpos p) (new_location D r)) in
  let m1 := round_nearest_even (shr_m mrs) (loc_of_shr_record mrs) in
  Zpos p / 2 <= m1 <= Zpos p / 2 + 1 /\
  2 * Z.abs (2 * D * m1 - (D * Zpos p + r)) <= 2 * D.
Proof.
  intros p r Hr Hp. unfold new_location.
  rewrite D_even. unfold new_location_even.
  destruct p as [p|p|]; [| |lia].
  - (* odd quotient *)
    assert (Hq : Zpos p~1 / 2 = Zpos p)
      by (rewrite Pos2Z.inj_xI; symmetry; apply Z.div_unique with 1; lia).
    rewrite Hq.
    destruct (r =? 0) eqn:E0.
    + apply Z.eqb_eq in E0. subst r.
      cbn [shr_record_of_loc shr_1 shr_m loc_of_shr_record
           round_nearest_even orb].
      rewrite Pos2Z.inj_xI. destruct (Z.even (Zpos p)); lia.
    + apply Z.eqb_neq in E0.
      destruct (2 * r ?= D) eqn:Ec;
        cbn [shr_record_of_loc shr_1 shr_m loc_of_shr_record
             round_nearest_even orb];
        rewrite Pos2Z.inj_xI; lia.
  - (* even quotient *)
    assert (Hq : Zpos p~0 / 2 = Zpos p)
      by (rewrite Pos2Z.inj_xO; symmetry; apply Z.div_unique with 0; lia).
    rewrite Hq.
    destruct (r =? 0) eqn:E0.
    + apply Z.eqb_eq in E0. subst r.
      cbn [shr_record_of_loc shr_1 shr_m loc_of_shr_record
           round_nearest_even orb].
      rewrite Pos2Z.inj_xO. lia.
    + apply Z.eqb_neq in E0.
      destruct (2 * r ?= D) eqn:Ec;
        cbn [shr_record_of_loc shr_1 shr_m loc_of_shr_record
             round_nearest_even orb];
        rewrite Pos2Z.inj_xO; lia.
Qed.

(** The rounding of a quotient by [D] of 53 or 54 bits, with its
    remainder: the result is within half a unit in the last place. *)
Lemma binary_round_aux_quotient : forall s q r e,
  2 ^ 52 <= q < 2 ^ 54 -> 0 <= r < D -> -1074 <= e <= 800 ->
  exists m e2,
    binary_round_aux prec emax s q e (new_location D r)
    = S754_finite s m e2 /\
    e <= e2 <= e + 2 /\
    2 * Z.abs (D * (Zpos m * 2 ^ (e2 - e)) - (D * q + r))
    <= D * 2 ^ (e2 - e).
Proof.
  intros s q r e Hq Hr He.
  destruct q as [|p|p]; try lia.
  unfold binary_round_aux.
  destruct (Z.lt_ge_cases (Zpos p) (2 ^ 53)) as [Hlt|Hge].
  - assert (Hd : Zpos (digits2_pos p) = 53)
      by (apply digits2_pos_eq; change (53 - 1) with 52; lia).
    rewrite (shr_fexp_53 p e _ Hd) by lia.
    rewrite loc_of_shr_record_of_loc, shr_record_of_loc_m.
    destruct (round_nearest_even_quotient (Zpos p) r Hr) as [Hm1 Herr].
    set (m1 := round_nearest_even (Zpos p) (new_location D r)) in *.
    destruct (binary_round_aux_finish s m1 e ltac:(lia) ltac:(lia))
      as (m & e2 & -> & Hm & He2).
    exists m, e2. split; [reflexivity|]. split; [lia|].
    rewrite Hm.
    assert (1 <= 2 ^ (e2 - e))
      by (assert (0 < 2 ^ (e2 - e)) by (apply Z.pow_pos_nonneg; lia); lia).
    nia.
  - assert (Hd : Zpos (digits2_pos p) = 54)
      by (apply digits2_pos_eq; change (54 - 1) with 53; lia).
    rewrite (shr_fexp_54 p e _ Hd) by lia.
    destruct (round_nearest_even_shifted p r Hr ltac:(lia)) as [Hm1 Herr].
    set (mrs := shr_1 (shr_record_of_loc (Zpos p) (new_location D r))) in *.
    set (m1 := round_nearest_even (shr_m mrs) (loc_of_shr_record mrs)) in *.
    assert (Hhalf : 2 ^ 52 <= Zpos p / 2 < 2 ^ 53).
    { split.
      - apply Z.div_le_lower_bound; lia.
      - apply Z.div_lt_upper_bound; lia. }
    destruct (binary_round_aux_finish s m1 (e + 1) ltac:(lia) ltac:(lia))
      as (m & e2 & -> & Hm & He2).
    exists m, e2. split; [reflexivity|]. split; [lia|].
    replace (e2 - e) with (Z.succ (e2 - (e + 1))) by lia.
    rewrite Z.pow_succ_r by lia.
    assert (1 <= 2 ^ (e2 - (e + 1)))
      by (assert (0 < 2 ^ (e2 - (e + 1)))
            by (apply Z.pow_pos_nonneg; lia); lia).
    replace (Zpos m * (2 * 2 ^ (e2 - (e + 1))))
      with (2 * (Zpos m * 2 ^ (e2 - (e + 1)))) by ring.
    rewrite Hm. nia.
Qed.
End DecimalQuotients.

Section DecimalDivision.
Local Open Scope Z_scope.

(** The division of an integer of at most [44 + d] bits by an even
    number [D] of [d] bits that is not a power of two: the quotient is
    a number with an exponent of [-7] at most, within half a unit in the
    last place of the exact quotient. *)
Lemma SFdiv_quotient : forall s p D,
  let d := Zpos (digits2_pos D) in
  Z.even (Zpos D) = true -> 2 ^ (d - 1) < Zpos D -> d <= 20 ->
  Zpos p < 2 ^ (44 + d) ->
  exists m e,
    SFdiv prec emax (S754_finite s p 0) (S754_finite false D 0)
    = S754_finite s m e /\
    -1074 <= e <= -7 /\
    2 * Z.abs (Zpos D * Zpos m - Zpos p * 2 ^ (- e)) <= Zpos D.
Proof.
  intros s p D d Heven Hnot Hd20 Hp.
  pose proof (digits2_pos_bound p) as Hlo.
  pose proof (digits2_pos_upper p) as Hhi.
  pose proof (digits2_pos_upper D) as HD. fold d in HD.
  assert (Hd0 : 1 <= d) by (unfold d; lia).
  pose proof (digits2_pos_below p (44 + d) ltac:(lia) Hp) as Hd1.
  set (d1 := Zpos (digits2_pos p)) in *.
  assert (Hd11 : 1 <= d1) by (unfold d1; lia).
  unfold SFdiv, SFdiv_core_binary.
  change (Zdigits2 (Zpos p)) with d1. change (Zdigits2 (Zpos D)) with d.
  cbv zeta.
  replace (Z.min (fexp prec emax (d1 + 0 - (d + 0))) (0 - 0))
    with (d1 - d - 53)
    by (unfold fexp, emin, prec, emax; lia).
  replace (0 - 0 - (d1 - d - 53)) with (d + 53 - d1) by lia.
  destruct (d + 53 - d1) as [|k|k] eqn:Ek; try lia.
  rewrite Z.shiftl_mul_pow2 by lia. rewrite <- Ek.
  set (m' := Zpos p * 2 ^ (d + 53 - d1)).
  assert (Hm' : 2 ^ (d + 52) <= m' < 2 ^ (d + 53)).
  { unfold m'.
    assert (HP : 0 < 2 ^ (d + 53 - d1)) by (apply Z.pow_pos_nonneg; lia).
    assert (E1 : 2 ^ (d1 - 1) * 2 ^ (d + 53 - d1) = 2 ^ (d + 52))
      by (rewrite <- Z.pow_add_r by lia; f_equal; lia).
    assert (E2 : 2 ^ d1 * 2 ^ (d + 53 - d1) = 2 ^ (d + 53))
      by (rewrite <- Z.pow_add_r by lia; f_equal; lia).
    nia. }
  assert (E52 : 2 ^ (d + 52) = 2 ^ d * 2 ^ 52)
    by (rewrite <- Z.pow_add_r by lia; reflexivity).
  assert (E53 : 2 ^ (d + 53) = 2 ^ (d - 1) * 2 ^ 54)
    by (rewrite <- Z.pow_add_r by lia; f_equal; lia).
  pose proof (Z.div_mod m' (Zpos D) ltac:(lia)) as Hdm.
  pose proof (Z.mod_pos_bound m' (Zpos D) ltac:(lia)) as Hr.
  assert (Hq : 2 ^ 52 <= m' / Zpos D < 2 ^ 54).
  { split.
    - apply Z.div_le_lower_bound; [lia|]. nia.
    - apply Z.div_lt_upper_bound; [lia|]. nia. }
  unfold Z.div, Z.modulo in Hdm, Hr, Hq.
  destruct (Z.div_eucl m' (Zpos D)) as [q r].
  destruct (binary_round_aux_quotient (Zpos D) Heven ltac:(lia)
              (xorb s false) q r (d1 - d - 53) Hq Hr ltac:(lia))
    as (m & e2 & -> & He2 & Hb).
  rewrite xorb_false_r.
  exists m, e2. split; [reflexivity|]. split; [lia|].
  assert (HT : 0 < 2 ^ (e2 - (d1 - d - 53)))
    by (apply Z.pow_pos_nonneg; lia).
  assert (E : m' = Zpos p * 2 ^ (- e2) * 2 ^ (e2 - (d1 - d - 53))).
  { unfold m'. rewrite <- Z.mul_assoc, <- Z.pow_add_r by lia.
    do 2 f_equal. lia. }
  rewrite <- Hdm, E in Hb.
  set (T := 2 ^ (e2 - (d1 - d - 53))) in *.
  replace (Zpos D * (Zpos m * T) - Zpos p * 2 ^ (- e2) * T)
    with ((Zpos D * Zpos m - Zpos p * 2 ^ (- e2)) * T) in Hb by ring.
  rewrite Z.abs_mul, (Z.abs_eq T) in Hb by lia.
  nia.
Qed.
End DecimalDivision.

Lemma trim_plain : forall c t l' z,
  is_white_space c = false -> (code c < 128)%N ->
  is_white_space z = false -> (code z < 128)%N ->
  c :: t = (l' ++ [z])%list ->
  trim (c :: t) = c :: t.
Proof.
  intros c t l' z Hc Hc' Hz Hz' E. unfold trim.
  rewrite (drop_white_space_plain false c t Hc Hc'), E, rev_unit.
  rewrite (drop_white_space_plain true z (rev l') Hz Hz').
  change (z :: rev l') with (rev [z] ++ rev l')%list.
  rewrite <- rev_app_distr. apply rev_involutive.
Qed.

Lemma take_digits_app : forall ds c r acc n,
  Forall (fun c => is_digit c = true) ds -> is_digit c = false ->
  take_digits acc n (ds ++ c :: r)
  = (digits_value acc ds, n + List.length ds, c :: r).
Proof.
  induction ds as [|d ds IH]; intros c r acc n H Hc; simpl.
  - rewrite Hc. now rewrite Nat.add_0_r.
  - inversion H as [|? ? Hd Hds]; subst. rewrite Hd, IH by assumption.
    now rewrite Nat.add_succ_r.
Qed.

(** The literal made of digits, a point and digits. *)
Lemma parse_decimal_decimals : forall sg c t0 fs,
  Forall (fun c => is_digit c = true) (c :: t0) ->
  Forall (fun c => is_digit c = true) fs ->
  parse_decimal sg (c :: t0 ++ "."%char :: fs)
  = decimal_to_number sg (digits_value 0 ((c :: t0) ++ fs))
                      (- Z.of_nat (List.length fs)).
Proof.
  intros sg c t0 fs Hdi Hfs.
  inversion Hdi as [|? ? Hc _]; subst.
  destruct (digit_is_plain c Hc) as (_ & _ & HI & _).
  unfold parse_decimal.
  set (t := (t0 ++ "."%char :: fs)%list).
  assert (Hinf : ascii_list_eqb (c :: t) Infinity_literal = false).
  { unfold ascii_list_eqb, Infinity_literal.
    change (string_of_list_ascii (c :: t))
      with (String c (string_of_list_ascii t)).
    change (string_of_list_ascii (list_ascii_of_string "Infinity"))
      with (String "I" "nfinity").
    change (String.eqb (String c (string_of_list_ascii t))
                       (String "I" "nfinity"))
      with (Ascii.eqb c "I"
            && String.eqb (string_of_list_ascii t) "nfinity").
    now rewrite HI. }
  rewrite Hinf. unfold t.
  change (c :: t0 ++ "."%char :: fs)%list
    with ((c :: t0) ++ "."%char :: fs)%list.
  rewrite (take_digits_app (c :: t0) "." fs 0%N 0 Hdi eq_refl).
  rewrite (take_digits_all fs _ 0 Hfs).
  cbn [Nat.add List.length Nat.ltb Nat.leb parse_exponent].
  rewrite digits_value_app. reflexivity.
Qed.

(** [Number] on an optional minus sign, digits, a point and digits. *)
Lemma StringToNumber_decimals : forall (negative : bool) int frac,
  int <> "" -> all_chars decimal_digit int ->
  frac <> "" -> all_chars decimal_digit frac ->
  StringToNumber ((if negative then "-" else "") ++ int ++ "." ++ frac)
  = decimal_to_number negative
      (digits_value 0 (list_ascii_of_string (int ++ frac)))
      (- Z.of_nat (String.length frac)).
Proof.
  intros negative int frac Hne Hi Hnf Hf.
  assert (Hdi : Forall (fun c => is_digit c = true)
                       (list_ascii_of_string int)).
  { unfold all_chars in Hi. eapply Forall_impl; [|exact Hi].
    exact is_digit_of_decimal_digit. }
  assert (Hdf : Forall (fun c => is_digit c = true)
                       (list_ascii_of_string frac)).
  { unfold all_chars in Hf. eapply Forall_impl; [|exact Hf].
    exact is_digit_of_decimal_digit. }
  assert (Hlen : String.length frac
                 = List.length (list_ascii_of_string frac)).
  { clear. induction frac as [|c s IH]; simpl; [reflexivity | now rewrite IH]. }
  rewrite Hlen.
  unfold StringToNumber.
  rewrite !list_ascii_of_append.
  change (list_ascii_of_string ".") with ["."%char].
  set (fs := list_ascii_of_string frac) in *.
  assert (Hfs : fs <> []).
  { unfold fs. destruct frac; [contradiction | discriminate]. }
  destruct (exists_last Hfs) as (fs' & z & Efs).
  assert (Hz : is_digit z = true).
  { rewrite Forall_forall in Hdf. apply Hdf. rewrite Efs.
    apply in_or_app. right. now left. }
  destruct (list_ascii_of_string int) as [|c t0] eqn:El.
  { destruct int; [contradiction | discriminate El]. }
  inversion Hdi as [|? ? Hc Ht0]; subst.
  destruct (digit_is_plain c Hc) as (Hws & Hsign & _).
  destruct (digit_is_plain z Hz) as (Hws2 & _).
  pose proof (parse_decimal_decimals negative c t0 fs Hdi Hdf) as Hdec.
  set (t := (t0 ++ "."%char :: fs)%list) in *.
  destruct negative.
  - (* a minus sign, then the digits *)
    change (list_ascii_of_string "-" ++ (c :: t0) ++ ["."%char] ++ fs)%list
      with ("-"%char :: c :: t).
    rewrite (trim_plain "-" (c :: t) ("-"%char :: c :: t0 ++ "."%char :: fs')
               z eq_refl eq_refl Hws2 (digit_is_ascii z Hz))
      by (unfold t; rewrite Efs; cbn [app]; rewrite <- app_assoc;
          reflexivity).
    exact Hdec.
  - change (list_ascii_of_string "" ++ (c :: t0) ++ ["."%char] ++ fs)%list
      with (c :: t).
    rewrite (trim_plain c t (c :: t0 ++ "."%char :: fs') z
               Hws (digit_is_ascii c Hc) Hws2 (digit_is_ascii z Hz))
      by (unfold t; rewrite Efs; cbn [app]; rewrite <- app_assoc;
          reflexivity).
    rewrite Hsign.
    assert (Hsecond : exists c1 t', t = c1 :: t' /\
              (Ascii.eqb c1 "x" || Ascii.eqb c1 "X" = false) /\
              (Ascii.eqb c1 "o" || Ascii.eqb c1 "O" = false) /\
              (Ascii.eqb c1 "b" || Ascii.eqb c1 "B" = false)).
    { unfold t. destruct t0 as [|c1 t0'].
      - exists "."%char, fs. repeat split.
      - inversion Ht0 as [|? ? Hc1 _]; subst.
        destruct (digit_is_plain c1 Hc1) as (_ & _ & _ & _ & Hx & Ho & Hb).
        exists c1, (t0' ++ "."%char :: fs)%list. repeat split; auto. }
    destruct Hsecond as (c1 & t' & Et & Hx & Ho & Hb).
    rewrite Et in *.
    destruct c as [[] [] [] [] [] [] [] []]; try discriminate Hc;
      try exact Hdec.
    rewrite Hx, Ho, Hb. exact Hdec.
Qed.

(** A number within half a unit in the last place of [n / 100], at an
    exponent of [-7] at most, shows the [n] hundredths. *)
Lemma toFixed_of_hundredths : forall s m e n,
  (e <= -7)%Z -> (0 < n < 2 ^ 53)%Z ->
  (2 * Z.abs (100 * Zpos m - n * 2 ^ (- e)) <= 100)%Z ->
  toFixed 2 (S754_finite s m e) = (if s then "-" else "") ++ fixed_digits 2 n.
Proof.
  intros s m e n He Hn Hb. unfold toFixed.
  assert (HK : (2 ^ 7 <= 2 ^ (- e))%Z) by (apply Z.pow_le_mono_r; lia).
  change (2 ^ 7)%Z with 128%Z in HK.
  change (2 ^ 53)%Z with 9007199254740992%Z in Hn.
  assert (Hge : finite_ge m e (10 ^ 21) = false).
  { unfold finite_ge. replace (0 <=? e)%Z with false
      by (symmetry; apply Z.leb_gt; lia).
    apply Z.leb_gt. change (10 ^ 21)%Z with 1000000000000000000000%Z. nia. }
  rewrite Hge. do 2 f_equal.
  pose proof (nearest_scaled_hundredths m e) as [_ Hnear].
  replace (0 <=? e)%Z with false in Hnear by (symmetry; apply Z.leb_gt; lia).
  set (n' := nearest_scaled 2 m e) in *.
  set (K := (2 ^ (- e))%Z) in *.
  assert (- 2 * K < 2 * ((n' - n) * K) < 2 * K)%Z by lia.
  nia.
Qed.

Lemma to_uint_rev : forall x,
  N.to_uint x = Decimal.rev (Unsigned.to_lu x).
Proof. intros [|p]; reflexivity. Qed.

Lemma to_lu_units : forall p k,
  Unsigned.to_lu (10 * Npos p + N.of_nat k)
  = Nat.iter k Decimal.Little.succ (Decimal.D0 (Unsigned.to_lu (Npos p))).
Proof.
  intros p k. induction k as [|k IH].
  - rewrite N.add_0_r. apply Unsigned.to_ldec_tenfold.
  - rewrite Nat2N.inj_succ, N.add_succ_r, Unsigned.to_lu_succ, IH.
    reflexivity.
Qed.

(** The digits of [10 * n + d]. *)
Lemma decimal_string_digit : forall n d,
  (0 < n)%Z -> decimal_digit d ->
  decimal_string (10 * n + Z.of_N (digit_val d))
  = decimal_string n ++ String d "".
Proof.
  intros n d Hn Hd. unfold decimal_string.
  destruct n as [|p|p]; try lia.
  change (Z.to_N (Zpos p)) with (Npos p).
  replace (Z.to_N (10 * Zpos p + Z.of_N (digit_val d)))
    with (10 * Npos p + N.of_nat (N.to_nat (digit_val d)))%N
    by (rewrite N2Nat.id; lia).
  rewrite !to_uint_rev, to_lu_units.
  unfold decimal_digit in Hd. simpl in Hd.
  repeat (destruct Hd as [<-|Hd];
    [ match goal with
      | |- context [Nat.iter ?k _ _] =>
          let k' := eval vm_compute in k in change k with k'
      end;
      unfold Nat.iter; cbn [nat_rect Decimal.Little.succ];
      unfold Decimal.rev at 1; cbn [Decimal.revapp];
      rewrite string_of_uint_revapp; reflexivity | ]).
  contradiction.
Qed.

(** The digits of [n] with a point before the last two. *)
Lemma fixed_digits_split : forall n s t,
  decimal_string n = s ++ t -> s <> "" -> String.length t = 2 ->
  fixed_digits 2 n = s ++ "." ++ t.
Proof.
  intros n s t Hs Hne Ht. unfold fixed_digits. rewrite Hs.
  assert (Hl : String.length (s ++ t) = String.length s + 2)
    by (rewrite length_append; lia).
  assert (Hne' : String.length s <> 0)
    by (destruct s; [contradiction | discriminate]).
  replace (String.length (s ++ t) <=? 2)%nat with false
    by (symmetry; apply Nat.leb_gt; lia).
  rewrite Hl. replace (String.length s + 2 - 2) with (String.length s) by lia.
  destruct (substring_cut (s ++ t) (String.length s)) as [Hcut Hlen];
    [lia|].
  rewrite Hl in Hcut.
  replace (String.length s + 2 - String.length s) with 2 in Hcut by lia.
  destruct (append_inj_length _ _ _ _ (eq_sym Hlen) Hcut) as [H1 H2].
  now rewrite <- H1, <- H2.
Qed.

Lemma digit_val_bound : forall d, decimal_digit d -> (digit_val d <= 9)%N.
Proof.
  intros d Hd. unfold decimal_digit in Hd. simpl in Hd.
  repeat (destruct Hd as [<-|Hd]; [vm_compute; discriminate|]).
  contradiction.
Qed.

(** The quotient of a positive integer below [2 ^ 48] by [10], and
    below [2 ^ 51] by [100], shows the amount it stands for. *)
Lemma toFixed_tenth : forall s p,
  (Zpos p < 2 ^ 48)%Z ->
  toFixed 2 (SFdiv prec emax (S754_finite s p 0) (S754_finite false 10 0))
  = (if s then "-" else "") ++ fixed_digits 2 (10 * Zpos p).
Proof.
  intros s p Hp.
  destruct (SFdiv_quotient s p 10 eq_refl eq_refl ltac:(simpl; lia) Hp)
    as (m & e & -> & He & Hb).
  apply toFixed_of_hundredths; [lia | | lia].
  change (2 ^ 48)%Z with 281474976710656%Z in Hp.
  change (2 ^ 53)%Z with 9007199254740992%Z. lia.
Qed.

Lemma toFixed_hundredth : forall s p,
  (Zpos p < 2 ^ 51)%Z ->
  toFixed 2 (SFdiv prec emax (S754_finite s p 0) (S754_finite false 100 0))
  = (if s then "-" else "") ++ fixed_digits 2 (Zpos p).
Proof.
  intros s p Hp.
  destruct (SFdiv_quotient s p 100 eq_refl eq_refl ltac:(simpl; lia) Hp)
    as (m & e & -> & He & Hb).
  apply toFixed_of_hundredths; [lia | | lia].
  change (2 ^ 51)%Z with 2251799813685248%Z in Hp.
  change (2 ^ 53)%Z with 9007199254740992%Z. lia.
Qed.

(** An amount written with one or two decimals is shown as it is
    written, a zero being added after a single decimal: for an optional
    minus sign, a whole part [i] below [2 ^ 44] (some 17 * 10 ^ 12) and
    one or two digits [frac], reading the text with [Number] and
    printing the number with [toFixed(2)] gives the text back, although
    the number in between is not the decimal amount. (The texts -0.0
    and -0.00 are left out: they are shown as 0.00.) *)
Theorem decimal_amount_exact : forall name (negative : bool) i frac,
  (0 <= i < 2 ^ 44)%Z ->
  1 <= String.length frac <= 2 -> all_chars decimal_digit frac ->
  (negative = true ->
   (0 < i)%Z \/ frac <> zeros (String.length frac)) ->
  let sign := if negative then "-" else "" in
  format_line name (sign ++ decimal_string i ++ "." ++ frac)
  = name ++ ": $" ++ sign ++ decimal_string i ++ "." ++ frac
    ++ zeros (2 - String.length frac).
Proof.
  intros name negative i frac [Hi Hlt] Hl Hf Hzero sign. subst sign.
  change (2 ^ 44)%Z with 17592186044416%Z in Hlt.
  unfold format_line. do 2 f_equal.
  assert (Hne : frac <> "")
    by (destruct frac; [simpl in Hl; lia | discriminate]).
  destruct (Z.eq_dec i 0) as [-> | Hnz].
  { (* no whole part: the texts 0.0 to 0.9 and 0.00 to 0.99, and the
       negative ones *)
    assert (Hz : negative = true -> frac <> zeros (String.length frac))
      by (intros H; destruct (Hzero H) as [H'|H']; [lia | exact H']).
    clear Hzero.
    destruct frac as [|f1 [|f2 [|]]]; simpl in Hl; try lia;
      unfold all_chars, decimal_digit in Hf; simpl in Hf;
      inversion Hf as [|? ? Hf1 Hf']; subst.
    - destruct negative;
        repeat (destruct Hf1 as [<-|Hf1];
          [first [vm_compute; reflexivity
                 | exfalso; now apply (Hz eq_refl)]|]);
        contradiction.
    - inversion Hf' as [|? ? Hf2 _]; subst.
      destruct negative;
        repeat (destruct Hf1 as [<-|Hf1];
          [repeat (destruct Hf2 as [<-|Hf2];
             [first [vm_compute; reflexivity
                    | exfalso; now apply (Hz eq_refl)]|]);
           contradiction|]);
        contradiction. }
  rewrite StringToNumber_decimals;
    [ | apply decimal_string_not_empty | apply decimal_string_digits
      | exact Hne | exact Hf ].
  rewrite list_ascii_of_append, digits_value_app.
  pose proof (digits_value_decimal_string i Hi) as Hv.
  set (w := digits_value 0 (list_ascii_of_string (decimal_string i))) in *.
  destruct frac as [|f1 [|f2 [|]]]; simpl in Hl; try lia.
  - (* one decimal *)
    assert (Hf1 : decimal_digit f1)
      by (unfold all_chars in Hf; simpl in Hf; now inversion Hf).
    change (list_ascii_of_string (String f1 "")) with [f1].
    cbn [digits_value String.length].
    pose proof (digit_val_bound f1 Hf1) as Hb1.
    set (n := (10 * w + digit_val f1)%N).
    assert (Hn : Z.of_N n = (10 * i + Z.of_N (digit_val f1))%Z)
      by (unfold n; lia).
    assert (Hs : decimal_string (10 * Z.of_N n)
                 = decimal_string i ++ String f1 "0").
    { rewrite decimal_string_tenfold by lia.
      rewrite Hn, decimal_string_digit by (lia || assumption).
      now rewrite append_assoc. }
    destruct n as [|p] eqn:En; [lia|].
    unfold decimal_to_number.
    change (0 <=? - Z.of_nat 1)%Z with false. cbv iota.
    change (Z.to_pos (10 ^ (- - Z.of_nat 1))) with 10%positive.
    rewrite toFixed_tenth
      by (change (2 ^ 48)%Z with 281474976710656%Z; lia).
    f_equal. cbn [Nat.sub zeros append].
    apply fixed_digits_split.
    + exact Hs.
    + apply decimal_string_not_empty.
    + reflexivity.
  - (* two decimals *)
    assert (Hf12 : decimal_digit f1 /\ decimal_digit f2).
    { unfold all_chars in Hf. simpl in Hf.
      inversion Hf as [|? ? H1 Hf'].
      inversion Hf' as [|? ? H2 _]. now split. }
    destruct Hf12 as [Hf1 Hf2].
    change (list_ascii_of_string (String f1 (String f2 ""))) with [f1; f2].
    cbn [digits_value String.length].
    pose proof (digit_val_bound f1 Hf1) as Hb1.
    pose proof (digit_val_bound f2 Hf2) as Hb2.
    set (n := (10 * (10 * w + digit_val f1) + digit_val f2)%N).
    assert (Hn : Z.of_N n
                 = (10 * (10 * i + Z.of_N (digit_val f1))
                    + Z.of_N (digit_val f2))%Z)
      by (unfold n; lia).
    assert (Hs : decimal_string (Z.of_N n)
                 = decimal_string i ++ String f1 (String f2 "")).
    { rewrite Hn, decimal_string_digit by (lia || assumption).
      rewrite decimal_string_digit by (lia || assumption).
      now rewrite append_assoc. }
    destruct n as [|p] eqn:En; [lia|].
    unfold decimal_to_number.
    change (0 <=? - Z.of_nat 2)%Z with false. cbv iota.
    change (Z.to_pos (10 ^ (- - Z.of_nat 2))) with 100%positive.
    rewrite toFixed_hundredth
      by (change (2 ^ 51)%Z with 2251799813685248%Z; lia).
    f_equal. cbn [Nat.sub zeros append].
    apply fixed_digits_split.
    + exact Hs.
    + apply decimal_string_not_empty.
    + reflexivity.
Qed.

(** The amounts -1234.56 and 1234.5. *)
Lemma decimal_amount_exact_witness :
  format_line "Wallet" ("-" ++ decimal_string 1234 ++ "." ++ "56")
  = "Wallet" ++ ": $" ++ "-" ++ decimal_string 1234 ++ "." ++ "56"
    ++ zeros (2 - String.length "56") /\
  format_line "Wallet" ("" ++ decimal_string 1234 ++ "." ++ "5")
  = "Wallet" ++ ": $" ++ "" ++ decimal_string 1234 ++ "." ++ "5"
    ++ zeros (2 - String.length "5").
Proof.
  split.
  - refine (decimal_amount_exact "Wallet" true 1234 "56" _ _ _ _);
      [split; [lia | reflexivity] | simpl; lia
       | repeat constructor; simpl; tauto | intros _; left; lia].
  - refine (decimal_amount_exact "Wallet" false 1234 "5" _ _ _ _);
      [split; [lia | reflexivity] | simpl; lia
       | repeat constructor; simpl; tauto | discriminate].
Defined.
